(** * Terrain row lifecycle: generation, clearing and explosions

    A shallow embedding of [src/game/managers/TerrainManager.ts], the
    row-based terrain engine of the dig-downward game, and the properties of
    its row store, generation frontier, row clearer and explosion resolver;
    then of its callers, the dig of [src/game/entities/Player.ts] and the
    frame loop of [src/game/scenes/Game.ts].

    Conventions of the embedding.
    - A JavaScript [number] is an exact rational ([Q]); [Math.floor] and
      [Math.ceil] are [Qfloor] and [Qceiling].  Rounding of IEEE doubles, NaN
      and the infinities are outside the model.
    - The two [Map<number, GameObject>] row registries are [gmap Z _], keyed by
      the integer row index.
    - A Phaser group is the list of its children in insertion order;
      [group.add] appends.
    - The manager is a record that every method takes and returns.
      [Math.random()] reads the next value of a fixed stream and advances a
      cursor kept in the record; calls to the particle manager and to the event
      bus are appended to logs kept in the record.
    - [console.log] and the purely visual [setDepth]/[setVisible] calls are
      dropped. *)

From Stdlib Require Import ZArith QArith Qround Qabs Qminmax Reals Qreals.
From Stdlib Require Import Lia Lqa List.
From Stdlib Require String.
From stdpp Require Import base option list gmap.

Local Open Scope Z_scope.

(** ** Numbers *)

(** [x < y] on JavaScript numbers, as a boolean. *)
Definition Qlt_bool (x y : Q) : bool := negb (Qle_bool y x).

(** ** Game objects seen by the terrain manager *)

(** An arcade physics body: the manager reads [body.position] and
    [body.offset] only. *)
Record Body := mkBody {
  position_x : Q;
  position_y : Q;
  offset_x : Q;
  offset_y : Q }.

(** The entity classes [Boulder], [Enemy], [Spike] and [Coin] live outside
    [src/]; the manager uses them through this interface: construction at a
    world position, the position, the [active] flag and the physics body. *)
Class GameObject (E : Type) := {
  go_new : Q → Q → E;
  go_x : E → Q;
  go_y : E → Q;
  go_active : E → bool;
  go_body : E → option Body }.

(** [entity.takeDamage(amount)]. *)
Class Damageable (E : Type) := {
  takeDamage : Z → E → E }.

(** [enemy.setSpeed(speed)]. *)
Class Mobile (E : Type) := {
  setSpeed : Q → E → E }.

(** The invisible static image that carries a row's physics body.  [collider_id]
    and [visual_id] stand for JavaScript object identity: every [new] object
    takes the next number of an allocation counter. *)
Record Collider := mkCollider {
  collider_id : nat;
  collider_x : Q;
  collider_y : Q;
  collider_body_width : Q;
  collider_body_height : Q;
  collider_rowY : Z }.

(** The tile sprite that draws a row. *)
Record Visual := mkVisual {
  visual_id : nat;
  visual_x : Q;
  visual_y : Q;
  visual_width : Q;
  visual_height : Q }.

Inductive ParticleKey := dirt_tile | spikes.

(** One call [particleManager.triggerParticles(key, x, y, options)]. *)
Record ParticleCall := mkParticleCall {
  particle_key : ParticleKey;
  particle_x : Q;
  particle_y : Q;
  particle_count : Z;
  particle_speed : option Q;
  particle_scale : option Q }.

(** ** Configuration of the manager (private fields that are never assigned
    after their initialiser) *)

Definition mapWidthTiles : Z := 25.
Definition mapHeightTiles : Z := 500.

Definition boulderSpawnChanceBase : Q := 0.03.
Definition enemySpawnChanceBase : Q := 0.008.
Definition spikeSpawnChanceBase : Q := 0.03.
Definition coinSpawnChanceBase : Q := 0.005.
Definition difficultyScaleFactor : Q := 0.003.

Definition initialPlatformRows : Z := 5.
Definition initialClearRows : Z := 3.

Definition baseEnemySpeed : Q := 30.
Definition enemySpeedDepthScale : Q := 0.5.

(** [map.has(key)]. *)
Definition has {V : Type} (key : Z) (m : gmap Z V) : bool :=
  match m !! key with Some _ => true | None => false end.

Section TerrainManager.

Context {Boulder Enemy Spike Coin : Type}.
Context `{!GameObject Boulder, !Damageable Boulder}.
Context `{!GameObject Enemy, !Damageable Enemy, !Mobile Enemy}.
Context `{!GameObject Spike, !Damageable Spike}.
Context `{!GameObject Coin}.

(** [TILE_SIZE] is imported from [../constants], which is not under [src/]. *)
Variable TILE_SIZE : Q.

(** The values returned by successive calls of [Math.random()]. *)
Variable random : nat → Q.

(** ** The manager's state *)

Record TerrainManager := mkTerrainManager {
  generatedRowsMaxY : Q;
  bouldersGroup : list Boulder;
  enemiesGroup : list Enemy;
  spikesGroup : option (list Spike);
  coinsGroup : option (list Coin);
  (* the calls received by the particle manager, oldest first *)
  particleManager : option (list ParticleCall);
  rowColliderGroup : list Collider;
  rowVisualsGroup : list Visual;
  rowColliders : gmap Z Collider;
  rowVisuals : gmap Z Visual;
  (* payloads [tileY] of the "dirt-row-cleared" events emitted, oldest first *)
  eventBus : list Z;
  (* number of [Math.random()] calls made so far *)
  randomCalls : nat;
  (* number of row objects allocated so far *)
  allocated : nat }.

Definition set_generatedRowsMaxY (v : Q) (s : TerrainManager) :=
  mkTerrainManager v (bouldersGroup s) (enemiesGroup s) (spikesGroup s)
    (coinsGroup s) (particleManager s) (rowColliderGroup s)
    (rowVisualsGroup s) (rowColliders s) (rowVisuals s) (eventBus s)
    (randomCalls s) (allocated s).

Definition set_bouldersGroup (v : list Boulder) (s : TerrainManager) :=
  mkTerrainManager (generatedRowsMaxY s) v (enemiesGroup s) (spikesGroup s)
    (coinsGroup s) (particleManager s) (rowColliderGroup s)
    (rowVisualsGroup s) (rowColliders s) (rowVisuals s) (eventBus s)
    (randomCalls s) (allocated s).

Definition set_enemiesGroup (v : list Enemy) (s : TerrainManager) :=
  mkTerrainManager (generatedRowsMaxY s) (bouldersGroup s) v (spikesGroup s)
    (coinsGroup s) (particleManager s) (rowColliderGroup s)
    (rowVisualsGroup s) (rowColliders s) (rowVisuals s) (eventBus s)
    (randomCalls s) (allocated s).

Definition set_spikesGroup (v : option (list Spike)) (s : TerrainManager) :=
  mkTerrainManager (generatedRowsMaxY s) (bouldersGroup s) (enemiesGroup s) v
    (coinsGroup s) (particleManager s) (rowColliderGroup s)
    (rowVisualsGroup s) (rowColliders s) (rowVisuals s) (eventBus s)
    (randomCalls s) (allocated s).

Definition set_coinsGroup (v : option (list Coin)) (s : TerrainManager) :=
  mkTerrainManager (generatedRowsMaxY s) (bouldersGroup s) (enemiesGroup s)
    (spikesGroup s) v (particleManager s) (rowColliderGroup s)
    (rowVisualsGroup s) (rowColliders s) (rowVisuals s) (eventBus s)
    (randomCalls s) (allocated s).

Definition set_particleManager (v : option (list ParticleCall))
    (s : TerrainManager) :=
  mkTerrainManager (generatedRowsMaxY s) (bouldersGroup s) (enemiesGroup s)
    (spikesGroup s) (coinsGroup s) v (rowColliderGroup s)
    (rowVisualsGroup s) (rowColliders s) (rowVisuals s) (eventBus s)
    (randomCalls s) (allocated s).

Definition set_rowColliderGroup (v : list Collider) (s : TerrainManager) :=
  mkTerrainManager (generatedRowsMaxY s) (bouldersGroup s) (enemiesGroup s)
    (spikesGroup s) (coinsGroup s) (particleManager s) v
    (rowVisualsGroup s) (rowColliders s) (rowVisuals s) (eventBus s)
    (randomCalls s) (allocated s).

Definition set_rowVisualsGroup (v : list Visual) (s : TerrainManager) :=
  mkTerrainManager (generatedRowsMaxY s) (bouldersGroup s) (enemiesGroup s)
    (spikesGroup s) (coinsGroup s) (particleManager s) (rowColliderGroup s)
    v (rowColliders s) (rowVisuals s) (eventBus s)
    (randomCalls s) (allocated s).

Definition set_rowColliders (v : gmap Z Collider) (s : TerrainManager) :=
  mkTerrainManager (generatedRowsMaxY s) (bouldersGroup s) (enemiesGroup s)
    (spikesGroup s) (coinsGroup s) (particleManager s) (rowColliderGroup s)
    (rowVisualsGroup s) v (rowVisuals s) (eventBus s)
    (randomCalls s) (allocated s).

Definition set_rowVisuals (v : gmap Z Visual) (s : TerrainManager) :=
  mkTerrainManager (generatedRowsMaxY s) (bouldersGroup s) (enemiesGroup s)
    (spikesGroup s) (coinsGroup s) (particleManager s) (rowColliderGroup s)
    (rowVisualsGroup s) (rowColliders s) v (eventBus s)
    (randomCalls s) (allocated s).

Definition set_eventBus (v : list Z) (s : TerrainManager) :=
  mkTerrainManager (generatedRowsMaxY s) (bouldersGroup s) (enemiesGroup s)
    (spikesGroup s) (coinsGroup s) (particleManager s) (rowColliderGroup s)
    (rowVisualsGroup s) (rowColliders s) (rowVisuals s) v
    (randomCalls s) (allocated s).

Definition set_randomCalls (v : nat) (s : TerrainManager) :=
  mkTerrainManager (generatedRowsMaxY s) (bouldersGroup s) (enemiesGroup s)
    (spikesGroup s) (coinsGroup s) (particleManager s) (rowColliderGroup s)
    (rowVisualsGroup s) (rowColliders s) (rowVisuals s) (eventBus s)
    v (allocated s).

Definition set_allocated (v : nat) (s : TerrainManager) :=
  mkTerrainManager (generatedRowsMaxY s) (bouldersGroup s) (enemiesGroup s)
    (spikesGroup s) (coinsGroup s) (particleManager s) (rowColliderGroup s)
    (rowVisualsGroup s) (rowColliders s) (rowVisuals s) (eventBus s)
    (randomCalls s) v.

(** [Math.random()]. *)
Definition Math_random (s : TerrainManager) : Q * TerrainManager :=
  (random (randomCalls s), set_randomCalls (S (randomCalls s)) s).

(** [EventBus.emit("dirt-row-cleared", { tileY })]. *)
Definition emit_dirt_row_cleared (tileY : Z) (s : TerrainManager) :=
  set_eventBus (eventBus s ++ [tileY]) s.

(** [particleManager.triggerParticles(...)]: the call is recorded. *)
Definition triggerParticles (c : ParticleCall) (calls : list ParticleCall)
    : list ParticleCall :=
  calls ++ [c].

(** The constructor: the spikes group and both row groups are created
    empty, the frontier starts below the clear rows. *)
Definition new_TerrainManager (boulders : list Boulder) (enemies : list Enemy)
    (coins : option (list Coin)) (particles : option (list ParticleCall))
    : TerrainManager :=
  {| generatedRowsMaxY := inject_Z initialClearRows * TILE_SIZE;
     bouldersGroup := boulders;
     enemiesGroup := enemies;
     spikesGroup := Some [];
     coinsGroup := coins;
     particleManager := particles;
     rowColliderGroup := [];
     rowVisualsGroup := [];
     rowColliders := ∅;
     rowVisuals := ∅;
     eventBus := [];
     randomCalls := 0%nat;
     allocated := 0%nat |}.

Definition mapWidthPixels : Q := inject_Z mapWidthTiles * TILE_SIZE.
Definition mapHeightPixels : Q := inject_Z mapHeightTiles * TILE_SIZE.

(** ** Row Generator *)

(** The occupancy test of one game object: its body exists and the body's
    reference point lies within [checkRadius] of the target on both axes. *)
Definition bodyWithin (spawnWorldX spawnSurfaceY checkRadius : Q)
    (body : option Body) : bool :=
  match body with
  | Some b =>
      Qlt_bool (Qabs (position_x b + offset_x b - spawnWorldX)) checkRadius
      && Qlt_bool (Qabs (position_y b + offset_y b - spawnSurfaceY))
           checkRadius
  | None => false
  end.

(** [group.getChildren().forEach(...)] of the occupancy scan. *)
Definition groupOccupies {E : Type} `{!GameObject E}
    (spawnWorldX spawnSurfaceY checkRadius : Q) (group : list E) : bool :=
  existsb (λ go, bodyWithin spawnWorldX spawnSurfaceY checkRadius (go_body go))
    group.

(** The same scan for a group that may be undefined ([if (!group) continue]). *)
Definition optGroupOccupies {E : Type} `{!GameObject E}
    (spawnWorldX spawnSurfaceY checkRadius : Q) (group : option (list E))
    : bool :=
  match group with
  | Some g => groupOccupies spawnWorldX spawnSurfaceY checkRadius g
  | None => false
  end.

(** The loop over [groupsToCheck] = boulders, enemies, spikes, coins, which
    stops at the first group that reports an occupant. *)
Definition spaceOccupiedAt (spawnWorldX spawnSurfaceY : Q)
    (s : TerrainManager) : bool :=
  let checkRadius := (TILE_SIZE * 0.8)%Q in
  groupOccupies spawnWorldX spawnSurfaceY checkRadius (bouldersGroup s)
  || groupOccupies spawnWorldX spawnSurfaceY checkRadius (enemiesGroup s)
  || optGroupOccupies spawnWorldX spawnSurfaceY checkRadius (spikesGroup s)
  || optGroupOccupies spawnWorldX spawnSurfaceY checkRadius (coinsGroup s).

(** The per-row values computed before the column loop of [generateRow]. *)
Record RowSpawn := mkRowSpawn {
  spawnSurfaceY : Q;
  spikeSpawnY : Q;
  currentBoulderChance : Q;
  currentEnemyChance : Q;
  currentSpikeChance : Q;
  currentCoinChance : Q;
  currentEnemySpeed : Q }.

Definition rowSpawn (worldY : Q) (tileY : Z) : RowSpawn :=
  let colliderYOffset := (TILE_SIZE * 0.9)%Q in
  let colliderHeight := (TILE_SIZE * 0.1)%Q in
  let depthInRows := tileY - (initialPlatformRows + 1) in
  let depthFactor :=
    (inject_Z (Z.max 0 depthInRows) * difficultyScaleFactor)%Q in
  {| spawnSurfaceY := (worldY + colliderYOffset - colliderHeight / 2)%Q;
     spikeSpawnY := worldY;
     currentBoulderChance := (boulderSpawnChanceBase + depthFactor)%Q;
     currentEnemyChance := (enemySpawnChanceBase + depthFactor)%Q;
     currentSpikeChance := (spikeSpawnChanceBase + depthFactor)%Q;
     currentCoinChance := (coinSpawnChanceBase + depthFactor)%Q;
     currentEnemySpeed :=
       Qmin 100
         (baseEnemySpeed + inject_Z depthInRows * enemySpeedDepthScale)%Q |}.

(** The [if / else if / else if] chain of one cell: the boulder, enemy and
    spike rolls.  Returns the flag [spaceOccupied] after the chain. *)
Definition spawnHazard (r : RowSpawn) (spawnWorldX : Q) (s : TerrainManager)
    : bool * TerrainManager :=
  let '(roll, s) := Math_random s in
  if Qlt_bool roll (currentBoulderChance r) then
    let boulder := go_new spawnWorldX (spawnSurfaceY r - TILE_SIZE / 2)%Q in
    (true, set_bouldersGroup (bouldersGroup s ++ [boulder]) s)
  else
    let '(roll, s) := Math_random s in
    if Qlt_bool roll (currentEnemyChance r) then
      let enemy := go_new spawnWorldX (spawnSurfaceY r - TILE_SIZE / 2)%Q in
      let enemy := setSpeed (currentEnemySpeed r) enemy in
      (true, set_enemiesGroup (enemiesGroup s ++ [enemy]) s)
    else
      let '(roll, s) := Math_random s in
      if Qlt_bool roll (currentSpikeChance r) then
        match spikesGroup s with
        | Some group =>
            let spike :=
              go_new (spawnWorldX - TILE_SIZE / 2)%Q (spikeSpawnY r + 10)%Q in
            (true, set_spikesGroup (Some (group ++ [spike])) s)
        | None => (false, s)
        end
      else (false, s).

(** Modelled from the spec: the static [Coin.spawn(scene, coinsGroup, x, y)]
    is not under [src/].  The specification has the generator add the newly
    constructed member to its collection: the new coin joins the coins group;
    without a group there is nothing to hold it. *)
Definition Coin_spawn (x y : Q) (s : TerrainManager) : TerrainManager :=
  match coinsGroup s with
  | Some group => set_coinsGroup (Some (group ++ [go_new x y])) s
  | None => s
  end.

(** The body of the column loop [for (let tileX = 0; ...)]. *)
Definition spawnCell (r : RowSpawn) (s : TerrainManager) (tileX : Z)
    : TerrainManager :=
  let spawnWorldX := (inject_Z tileX * TILE_SIZE + TILE_SIZE / 2)%Q in
  if spaceOccupiedAt spawnWorldX (spawnSurfaceY r) s then s
  else
    let '(spaceOccupied, s) := spawnHazard r spawnWorldX s in
    if negb spaceOccupied then
      let '(roll, s) := Math_random s in
      if Qlt_bool roll (currentCoinChance r) then
        Coin_spawn spawnWorldX (spawnSurfaceY r - TILE_SIZE / 2)%Q s
      else s
    else s.

(** Step 1 of [generateRow]: the collider strip, added to the physics group
    and registered under the row index. *)
Definition addRowCollider (worldY : Q) (tileY : Z) (s : TerrainManager)
    : TerrainManager :=
  let colliderYOffset := (TILE_SIZE * 0.9)%Q in
  let colliderHeight := (TILE_SIZE * 0.1)%Q in
  let collider :=
    {| collider_id := allocated s;
       collider_x := 0;
       collider_y := (worldY + colliderYOffset)%Q;
       collider_body_width := (mapWidthPixels + 30)%Q;
       collider_body_height := colliderHeight;
       collider_rowY := tileY |} in
  let s := set_allocated (S (allocated s)) s in
  let s := set_rowColliderGroup (rowColliderGroup s ++ [collider]) s in
  set_rowColliders (<[tileY := collider]> (rowColliders s)) s.

(** Step 2 of [generateRow]: the full-width visual band. *)
Definition addRowVisual (worldY : Q) (tileY : Z) (s : TerrainManager)
    : TerrainManager :=
  let visual :=
    {| visual_id := allocated s;
       visual_x := (mapWidthPixels / 2)%Q;
       visual_y := (worldY + TILE_SIZE / 2)%Q;
       visual_width := mapWidthPixels;
       visual_height := TILE_SIZE |} in
  let s := set_allocated (S (allocated s)) s in
  let s := set_rowVisualsGroup (rowVisualsGroup s ++ [visual]) s in
  set_rowVisuals (<[tileY := visual]> (rowVisuals s)) s.

(** [generateRow(worldY, forceGenerate = false)]. *)
Definition generateRow (worldY : Q) (forceGenerate : bool)
    (s : TerrainManager) : TerrainManager :=
  let tileY := Qfloor (worldY / TILE_SIZE) in
  if (tileY <? 0) || (mapHeightTiles <=? tileY) || has tileY (rowColliders s)
  then s
  else if negb forceGenerate && (tileY <=? initialPlatformRows) then s
  else
    let s := addRowCollider worldY tileY s in
    let s := addRowVisual worldY tileY s in
    if tileY <=? initialPlatformRows then s
    else fold_left (spawnCell (rowSpawn worldY tileY)) (seqZ 0 mapWidthTiles) s.

(** ** Generation Scheduler *)

(** [for (let y = startY; y < endY; y += TILE_SIZE) body(y)], with the
    number of iterations bounded by [fuel]. *)
Fixpoint forEachRowY (fuel : nat) (y endY : Q)
    (body : Q → TerrainManager → TerrainManager) (s : TerrainManager)
    : TerrainManager :=
  match fuel with
  | O => s
  | S fuel =>
      if Qlt_bool y endY
      then forEachRowY fuel (y + TILE_SIZE)%Q endY body (body y s)
      else s
  end.

(** The number of iterations the loop makes from [startY] up to [endY]
    (for a positive tile size). *)
Definition rowSteps (startY endY : Q) : nat :=
  Z.to_nat (Qceiling ((endY - startY) / TILE_SIZE)).

(** The loop body of [update]: rows are generated naturally only below the
    initial platform. *)
Definition generateBelowPlatform (y : Q) (s : TerrainManager)
    : TerrainManager :=
  if Qle_bool (inject_Z (initialPlatformRows + 1) * TILE_SIZE) y
  then generateRow y false s
  else s.

(** [update(cameraBottomY)]. *)
Definition update (cameraBottomY : Q) (s : TerrainManager) : TerrainManager :=
  let generationThreshold := (cameraBottomY + TILE_SIZE * 10)%Q in
  if Qlt_bool (generatedRowsMaxY s) generationThreshold then
    let startY := generatedRowsMaxY s in
    let endY := generationThreshold in
    let s :=
      forEachRowY (rowSteps startY endY) startY endY generateBelowPlatform s in
    set_generatedRowsMaxY endY s
  else s.

(** [generateInitialChunk()]. *)
Definition generateInitialChunk (s : TerrainManager) : TerrainManager :=
  let platformWorldY := (inject_Z initialPlatformRows * TILE_SIZE)%Q in
  let s := generateRow platformWorldY true s in
  let initialWorldDepthRows := 20 in
  let startY := (inject_Z (initialPlatformRows + 1) * TILE_SIZE)%Q in
  let endY := (startY + inject_Z initialWorldDepthRows * TILE_SIZE)%Q in
  let s :=
    forEachRowY (rowSteps startY endY) startY endY
      (λ y s, generateRow y false s) s in
  set_generatedRowsMaxY endY s.

(** ** Row Clearer *)

(** The position-range test of the spike loop in [clearCurrentRow]. *)
Definition spikeInClearBand (rowAboveWorldY : Q) (spike : Spike) : bool :=
  Qlt_bool rowAboveWorldY (go_y spike)
  && Qlt_bool (go_y spike) (rowAboveWorldY + TILE_SIZE * 1.2)%Q.

(** The body of [spikesGroup.getChildren().forEach(...)] in
    [clearCurrentRow]. *)
Definition clearSpike (rowAboveWorldY : Q) (spike : Spike) : Spike :=
  if negb (go_active spike) then spike
  else if spikeInClearBand rowAboveWorldY spike then takeDamage 1 spike
  else spike.

(** The two particle loops of [clearCurrentRow], over the full row width. *)
Definition rowParticles (targetRowWorldY : Q) (playerCurrentRow : Z)
    (calls : list ParticleCall) : list ParticleCall :=
  let particleY := (targetRowWorldY + TILE_SIZE / 2)%Q in
  let calls :=
    fold_left
      (λ calls i,
         triggerParticles
           (mkParticleCall dirt_tile
              (inject_Z i * TILE_SIZE + TILE_SIZE / 2)%Q particleY 3 None
              None)
           calls)
      (seqZ 0 mapWidthTiles) calls in
  let spikeRowParticleY :=
    (inject_Z playerCurrentRow * TILE_SIZE + TILE_SIZE / 2)%Q in
  fold_left
    (λ calls i,
       triggerParticles
         (mkParticleCall spikes
            (inject_Z i * TILE_SIZE + TILE_SIZE / 2)%Q spikeRowParticleY 2
            (Some 70%Q) (Some 0.4%Q))
         calls)
    (seqZ 0 mapWidthTiles) calls.

(** [clearCurrentRow(triggerWorldY)]: the result and the state after. *)
Definition clearCurrentRow (triggerWorldY : Q) (s : TerrainManager)
    : bool * TerrainManager :=
  let playerRowYBelow := Qfloor (triggerWorldY / TILE_SIZE) + 1 in
  let playerCurrentRow := playerRowYBelow - 1 in
  let targetRowWorldY := (inject_Z playerRowYBelow * TILE_SIZE)%Q in
  let targetTileY := playerRowYBelow in
  let collider := rowColliders s !! targetTileY in
  let visual := rowVisuals s !! targetTileY in
  match collider with
  | Some collider =>
      let s :=
        set_rowColliderGroup
          (filter (λ c, collider_id c ≠ collider_id collider)
             (rowColliderGroup s)) s in
      let s := set_rowColliders (delete targetTileY (rowColliders s)) s in
      let s :=
        match visual with
        | Some visual =>
            let s :=
              set_rowVisualsGroup
                (filter (λ v, visual_id v ≠ visual_id visual)
                   (rowVisualsGroup s)) s in
            set_rowVisuals (delete targetTileY (rowVisuals s)) s
        | None => s
        end in
      let s :=
        match spikesGroup s with
        | Some group =>
            let rowAboveWorldY :=
              (inject_Z playerCurrentRow * TILE_SIZE)%Q in
            set_spikesGroup (Some (map (clearSpike rowAboveWorldY) group)) s
        | None => s
        end in
      let s :=
        match particleManager s with
        | Some calls =>
            set_particleManager
              (Some (rowParticles targetRowWorldY playerCurrentRow calls)) s
        | None => s
        end in
      let s := emit_dirt_row_cleared targetTileY s in
      (true, s)
  | None => (false, s)
  end.

(** ** Explosion Resolver *)

(** The payload of a "create-explosion" event. *)
Record Explosion := mkExplosion {
  worldX : Q;
  worldY : Q;
  radius : Q }.

(** [Phaser.Math.Distance.Squared(x1, y1, x2, y2)]. *)
Definition Distance_Squared (x1 y1 x2 y2 : Q) : Q :=
  let dx := (x1 - x2)%Q in
  let dy := (y1 - y2)%Q in
  (dx * dx + dy * dy)%Q.

(** The vertical distance from the explosion to the centre of a row. *)
Definition rowYDist (data : Explosion) (targetTileY : Z) : Q :=
  let rowWorldY := (inject_Z targetTileY * TILE_SIZE)%Q in
  (worldY data - (rowWorldY + TILE_SIZE / 2))%Q.

(** The two tests a candidate row passes before it is cleared: the vertical
    distance test, then the lenient horizontal test. *)
Definition rowInBlast (data : Explosion) (targetTileY : Z) : bool :=
  let radiusSq := (radius data * radius data)%Q in
  let yDist := rowYDist data targetTileY in
  if Qlt_bool radiusSq (yDist * yDist) then false
  else
    let xDist := (worldX data - mapWidthPixels / 2)%Q in
    let checkRadiusSq :=
      (radiusSq + (mapWidthPixels / 2) * (mapWidthPixels / 2))%Q in
    Qle_bool (xDist * xDist + yDist * yDist) checkRadiusSq.

(** The body of the loop [for (let dy = -tileRadius; dy <= tileRadius; dy++)]. *)
Definition clearRowInBlast (data : Explosion) (centerTileY : Z)
    (s : TerrainManager) (dy : Z) : TerrainManager :=
  let targetTileY := centerTileY + dy in
  let rowWorldY := (inject_Z targetTileY * TILE_SIZE)%Q in
  if rowInBlast data targetTileY
  then (clearCurrentRow (rowWorldY - TILE_SIZE / 2)%Q s).2
  else s.

(** The body of the three damage loops: inactive entities are skipped, the
    others take [amount] when their squared distance to the explosion is at
    most the squared radius. *)
Definition blastDamage {E : Type} `{!GameObject E, !Damageable E}
    (amount : Z) (data : Explosion) (entity : E) : E :=
  let radiusSq := (radius data * radius data)%Q in
  if negb (go_active entity) then entity
  else
    let distSq :=
      Distance_Squared (worldX data) (worldY data) (go_x entity)
        (go_y entity) in
    if Qle_bool distSq radiusSq then takeDamage amount entity else entity.

(** The second half of [handleCreateExplosion]: enemies, then spikes, then
    boulders. *)
Definition damageEntitiesInBlast (data : Explosion) (s : TerrainManager)
    : TerrainManager :=
  let s := set_enemiesGroup (map (blastDamage 999 data) (enemiesGroup s)) s in
  let s :=
    match spikesGroup s with
    | Some group => set_spikesGroup (Some (map (blastDamage 1 data) group)) s
    | None => s
    end in
  set_bouldersGroup (map (blastDamage 3 data) (bouldersGroup s)) s.

(** The first half of [handleCreateExplosion]: the rows of the band around
    the centre row, from top to bottom. *)
Definition clearRowsInBlast (data : Explosion) (s : TerrainManager)
    : TerrainManager :=
  let centerTileY := Qfloor (worldY data / TILE_SIZE) in
  let tileRadius := Qceiling (radius data / TILE_SIZE) in
  fold_left (clearRowInBlast data centerTileY)
    (seqZ (- tileRadius) (2 * tileRadius + 1)) s.

(** [handleCreateExplosion(data)]. *)
Definition handleCreateExplosion (data : Explosion) (s : TerrainManager)
    : TerrainManager :=
  damageEntitiesInBlast data (clearRowsInBlast data s).

(** ** Notions used to state the properties *)

(** The index of the row that contains world-Y [y]. *)
Definition rowOf (y : Q) : Z := Qfloor (y / TILE_SIZE).

(** The row store is consistent: the collider registry and the visual
    registry have the same row indices. *)
Definition store_inv (s : TerrainManager) : Prop :=
  dom (rowColliders s) = dom (rowVisuals s).

Definition groupSize {E : Type} (group : option (list E)) : nat :=
  match group with Some g => length g | None => 0%nat end.

(** The world-Y values at which the loop
    [for (let y = startY; y < endY; y += TILE_SIZE)] runs its body. *)
Fixpoint loopYs (fuel : nat) (y endY : Q) : list Q :=
  match fuel with
  | O => []
  | S fuel =>
      if Qlt_bool y endY then y :: loopYs fuel (y + TILE_SIZE)%Q endY else []
  end.

(** The frontier after [update(cameraBottomY)] at frontier [frontier]. *)
Definition frontierAfter (frontier cameraBottomY : Q) : Q :=
  let generationThreshold := (cameraBottomY + TILE_SIZE * 10)%Q in
  if Qlt_bool frontier generationThreshold then generationThreshold
  else frontier.

(** The arguments of the [generateRow] calls that [update(cameraBottomY)]
    makes at frontier [frontier], in order. *)
Definition updateCalls (frontier cameraBottomY : Q) : list Q :=
  let generationThreshold := (cameraBottomY + TILE_SIZE * 10)%Q in
  if Qlt_bool frontier generationThreshold then
    filter
      (λ y, Qle_bool (inject_Z (initialPlatformRows + 1) * TILE_SIZE) y = true)
      (loopYs (rowSteps frontier generationThreshold) frontier
         generationThreshold)
  else [].

(** A sequence of [update] calls, one per frame. *)
Definition updates (cameras : list Q) (s : TerrainManager) : TerrainManager :=
  fold_left (λ s cameraBottomY, update cameraBottomY s) cameras s.

(** The frontier after a sequence of [update] calls. *)
Definition frontierAfterAll (frontier : Q) (cameras : list Q) : Q :=
  fold_left frontierAfter cameras frontier.

(** The arguments of all [generateRow] calls made by a sequence of [update]
    calls that starts at frontier [frontier], in order. *)
Fixpoint generatorCalls (frontier : Q) (cameras : list Q) : list Q :=
  match cameras with
  | [] => []
  | cameraBottomY :: cameras =>
      updateCalls frontier cameraBottomY
      ++ generatorCalls (frontierAfter frontier cameraBottomY) cameras
  end.

(** The frontier and the thresholds sit on row boundaries. *)
Definition tileAligned (y : Q) : Prop :=
  ∃ r : Z, (y == inject_Z r * TILE_SIZE)%Q.

(** [generateRow(worldY, forceGenerate)] passes both of its guards. *)
Definition generates (worldY : Q) (forceGenerate : bool) (s : TerrainManager)
    : bool :=
  let tileY := Qfloor (worldY / TILE_SIZE) in
  negb ((tileY <? 0) || (mapHeightTiles <=? tileY) || has tileY (rowColliders s))
  && negb (negb forceGenerate && (tileY <=? initialPlatformRows)).

(** Two states agree on everything but the entity groups and the random
    cursor. *)
Definition rowsUntouched (s s' : TerrainManager) : Prop :=
  rowColliders s' = rowColliders s
  ∧ rowVisuals s' = rowVisuals s
  ∧ rowColliderGroup s' = rowColliderGroup s
  ∧ rowVisualsGroup s' = rowVisualsGroup s
  ∧ eventBus s' = eventBus s
  ∧ particleManager s' = particleManager s
  ∧ generatedRowsMaxY s' = generatedRowsMaxY s
  ∧ allocated s' = allocated s.

(** What a cell receives in one generation pass. *)
Inductive Spawned :=
  | spawnedBoulder
  | spawnedEnemy
  | spawnedSpike
  | spawnedCoin
  | spawnedNothing.

(** The placement rule of a cell in the specification's words: nothing on an
    occupied cell; otherwise the boulder, enemy and spike trials in this order,
    the first success wins; the coin trial only when all three failed.
    [roll i] is the value of the i-th trial made for the cell. *)
Definition cellOutcome (occupied : bool) (r : RowSpawn) (roll : nat → Q)
    : Spawned :=
  if occupied then spawnedNothing
  else if Qlt_bool (roll 0%nat) (currentBoulderChance r) then spawnedBoulder
  else if Qlt_bool (roll 1%nat) (currentEnemyChance r) then spawnedEnemy
  else if Qlt_bool (roll 2%nat) (currentSpikeChance r) then spawnedSpike
  else if Qlt_bool (roll 3%nat) (currentCoinChance r) then spawnedCoin
  else spawnedNothing.

(** The number of trials the rule makes for a cell. *)
Definition cellTrials (occupied : bool) (r : RowSpawn) (roll : nat → Q) : nat :=
  if occupied then 0%nat
  else if Qlt_bool (roll 0%nat) (currentBoulderChance r) then 1%nat
  else if Qlt_bool (roll 1%nat) (currentEnemyChance r) then 2%nat
  else if Qlt_bool (roll 2%nat) (currentSpikeChance r) then 3%nat
  else 4%nat.

(** Placing the outcome of a cell in column [tileX] of the row. *)
Definition place (o : Spawned) (r : RowSpawn) (tileX : Z) (s : TerrainManager)
    : TerrainManager :=
  let spawnWorldX := (inject_Z tileX * TILE_SIZE + TILE_SIZE / 2)%Q in
  let aboveSurface := (spawnSurfaceY r - TILE_SIZE / 2)%Q in
  match o with
  | spawnedBoulder =>
      set_bouldersGroup (bouldersGroup s ++ [go_new spawnWorldX aboveSurface]) s
  | spawnedEnemy =>
      set_enemiesGroup
        (enemiesGroup s
         ++ [setSpeed (currentEnemySpeed r) (go_new spawnWorldX aboveSurface)])
        s
  | spawnedSpike =>
      match spikesGroup s with
      | Some group =>
          set_spikesGroup
            (Some
               (group
                ++ [go_new (spawnWorldX - TILE_SIZE / 2)%Q
                      (spikeSpawnY r + 10)%Q]))
            s
      | None => s
      end
  | spawnedCoin => Coin_spawn spawnWorldX aboveSurface s
  | spawnedNothing => s
  end.

(** ** The remaining public methods of the manager *)

(** [getMapWidthPixels()] and [getMapHeightPixels()]. *)
Definition getMapWidthPixels : Q := mapWidthPixels.
Definition getMapHeightPixels : Q := mapHeightPixels.

(** [getInitialSpawnPoint()]: the pair [(x, y)]. *)
Definition getInitialSpawnPoint : Q * Q :=
  let spawnYPx :=
    (inject_Z (initialPlatformRows - 1) * TILE_SIZE + TILE_SIZE / 2)%Q in
  ((mapWidthPixels / 2)%Q, spawnYPx).

(** [getRowSurfaceY(rowY, entityHeight)]. *)
Definition getRowSurfaceY (rowY entityHeight : Q) : Q :=
  let rowTopY := (rowY * TILE_SIZE)%Q in
  (rowTopY - entityHeight / 2)%Q.

(** ** The managers a game can reach *)

(** What the rest of the game may change between two calls of the manager:
    the entity groups (entities move, die and are added by other managers;
    the spikes group itself is never unset), the particle log and the global
    random stream.  The row groups, the registries, the frontier and the
    event log belong to the manager alone. *)
Definition externalStep (s s' : TerrainManager) : Prop :=
  rowColliders s' = rowColliders s
  ∧ rowVisuals s' = rowVisuals s
  ∧ rowColliderGroup s' = rowColliderGroup s
  ∧ rowVisualsGroup s' = rowVisualsGroup s
  ∧ eventBus s' = eventBus s
  ∧ generatedRowsMaxY s' = generatedRowsMaxY s
  ∧ allocated s' = allocated s
  ∧ (is_Some (spikesGroup s) → is_Some (spikesGroup s')).

(** The states reached from the constructor through the public methods
    ([generateRow] is private: it runs inside [generateInitialChunk] and
    [update] only), interleaved with steps of the rest of the game. *)
Inductive reachable : TerrainManager → Prop :=
  | reach_new boulders enemies coins particles :
      reachable (new_TerrainManager boulders enemies coins particles)
  | reach_generateInitialChunk s :
      reachable s → reachable (generateInitialChunk s)
  | reach_update cameraBottomY s :
      reachable s → reachable (update cameraBottomY s)
  | reach_clearCurrentRow triggerWorldY s :
      reachable s → reachable (clearCurrentRow triggerWorldY s).2
  | reach_handleCreateExplosion data s :
      reachable s → reachable (handleCreateExplosion data s)
  | reach_external s s' :
      reachable s → externalStep s s' → reachable s'.

(** Every stored row lies between the platform row and the map height, has
    its collider and its visual, and the collider carries the row index and
    sits from 0.9 to 1.9 tile heights below the row's top. *)
Definition rows_wellformed (s : TerrainManager) : Prop :=
  ∀ (k : Z) (collider : Collider),
    rowColliders s !! k = Some collider →
    initialPlatformRows ≤ k < mapHeightTiles
    ∧ is_Some (rowVisuals s !! k)
    ∧ collider_rowY collider = k
    ∧ (inject_Z k * TILE_SIZE + TILE_SIZE * 0.9 <= collider_y collider)%Q
    ∧ (collider_y collider
       < inject_Z (k + 1) * TILE_SIZE + TILE_SIZE * 0.9)%Q.

(** The physics group of the rows holds exactly the registered colliders,
    the visuals group exactly the registered visuals, each object once and
    under one row index only. *)
Definition groups_match (s : TerrainManager) : Prop :=
  (∀ collider,
     collider ∈ rowColliderGroup s
     ↔ ∃ k, rowColliders s !! k = Some collider)
  ∧ (∀ visual,
       visual ∈ rowVisualsGroup s ↔ ∃ k, rowVisuals s !! k = Some visual)
  ∧ NoDup (collider_id <$> rowColliderGroup s)
  ∧ NoDup (visual_id <$> rowVisualsGroup s)
  ∧ (∀ collider,
       collider ∈ rowColliderGroup s → (collider_id collider < allocated s)%nat)
  ∧ (∀ visual,
       visual ∈ rowVisualsGroup s → (visual_id visual < allocated s)%nat)
  ∧ (∀ k1 k2 collider,
       rowColliders s !! k1 = Some collider →
       rowColliders s !! k2 = Some collider → k1 = k2)
  ∧ (∀ k1 k2 visual,
       rowVisuals s !! k1 = Some visual →
       rowVisuals s !! k2 = Some visual → k1 = k2).

(** The three invariants of the row store together. *)
Definition manager_wf (s : TerrainManager) : Prop :=
  store_inv s ∧ rows_wellformed s ∧ groups_match s.

(** The entities and random draws that a call adds. *)
Definition entityCount (s : TerrainManager) : nat :=
  (length (bouldersGroup s) + length (enemiesGroup s)
   + groupSize (spikesGroup s) + groupSize (coinsGroup s))%nat.

#[export] Instance Spawned_eq_dec : EqDecision Spawned.
Proof. solve_decision. Defined.

(** The columns of a row, from left to right, that received [o] when
    [outcome] tells what each column received. *)
Definition spawnedAt (outcome : Z → Spawned) (o : Spawned) (columns : list Z)
    : list Z :=
  filter (λ tileX, outcome tileX = o) columns.

(** The horizontal centre of column [tileX]. *)
Definition columnCentre (tileX : Z) : Q :=
  (inject_Z tileX * TILE_SIZE + TILE_SIZE / 2)%Q.

(** A cell of a row on which the boulder roll cannot fail, in the words of
    the property: an occupied column is left alone; every other column costs
    one random draw and receives a boulder at its centre, half a tile above
    the surface. *)
Definition boulderCell (r : RowSpawn) (s : TerrainManager) (tileX : Z)
    : TerrainManager :=
  if spaceOccupiedAt (columnCentre tileX) (spawnSurfaceY r) s then s
  else
    set_bouldersGroup
      (bouldersGroup s
       ++ [go_new (columnCentre tileX) (spawnSurfaceY r - TILE_SIZE / 2)%Q])
      (set_randomCalls (S (randomCalls s)) s).

End TerrainManager.

Arguments TerrainManager : clear implicits.

(** * The callers of the terrain manager

    [src/game/entities/Player.ts] digs through [clearCurrentRow] and
    [src/game/scenes/Game.ts] extends the terrain through [update], once per
    frame.  Conventions of this part of the embedding.
    - What the Phaser engine supplies during a call is an argument of the
      method: the scene clock [scene.time.now], the answers of
      [scene.isActive()] and the camera.  The arcade body of the player is
      part of the player's record; the engine moves it between two frames.
    - [setVelocityX], [setVelocityY], [setVelocity] and [setFlipX] write the
      fields they are named after; [setVelocity(0)] sets both components.
    - The events that [Game.update] and [emitStatsUpdate] emit and the calls
      of [shopManager.openShop] are appended to logs kept in the scene's
      record; the "dirt-row-cleared" events stay in the log of the terrain
      manager.  What the shop manager and the listeners of these events do in
      turn is outside the model; the scene's own listener of
      "dirt-row-cleared", [checkEntitiesFalling], changes nothing.
    - [updateBackgroundGradient] only repaints the camera and is dropped. *)

(** ** The player *)

(** The fields of [player.body] that the class reads or writes. *)
Record PlayerBody := mkPlayerBody {
  body_bottom : Q;
  blocked_down : bool;
  blocked_left : bool;
  blocked_right : bool;
  touching_down : bool;
  velocity_x : Q;
  velocity_y : Q }.

(** [cursors.left.isDown], [cursors.right.isDown], [cursors.up.isDown]. *)
Record Cursors := mkCursors {
  left_isDown : bool;
  right_isDown : bool;
  up_isDown : bool }.

(** The player; [recentBoulderCollisions] is keyed by the identity of the
    boulder object. *)
Record Player := mkPlayer {
  player_active : bool;
  flipX : bool;
  player_body : option PlayerBody;
  lastDigTime : Q;
  recentBoulderCollisions : gmap nat Q }.

Definition moveSpeed : Q := 80.
Definition jumpVelocity : Q := -200.
Definition digCooldown : Q := 150.
Definition boulderCollisionCooldown : Q := 500.

Definition setVelocityX (x : Q) (b : PlayerBody) : PlayerBody :=
  mkPlayerBody (body_bottom b) (blocked_down b) (blocked_left b)
    (blocked_right b) (touching_down b) x (velocity_y b).

Definition setVelocityY (y : Q) (b : PlayerBody) : PlayerBody :=
  mkPlayerBody (body_bottom b) (blocked_down b) (blocked_left b)
    (blocked_right b) (touching_down b) (velocity_x b) y.

Definition setVelocity (x y : Q) (b : PlayerBody) : PlayerBody :=
  setVelocityY y (setVelocityX x b).

Definition set_flipX (v : bool) (p : Player) : Player :=
  mkPlayer (player_active p) v (player_body p) (lastDigTime p)
    (recentBoulderCollisions p).

Definition set_player_body (v : option PlayerBody) (p : Player) : Player :=
  mkPlayer (player_active p) (flipX p) v (lastDigTime p)
    (recentBoulderCollisions p).

Definition set_lastDigTime (v : Q) (p : Player) : Player :=
  mkPlayer (player_active p) (flipX p) (player_body p) v
    (recentBoulderCollisions p).

Definition set_recentBoulderCollisions (v : gmap nat Q) (p : Player)
    : Player :=
  mkPlayer (player_active p) (flipX p) (player_body p) (lastDigTime p) v.

(** A write to a field of [this.body]. *)
Definition onBody (f : PlayerBody → PlayerBody) (p : Player) : Player :=
  set_player_body (f <$> player_body p) p.

(** [canJumpOrDig()], at scene time [now]. *)
Definition canJumpOrDig (now : Q) (p : Player) : bool :=
  match player_body p with
  | Some b =>
      (blocked_down b || touching_down b)
      && Qlt_bool (lastDigTime p + digCooldown) now
  | None => false
  end.

(** [cleanupCollisionRecords(currentTime)]: the records older than the
    cooldown are deleted. *)
Definition cleanupCollisionRecords (currentTime : Q) (p : Player) : Player :=
  set_recentBoulderCollisions
    (filter
       (λ record,
          Qlt_bool boulderCollisionCooldown (currentTime - record.2) = false)
       (recentBoulderCollisions p))
    p.

Section Callers.

Context {Boulder Enemy Spike Coin : Type}.
Context `{!GameObject Boulder, !Damageable Boulder}.
Context `{!GameObject Enemy, !Damageable Enemy, !Mobile Enemy}.
Context `{!GameObject Spike, !Damageable Spike}.
Context `{!GameObject Coin}.

Variable TILE_SIZE : Q.
Variable random : nat → Q.

Abbreviation Terrain := (TerrainManager Boulder Enemy Spike Coin).

(** [attemptJumpAndDig()], at scene time [now]: the jump, then the clear of
    the row below the point one unit under the feet.  The result of
    [clearCurrentRow] is only logged. *)
Definition attemptJumpAndDig (now : Q) (p : Player) (t : Terrain)
    : Player * Terrain :=
  if negb (canJumpOrDig now p) then (p, t)
  else
    match player_body p with
    | Some b =>
        let p := set_lastDigTime now p in
        let p := onBody (setVelocityY jumpVelocity) p in
        let checkWorldY := (body_bottom b + 1)%Q in
        let rowCleared := clearCurrentRow TILE_SIZE checkWorldY t in
        (p, rowCleared.2)
    | None => (p, t)
    end.

(** The horizontal movement of [Player.update]. *)
Definition moveHorizontally (cursors : Cursors) (p : Player) : Player :=
  if left_isDown cursors then
    set_flipX true (onBody (setVelocityX (- moveSpeed)) p)
  else if right_isDown cursors then
    set_flipX false (onBody (setVelocityX moveSpeed) p)
  else onBody (setVelocityX 0) p.

(** The last statement of [Player.update]: a falling player that moves
    sideways into a wall stops moving sideways. *)
Definition unstickFromWall (b : PlayerBody) : PlayerBody :=
  if negb (blocked_down b) && negb (touching_down b)
     && negb (Qeq_bool (velocity_x b) 0)
  then if blocked_left b || blocked_right b then setVelocityX 0 b else b
  else b.

(** [Player.update(cursors, time, delta)], with the scene clock at [now].
    Without a body the velocity setters fail: the result is [None]. *)
Definition Player_update (cursors : Cursors) (time now : Q) (p : Player)
    (t : Terrain) : option (Player * Terrain) :=
  match player_body p with
  | None => None
  | Some _ =>
      if negb (player_active p) then Some (onBody (setVelocity 0 0) p, t)
      else
        let p := cleanupCollisionRecords time p in
        let p := moveHorizontally cursors p in
        let '(p, t) :=
          if up_isDown cursors then attemptJumpAndDig now p t else (p, t) in
        Some (onBody unstickFromWall p, t)
  end.

(** ** The scene *)

(** The values of the scene registry that the scene reads; a missing
    "totalCoinsCollected" is [None]. *)
Record Registry := mkRegistry {
  registry_lives : Q;
  registry_maxLives : Q;
  registry_coins : Q;
  registry_relics : list String.string;
  registry_consumables : list String.string;
  registry_totalCoinsCollected : option Q }.

(** The payload of an "update-stats" event. *)
Record Stats := mkStats {
  stats_lives : Q;
  stats_maxLives : Q;
  stats_coins : Q;
  stats_depth : Z;
  stats_relics : list String.string;
  stats_consumables : list String.string }.

Inductive SceneEvent :=
  | update_max_depth (depth : Z)
  | update_stats (payload : Stats).

Record Game := mkGame {
  cursors : option Cursors;
  player : option Player;
  currentDepth : Z;
  maxDepthReached : Z;
  nextShopDepthThreshold : Z;
  lastReportedDepth : Z;
  totalCoinsCollected : Q;
  initialPlayerY : Q;
  terrainManager : Terrain;
  registry : Registry;
  (* the events emitted by [update] and [emitStatsUpdate], oldest first *)
  sceneEvents : list SceneEvent;
  (* the arguments of the calls [shopManager.openShop(depth)], oldest first *)
  shopCalls : list Z }.

Definition set_player (v : option Player) (g : Game) : Game :=
  mkGame (cursors g) v (currentDepth g) (maxDepthReached g)
    (nextShopDepthThreshold g) (lastReportedDepth g) (totalCoinsCollected g)
    (initialPlayerY g) (terrainManager g) (registry g) (sceneEvents g)
    (shopCalls g).

Definition set_currentDepth (v : Z) (g : Game) : Game :=
  mkGame (cursors g) (player g) v (maxDepthReached g)
    (nextShopDepthThreshold g) (lastReportedDepth g) (totalCoinsCollected g)
    (initialPlayerY g) (terrainManager g) (registry g) (sceneEvents g)
    (shopCalls g).

Definition set_maxDepthReached (v : Z) (g : Game) : Game :=
  mkGame (cursors g) (player g) (currentDepth g) v
    (nextShopDepthThreshold g) (lastReportedDepth g) (totalCoinsCollected g)
    (initialPlayerY g) (terrainManager g) (registry g) (sceneEvents g)
    (shopCalls g).

Definition set_nextShopDepthThreshold (v : Z) (g : Game) : Game :=
  mkGame (cursors g) (player g) (currentDepth g) (maxDepthReached g)
    v (lastReportedDepth g) (totalCoinsCollected g)
    (initialPlayerY g) (terrainManager g) (registry g) (sceneEvents g)
    (shopCalls g).

Definition set_lastReportedDepth (v : Z) (g : Game) : Game :=
  mkGame (cursors g) (player g) (currentDepth g) (maxDepthReached g)
    (nextShopDepthThreshold g) v (totalCoinsCollected g)
    (initialPlayerY g) (terrainManager g) (registry g) (sceneEvents g)
    (shopCalls g).

Definition set_totalCoinsCollected (v : Q) (g : Game) : Game :=
  mkGame (cursors g) (player g) (currentDepth g) (maxDepthReached g)
    (nextShopDepthThreshold g) (lastReportedDepth g) v
    (initialPlayerY g) (terrainManager g) (registry g) (sceneEvents g)
    (shopCalls g).

Definition set_terrainManager (v : Terrain) (g : Game) : Game :=
  mkGame (cursors g) (player g) (currentDepth g) (maxDepthReached g)
    (nextShopDepthThreshold g) (lastReportedDepth g) (totalCoinsCollected g)
    (initialPlayerY g) v (registry g) (sceneEvents g) (shopCalls g).

(** [EventBus.emit(...)] by the scene. *)
Definition emit (event : SceneEvent) (g : Game) : Game :=
  mkGame (cursors g) (player g) (currentDepth g) (maxDepthReached g)
    (nextShopDepthThreshold g) (lastReportedDepth g) (totalCoinsCollected g)
    (initialPlayerY g) (terrainManager g) (registry g)
    (sceneEvents g ++ [event]) (shopCalls g).

(** [shopManager.openShop(depth)]: the call is recorded. *)
Definition openShop (depth : Z) (g : Game) : Game :=
  mkGame (cursors g) (player g) (currentDepth g) (maxDepthReached g)
    (nextShopDepthThreshold g) (lastReportedDepth g) (totalCoinsCollected g)
    (initialPlayerY g) (terrainManager g) (registry g) (sceneEvents g)
    (shopCalls g ++ [depth]).

(** [value || 0] on a number that may be missing. *)
Definition orZero (value : option Q) : Q :=
  match value with
  | Some v => if Qeq_bool v 0 then 0%Q else v
  | None => 0%Q
  end.

(** [emitStatsUpdate(force = false)]. *)
Definition emitStatsUpdate (force : bool) (g : Game) : Game :=
  let depthToShow := maxDepthReached g in
  let g :=
    set_totalCoinsCollected
      (orZero (registry_totalCoinsCollected (registry g))) g in
  let depthChanged := negb (depthToShow =? lastReportedDepth g) in
  if force || depthChanged then
    let g := set_lastReportedDepth depthToShow g in
    emit
      (update_stats
         {| stats_lives := registry_lives (registry g);
            stats_maxLives := registry_maxLives (registry g);
            stats_coins := registry_coins (registry g);
            stats_depth := depthToShow;
            stats_relics := registry_relics (registry g);
            stats_consumables := registry_consumables (registry g) |})
      g
  else g.

(** What the engine supplies during one call of [Game.update]: the [time]
    argument, the scene clock, the two answers of [scene.isActive()] and the
    main camera. *)
Record Frame := mkFrame {
  frame_time : Q;
  scene_now : Q;
  isActive_first : bool;
  isActive_second : bool;
  camera_scrollY : Q;
  camera_height : Q;
  camera_zoom : Q }.

(** [calculatedDepth] of [Game.update]. *)
Definition calculatedDepth (playerFeetY : Q) (g : Game) : Z :=
  Z.max 0 (Qfloor ((playerFeetY - initialPlayerY g) / TILE_SIZE)).

(** The depth bookkeeping of [Game.update], from the feet of the player. *)
Definition trackDepth (playerFeetY : Q) (g : Game) : Game :=
  let calculatedDepth := calculatedDepth playerFeetY g in
  let depthJustIncreased := maxDepthReached g <? calculatedDepth in
  let g :=
    if depthJustIncreased
    then emit (update_max_depth calculatedDepth)
           (set_maxDepthReached calculatedDepth g)
    else g in
  let g :=
    if negb (calculatedDepth =? currentDepth g) || depthJustIncreased
    then emitStatsUpdate false (set_currentDepth calculatedDepth g)
    else g in
  if depthJustIncreased && (0 <? maxDepthReached g)
     && (nextShopDepthThreshold g <=? maxDepthReached g)
  then
    let g := openShop (maxDepthReached g) g in
    set_nextShopDepthThreshold (nextShopDepthThreshold g + 10) g
  else g.

(** [Game.update(time, delta)].  The frame is skipped ([g] is returned)
    without cursors, player or body, or when the scene is not active. *)
Definition Game_update (frame : Frame) (g : Game) : Game :=
  default g
    (cursors ← cursors g;
     p ← player g;
     _ ← player_body p;
     if negb (isActive_first frame) then None
     else
       '(p, t) ← Player_update cursors (frame_time frame) (scene_now frame) p
                   (terrainManager g);
       let g := set_terrainManager t (set_player (Some p) g) in
       b ← player_body p;
       let g := trackDepth (body_bottom b) g in
       if isActive_second frame then
         let cameraBottomY :=
           (camera_scrollY frame + camera_height frame / camera_zoom frame)%Q
         in
         Some
           (set_terrainManager
              (update TILE_SIZE random cameraBottomY (terrainManager g)) g)
       else Some g).

(** ** Notions used to state the properties of the callers *)

(** The depth bookkeeping is consistent: the current depth is between 0 and
    the maximum, the last reported depth is the maximum, the shop threshold
    has advanced by 10 per shop opened, the i-th shop was opened at a depth of
    at least [10 * (i + 1)] and at most the maximum, and the depths of the
    shops increase strictly. *)
Definition depth_inv (g : Game) : Prop :=
  0 ≤ currentDepth g ≤ maxDepthReached g
  ∧ lastReportedDepth g = maxDepthReached g
  ∧ nextShopDepthThreshold g = 10 * (Z.of_nat (length (shopCalls g)) + 1)
  ∧ (∀ (i : nat) (depth : Z),
       shopCalls g !! i = Some depth →
       10 * (Z.of_nat i + 1) ≤ depth ≤ maxDepthReached g)
  ∧ (∀ (i j : nat) (d1 d2 : Z),
       shopCalls g !! i = Some d1 → shopCalls g !! j = Some d2 →
       (i < j)%nat → d1 < d2).

(** A frame that passes the guards of [Game.update]. *)
Definition frameRuns (frame : Frame) (g : Game) : Prop :=
  is_Some (cursors g)
  ∧ (∃ p, player g = Some p ∧ is_Some (player_body p))
  ∧ isActive_first frame = true.

End Callers.

Arguments Game : clear implicits.

(** ** Distances, for the explosion properties *)

(** The Euclidean distance between two world positions, a real number. *)
Definition distance (x1 y1 x2 y2 : Q) : R :=
  sqrt ((Q2R x1 - Q2R x2) * (Q2R x1 - Q2R x2)
        + (Q2R y1 - Q2R y2) * (Q2R y1 - Q2R y2))%R.

(** An entity is hit by an explosion: it is active and its distance to the
    centre is at most the radius. *)
Definition blastHits {E : Type} `{!GameObject E} (data : Explosion)
    (entity : E) : Prop :=
  go_active entity = true
  ∧ (distance (worldX data) (worldY data) (go_x entity) (go_y entity)
     <= Q2R (radius data))%R.

(** A group after a damage pass: the same children in the same order, those
    hit have taken [amount], the others are as before. *)
Definition damagedExactly {E : Type} `{!GameObject E, !Damageable E}
    (amount : Z) (data : Explosion) (before after : list E) : Prop :=
  length after = length before
  ∧ ∀ (i : nat) (entity : E),
      before !! i = Some entity →
      (blastHits data entity → after !! i = Some (takeDamage amount entity))
      ∧ (¬ blastHits data entity → after !! i = Some entity).

(** ** A concrete cast for the scenarios *)

(** Modelled from the spec: the entity classes [Boulder], [Enemy], [Spike] and
    [Coin] are not under [src/].  The specification asks of them a position,
    an "active" flag and a "take damage(amount)" operation with a lethal
    threshold: an actor has hit points, [takeDamage] subtracts from them, and
    the actor is active while hit points remain.  Its body sits at its
    position. *)
Record Actor := mkActor {
  actor_x : Q;
  actor_y : Q;
  actor_hp : Z;
  actor_speed : Q }.

#[export] Instance Actor_GameObject : GameObject Actor := {|
  go_new x y := mkActor x y 1 0;
  go_x := actor_x;
  go_y := actor_y;
  go_active a := 0 <? actor_hp a;
  go_body a := Some (mkBody (actor_x a) (actor_y a) 0 0) |}.

#[export] Instance Actor_Damageable : Damageable Actor := {|
  takeDamage amount a :=
    mkActor (actor_x a) (actor_y a) (actor_hp a - amount) (actor_speed a) |}.

#[export] Instance Actor_Mobile : Mobile Actor := {|
  setSpeed speed a := mkActor (actor_x a) (actor_y a) (actor_hp a) speed |}.

Module Scenario.

(** The tile size of the specification's scenarios. *)
Definition TILE_SIZE : Q := 16.

(** A random stream on which no spawn trial of the first rows succeeds. *)
Definition random : nat → Q := λ _, 0.5%Q.

Abbreviation Manager := (TerrainManager Actor Actor Actor Actor).

(** A freshly constructed manager with empty entity groups. *)
Definition fresh : Manager :=
  new_TerrainManager TILE_SIZE [] [] (Some []) (Some []).

(** The manager after [generateRow(80, true)] and [generateRow(96)]. *)
Definition twoRows : Manager :=
  generateRow TILE_SIZE random 96 false
    (generateRow TILE_SIZE random 80 true fresh).

(** The collider that [generateRow(96)] registers for row 6 in [twoRows]. *)
Definition row6Collider : Collider :=
  {| collider_id := 2;
     collider_x := 0;
     collider_y := (96 + TILE_SIZE * 0.9)%Q;
     collider_body_width := (mapWidthPixels TILE_SIZE + 30)%Q;
     collider_body_height := (TILE_SIZE * 0.1)%Q;
     collider_rowY := 6 |}.

(** A live spike one unit below the top of row 6, inside row 6's own band. *)
Definition spikeInRow6 : Actor := mkActor 8 97 1 0.

(** A live spike in the band of row 4, two rows above row 6. *)
Definition spikeInRow4 : Actor := mkActor 8 70 1 0.

Definition twoRowsWithSpikes : Manager :=
  set_spikesGroup (Some [spikeInRow6; spikeInRow4]) twoRows.

(** The manager after [generateInitialChunk()]: rows 5 to 25 are stored and
    the frontier is at 416. *)
Definition chunk : Manager := generateInitialChunk TILE_SIZE random fresh.

(** Two frames whose thresholds, 420 and 433, are not multiples of 16. *)
Definition cameras : list Q := [260; 273]%Q.

(** The explosion of the specification's scenario: radius 40, centred at the
    world centre of row 10. *)
Definition blast : Explosion :=
  {| worldX := (mapWidthPixels TILE_SIZE / 2)%Q;
     worldY := (10 * TILE_SIZE + TILE_SIZE / 2)%Q;
     radius := 40 |}.

(** An enemy at distance 40 from the centre of [blast], one at distance 45,
    and a boulder and a spike at the centre. *)
Definition nearEnemy : Actor := mkActor 200 208 1 30.
Definition farEnemy : Actor := mkActor 200 213 1 30.
Definition centreBoulder : Actor := mkActor 200 168 3 0.
Definition centreSpike : Actor := mkActor 200 168 1 0.

Definition arena : Manager :=
  set_bouldersGroup [centreBoulder]
    (set_spikesGroup (Some [centreSpike])
       (set_enemiesGroup [nearEnemy; farEnemy] chunk)).

(** A row in the deep part of the world, where the boulder chance is 1.002. *)
Definition deepRowY : Q := (330 * TILE_SIZE)%Q.

(** An explosion of radius 40 far to the right of the world. *)
Definition farBlast : Explosion :=
  {| worldX := 1000; worldY := (10 * TILE_SIZE + TILE_SIZE / 2)%Q;
     radius := 40 |}.

(** A player who stands with the feet at world-Y 79, one unit above the top
    of the platform row, and has not dug yet. *)
Definition standingBody : PlayerBody :=
  {| body_bottom := 79; blocked_down := true; blocked_left := false;
     blocked_right := false; touching_down := false;
     velocity_x := 0; velocity_y := 0 |}.

Definition digger : Player :=
  {| player_active := true; flipX := false;
     player_body := Some standingBody; lastDigTime := 0;
     recentBoulderCollisions := ∅ |}.

(** The registry as [Game.create] fills it. *)
Definition startRegistry : Registry :=
  {| registry_lives := 3; registry_maxLives := 3; registry_coins := 0;
     registry_relics := []; registry_consumables := [];
     registry_totalCoinsCollected := Some 0%Q |}.

(** The scene after [Game.create], with the up key held down: depth 0, first
    shop at depth 10, the player at the spawn height 72. *)
Definition startedGame : Game Actor Actor Actor Actor :=
  {| cursors := Some (mkCursors false false true);
     player := Some digger;
     currentDepth := 0; maxDepthReached := 0;
     nextShopDepthThreshold := 10; lastReportedDepth := 0;
     totalCoinsCollected := 0; initialPlayerY := 72;
     terrainManager := chunk; registry := startRegistry;
     sceneEvents := []; shopCalls := [] |}.

(** A frame at scene time 1000 with the camera at the top of the world. *)
Definition firstFrame : Frame :=
  {| frame_time := 1000; scene_now := 1000;
     isActive_first := true; isActive_second := true;
     camera_scrollY := 0; camera_height := 480; camera_zoom := 2 |}.

End Scenario.

(** * Properties *)

Section Properties.

Context {Boulder Enemy Spike Coin : Type}.
Context `{!GameObject Boulder, !Damageable Boulder}.
Context `{!GameObject Enemy, !Damageable Enemy, !Mobile Enemy}.
Context `{!GameObject Spike, !Damageable Spike}.
Context `{!GameObject Coin}.

Variable TILE_SIZE : Q.
Variable random : nat → Q.
Hypothesis TILE_SIZE_pos : (0 < TILE_SIZE)%Q.

Implicit Types s : TerrainManager Boulder Enemy Spike Coin.

#[local] Arguments Qfloor : simpl never.
#[local] Arguments Qceiling : simpl never.
#[local] Arguments Qdiv : simpl never.
#[local] Arguments Qmult : simpl never.
#[local] Arguments Qplus : simpl never.
#[local] Arguments Qminus : simpl never.
#[local] Arguments Qle_bool : simpl never.
#[local] Arguments Qlt_bool : simpl never.
#[local] Arguments inject_Z : simpl never.
#[local] Arguments Z.add : simpl never.
#[local] Arguments Z.sub : simpl never.
#[local] Arguments Z.mul : simpl never.

(** ** Comparisons and rows *)

Lemma Qlt_bool_iff (x y : Q) : Qlt_bool x y = true ↔ (x < y)%Q.
Proof.
  unfold Qlt_bool. rewrite negb_true_iff, <- not_true_iff_false, Qle_bool_iff.
  split; [apply Qnot_le_lt | apply Qlt_not_le].
Qed.

Lemma Qlt_bool_false_iff (x y : Q) : Qlt_bool x y = false ↔ (y <= x)%Q.
Proof. unfold Qlt_bool. rewrite negb_false_iff. apply Qle_bool_iff. Qed.

Lemma Qle_bool_false_iff (x y : Q) : Qle_bool x y = false ↔ (y < x)%Q.
Proof.
  rewrite <- not_true_iff_false, Qle_bool_iff.
  split; [apply Qnot_le_lt | apply Qlt_not_le].
Qed.

Lemma Qfloor_unique (x : Q) (z : Z) :
  (inject_Z z <= x)%Q → (x < inject_Z (z + 1))%Q → Qfloor x = z.
Proof.
  intros Hlo Hhi.
  pose proof (Qfloor_le x) as Hfl. pose proof (Qlt_floor x) as Hlt.
  assert (z < Qfloor x + 1) by (rewrite Zlt_Qlt; eapply Qle_lt_trans; eauto).
  assert (Qfloor x < z + 1) by (rewrite Zlt_Qlt; eapply Qle_lt_trans; eauto).
  lia.
Qed.

(** A world-Y lies in the band of its row. *)
Lemma rowOf_bounds (y : Q) :
  (inject_Z (rowOf TILE_SIZE y) * TILE_SIZE <= y)%Q
  ∧ (y < inject_Z (rowOf TILE_SIZE y + 1) * TILE_SIZE)%Q.
Proof.
  unfold rowOf.
  pose proof (Qfloor_le (y / TILE_SIZE)) as Hfl.
  pose proof (Qlt_floor (y / TILE_SIZE)) as Hlt.
  assert (Heq : (y / TILE_SIZE * TILE_SIZE == y)%Q) by (field; lra).
  split.
  - rewrite <- Heq at 2. apply Qmult_le_compat_r; lra.
  - rewrite <- Heq at 1. apply Qmult_lt_compat_r; lra.
Qed.

Lemma rowOf_unique (y : Q) (r : Z) :
  (inject_Z r * TILE_SIZE <= y)%Q → (y < inject_Z (r + 1) * TILE_SIZE)%Q →
  rowOf TILE_SIZE y = r.
Proof.
  intros Hlo Hhi. apply Qfloor_unique.
  - apply Qle_shift_div_l; lra.
  - apply Qlt_shift_div_r; lra.
Qed.

Lemma rowOf_step (y : Q) :
  rowOf TILE_SIZE (y + TILE_SIZE) = rowOf TILE_SIZE y + 1.
Proof.
  destruct (rowOf_bounds y) as [Hlo Hhi].
  apply rowOf_unique.
  - rewrite inject_Z_plus. rewrite inject_Z_plus in Hhi.
    change (inject_Z 1) with 1%Q in *. nra.
  - rewrite !inject_Z_plus. rewrite inject_Z_plus in Hhi.
    change (inject_Z 1) with 1%Q in *. nra.
Qed.

(** ** Row Generator: what a call leaves alone *)

Lemma rowsUntouched_refl s : rowsUntouched s s.
Proof. repeat split. Qed.

Lemma rowsUntouched_trans s1 s2 s3 :
  rowsUntouched s1 s2 → rowsUntouched s2 s3 → rowsUntouched s1 s3.
Proof.
  unfold rowsUntouched. intros H12 H23.
  destruct H12 as (?&?&?&?&?&?&?&?), H23 as (?&?&?&?&?&?&?&?).
  repeat split; congruence.
Qed.

Lemma spawnHazard_rowsUntouched (r : RowSpawn) (x : Q) s :
  rowsUntouched s (spawnHazard TILE_SIZE random r x s).2.
Proof.
  unfold spawnHazard, Math_random; simpl.
  repeat case_match; simpl; repeat split.
Qed.

Lemma spawnCell_rowsUntouched (r : RowSpawn) s (tileX : Z) :
  rowsUntouched s (spawnCell TILE_SIZE random r s tileX).
Proof.
  unfold spawnCell.
  destruct (spaceOccupiedAt _ _ _ _); [apply rowsUntouched_refl|].
  pose proof (spawnHazard_rowsUntouched r
                (inject_Z tileX * TILE_SIZE + TILE_SIZE / 2)%Q s) as Hh.
  destruct (spawnHazard _ _ _ _ _) as [occupied s1]; simpl in *.
  destruct occupied; simpl; [done|].
  eapply rowsUntouched_trans; [exact Hh|].
  unfold Math_random, Coin_spawn; simpl.
  repeat case_match; simpl; repeat split.
Qed.

Lemma spawnCells_rowsUntouched (r : RowSpawn) (cells : list Z) s :
  rowsUntouched s (fold_left (spawnCell TILE_SIZE random r) cells s).
Proof.
  revert s. induction cells as [|tileX cells IH]; intros s; simpl.
  - apply rowsUntouched_refl.
  - eapply rowsUntouched_trans; [apply spawnCell_rowsUntouched | apply IH].
Qed.

(** [generateRow] either returns at one of its guards or adds the row. *)
Lemma generateRow_skips (worldY : Q) (force : bool) s :
  generates TILE_SIZE worldY force s = false →
  generateRow TILE_SIZE random worldY force s = s.
Proof.
  unfold generates, generateRow. intros Hg.
  destruct (_ || _ || _); [done|].
  destruct (negb force && _); [done|]. discriminate.
Qed.

Lemma generateRow_adds (worldY : Q) (force : bool) s :
  generates TILE_SIZE worldY force s = true →
  rowsUntouched
    (addRowVisual TILE_SIZE worldY (rowOf TILE_SIZE worldY)
       (addRowCollider TILE_SIZE worldY (rowOf TILE_SIZE worldY) s))
    (generateRow TILE_SIZE random worldY force s).
Proof.
  unfold generates, generateRow, rowOf. intros Hg.
  destruct (_ || _ || _); [discriminate|].
  destruct (negb force && _); [discriminate|].
  destruct (_ <=? initialPlatformRows).
  - apply rowsUntouched_refl.
  - apply spawnCells_rowsUntouched.
Qed.

Lemma has_true_iff {V : Type} (key : Z) (m : gmap Z V) :
  has key m = true ↔ is_Some (m !! key).
Proof.
  unfold has. destruct (m !! key); split; intros Hs; done.
Qed.

Lemma generateRow_rowColliders (worldY : Q) (force : bool) s :
  generates TILE_SIZE worldY force s = true →
  ∃ collider,
    rowColliders (generateRow TILE_SIZE random worldY force s)
    = <[rowOf TILE_SIZE worldY := collider]> (rowColliders s)
    ∧ rowColliderGroup (generateRow TILE_SIZE random worldY force s)
      = rowColliderGroup s ++ [collider].
Proof.
  intros Hg. destruct (generateRow_adds _ _ _ Hg) as (Hc & _ & Hcg & _).
  rewrite Hc, Hcg. eexists; split; reflexivity.
Qed.

Lemma generateRow_rowVisuals (worldY : Q) (force : bool) s :
  generates TILE_SIZE worldY force s = true →
  ∃ visual,
    rowVisuals (generateRow TILE_SIZE random worldY force s)
    = <[rowOf TILE_SIZE worldY := visual]> (rowVisuals s)
    ∧ rowVisualsGroup (generateRow TILE_SIZE random worldY force s)
      = rowVisualsGroup s ++ [visual].
Proof.
  intros Hg. destruct (generateRow_adds _ _ _ Hg) as (_ & Hv & _ & Hvg & _).
  rewrite Hv, Hvg. eexists; split; reflexivity.
Qed.

(** A row that is already stored is never generated again. *)
Lemma generates_stored (worldY : Q) (force : bool) s :
  is_Some (rowColliders s !! rowOf TILE_SIZE worldY) →
  generates TILE_SIZE worldY force s = false.
Proof.
  intros Hs. apply has_true_iff in Hs. unfold generates, rowOf in *.
  rewrite Hs. by rewrite orb_true_r.
Qed.

(** ** Row store consistency *)

Lemma generateRow_store_inv (worldY : Q) (force : bool) s :
  store_inv s → store_inv (generateRow TILE_SIZE random worldY force s).
Proof.
  unfold store_inv. intros Hinv.
  destruct (generates TILE_SIZE worldY force s) eqn:Hg.
  - destruct (generateRow_rowColliders _ _ _ Hg) as (c & -> & _).
    destruct (generateRow_rowVisuals _ _ _ Hg) as (v & -> & _).
    rewrite !dom_insert_L. by rewrite Hinv.
  - by rewrite generateRow_skips.
Qed.

Lemma clearCurrentRow_store_inv (triggerWorldY : Q) s :
  store_inv s → store_inv (clearCurrentRow TILE_SIZE triggerWorldY s).2.
Proof.
  unfold store_inv, clearCurrentRow. intros Hinv.
  destruct (rowColliders s !! _) as [collider|] eqn:Hc; [|done].
  destruct (rowVisuals s !! _) as [visual|] eqn:Hv.
  - unfold emit_dirt_row_cleared. simpl.
    destruct (spikesGroup s); simpl; destruct (particleManager s); simpl;
      rewrite !dom_delete_L; by rewrite Hinv.
  - apply mk_is_Some, elem_of_dom in Hc. rewrite Hinv in Hc.
    apply elem_of_dom in Hc. rewrite Hv in Hc. by destruct Hc.
Qed.

Lemma forEachRowY_store_inv (fuel : nat) (y endY : Q)
    (body : Q → TerrainManager Boulder Enemy Spike Coin
            → TerrainManager Boulder Enemy Spike Coin) s :
  (∀ y s, store_inv s → store_inv (body y s)) →
  store_inv s → store_inv (forEachRowY TILE_SIZE fuel y endY body s).
Proof.
  intros Hbody. revert y s.
  induction fuel as [|fuel IH]; intros y s Hinv; simpl; [done|].
  destruct (Qlt_bool y endY); [|done]. apply IH, Hbody, Hinv.
Qed.

Lemma update_store_inv (cameraBottomY : Q) s :
  store_inv s → store_inv (update TILE_SIZE random cameraBottomY s).
Proof.
  unfold update. intros Hinv. destruct (Qlt_bool _ _); [|done].
  change (store_inv
            (forEachRowY TILE_SIZE
               (rowSteps TILE_SIZE (generatedRowsMaxY s)
                  (cameraBottomY + TILE_SIZE * 10))
               (generatedRowsMaxY s) (cameraBottomY + TILE_SIZE * 10)
               (generateBelowPlatform TILE_SIZE random) s)).
  apply forEachRowY_store_inv; [|done].
  intros y s' Hs'. unfold generateBelowPlatform.
  destruct (Qle_bool _ _); [by apply generateRow_store_inv | done].
Qed.

Lemma generateInitialChunk_store_inv s :
  store_inv s → store_inv (generateInitialChunk TILE_SIZE random s).
Proof.
  unfold generateInitialChunk. intros Hinv.
  match goal with
  | |- store_inv (set_generatedRowsMaxY _ ?t) => change (store_inv t)
  end.
  apply forEachRowY_store_inv.
  - intros y s' Hs'. by apply generateRow_store_inv.
  - by apply generateRow_store_inv.
Qed.

Lemma clearRowsInBlast_store_inv (data : Explosion) s :
  store_inv s → store_inv (clearRowsInBlast TILE_SIZE data s).
Proof.
  unfold clearRowsInBlast.
  generalize (seqZ (- Qceiling (radius data / TILE_SIZE))
                (2 * Qceiling (radius data / TILE_SIZE) + 1)).
  intros rows. revert s.
  induction rows as [|dy rows IH]; intros s Hinv; simpl; [done|].
  apply IH. unfold clearRowInBlast.
  destruct (rowInBlast _ _ _); [by apply clearCurrentRow_store_inv | done].
Qed.

Lemma handleCreateExplosion_store_inv (data : Explosion) s :
  store_inv s → store_inv (handleCreateExplosion TILE_SIZE data s).
Proof.
  intros Hinv. apply (clearRowsInBlast_store_inv data) in Hinv.
  unfold handleCreateExplosion, damageEntitiesInBlast, store_inv in *.
  destruct (spikesGroup _); simpl; exact Hinv.
Qed.

(** C10: the collider registry and the visual registry have the same row
    indices in a freshly constructed manager, and [generateRow],
    [clearCurrentRow], [update], [generateInitialChunk] and
    [handleCreateExplosion] keep it so: a row index has a stored collider
    exactly when it has a stored visual. *)
Theorem store_inv_invariant :
  (∀ boulders enemies coins particles,
     store_inv
       (new_TerrainManager (Spike := Spike) TILE_SIZE boulders enemies coins
          particles : TerrainManager Boulder Enemy Spike Coin))
  ∧ (∀ s, store_inv s →
       (∀ k, is_Some (rowColliders s !! k) ↔ is_Some (rowVisuals s !! k))
       ∧ (∀ worldY force,
            store_inv (generateRow TILE_SIZE random worldY force s))
       ∧ (∀ triggerWorldY,
            store_inv (clearCurrentRow TILE_SIZE triggerWorldY s).2)
       ∧ (∀ cameraBottomY,
            store_inv (update TILE_SIZE random cameraBottomY s))
       ∧ store_inv (generateInitialChunk TILE_SIZE random s)
       ∧ (∀ data, store_inv (handleCreateExplosion TILE_SIZE data s))).
Proof.
  split; [done|]. intros s Hinv. repeat split.
  - intros Hk. apply elem_of_dom. rewrite <- Hinv. by apply elem_of_dom.
  - intros Hk. apply elem_of_dom. rewrite Hinv. by apply elem_of_dom.
  - intros. by apply generateRow_store_inv.
  - intros. by apply clearCurrentRow_store_inv.
  - intros. by apply update_store_inv.
  - by apply generateInitialChunk_store_inv.
  - intros. by apply handleCreateExplosion_store_inv.
Qed.

(** The [else] branch of [clearCurrentRow]. *)
Lemma clearCurrentRow_none (triggerWorldY : Q) s :
  rowColliders s !! (Qfloor (triggerWorldY / TILE_SIZE) + 1) = None →
  (clearCurrentRow TILE_SIZE triggerWorldY s).1 = false
  ∧ (clearCurrentRow TILE_SIZE triggerWorldY s).2 = s.
Proof. intros Hc. unfold clearCurrentRow. by rewrite Hc. Qed.

(** ** Row Clearer and Row Generator: the guarded no-ops *)

(** C2: when the target row [floor(triggerWorldY / TILE_SIZE) + 1] has no
    stored collider, [clearCurrentRow] returns false and the manager is
    unchanged: no registry entry removed, no spike damaged, no particle
    call, no "dirt-row-cleared" event. *)
Theorem clearCurrentRow_absent (triggerWorldY : Q) s :
  rowColliders s !! (Qfloor (triggerWorldY / TILE_SIZE) + 1) = None →
  clearCurrentRow TILE_SIZE triggerWorldY s = (false, s).
Proof. unfold clearCurrentRow. by intros ->. Qed.

(** C4: for a row index at or above the initial platform row, [generateRow]
    without force leaves the manager unchanged: no collider, no visual, no
    entity. *)
Theorem generateRow_platform_exclusion (worldY : Q) s :
  rowOf TILE_SIZE worldY ≤ initialPlatformRows →
  generateRow TILE_SIZE random worldY false s = s.
Proof.
  intros Hrow. apply generateRow_skips. unfold generates, rowOf in *.
  apply Z.leb_le in Hrow. rewrite Hrow. simpl. by rewrite andb_false_r.
Qed.

(** ** Row Clearer: the effect of a successful clear *)

Lemma clearCurrentRow_present (triggerWorldY : Q) s (collider : Collider) :
  let N := Qfloor (triggerWorldY / TILE_SIZE) + 1 in
  let result := clearCurrentRow TILE_SIZE triggerWorldY s in
  rowColliders s !! N = Some collider →
  result.1 = true
  ∧ rowColliders result.2 = delete N (rowColliders s)
  ∧ rowVisuals result.2 = delete N (rowVisuals s)
  ∧ spikesGroup result.2
    = map (clearSpike TILE_SIZE (inject_Z (N - 1) * TILE_SIZE)%Q)
        <$> spikesGroup s
  ∧ particleManager result.2
    = rowParticles TILE_SIZE (inject_Z N * TILE_SIZE)%Q (N - 1)
        <$> particleManager s
  ∧ eventBus result.2 = eventBus s ++ [N]
  ∧ bouldersGroup result.2 = bouldersGroup s
  ∧ enemiesGroup result.2 = enemiesGroup s
  ∧ coinsGroup result.2 = coinsGroup s
  ∧ generatedRowsMaxY result.2 = generatedRowsMaxY s
  ∧ randomCalls result.2 = randomCalls s.
Proof.
  intros N result Hc. subst result. unfold clearCurrentRow.
  fold N. rewrite Hc. unfold emit_dirt_row_cleared.
  destruct (rowVisuals s !! N) as [visual|] eqn:Hv; simpl.
  - destruct (spikesGroup s) eqn:Hs; simpl;
      destruct (particleManager s) eqn:Hp; simpl;
      rewrite ?Hs, ?Hp; repeat split.
  - destruct (spikesGroup s) eqn:Hs; simpl;
      destruct (particleManager s) eqn:Hp; simpl;
      rewrite ?Hs, ?Hp; repeat split; by rewrite (delete_id _ _ Hv).
Qed.

Lemma list_lookup_map {A B : Type} (f : A → B) (l : list A) (i : nat) :
  map f l !! i = f <$> l !! i.
Proof.
  revert i. induction l as [|a l IH]; intros [|i]; simpl; done.
Qed.

Lemma clearSpike_hit (bandTop : Q) (spike : Spike) :
  go_active spike = true → (bandTop < go_y spike)%Q →
  (go_y spike < bandTop + TILE_SIZE * 1.2)%Q →
  clearSpike TILE_SIZE bandTop spike = takeDamage 1 spike.
Proof.
  intros Ha Hlo Hhi. unfold clearSpike, spikeInClearBand. rewrite Ha. simpl.
  apply Qlt_bool_iff in Hlo, Hhi. by rewrite Hlo, Hhi.
Qed.

Lemma clearSpike_miss (bandTop : Q) (spike : Spike) :
  go_active spike = false ∨ (go_y spike <= bandTop)%Q
  ∨ (bandTop + TILE_SIZE * 1.2 <= go_y spike)%Q →
  clearSpike TILE_SIZE bandTop spike = spike.
Proof.
  unfold clearSpike, spikeInClearBand. intros [Ha|[Hlo|Hhi]].
  - by rewrite Ha.
  - apply Qlt_bool_false_iff in Hlo. rewrite Hlo. simpl.
    by destruct (negb _).
  - apply Qlt_bool_false_iff in Hhi. rewrite Hhi, andb_false_r.
    by destruct (negb _).
Qed.

(** C6 (as amended): a successful clear of row [N] removes row [N] from both
    registries and leaves every other row's entries as they were; it damages
    exactly the active spikes whose Y lies strictly between the top of row
    [N - 1] and 1.2 tile heights below that top, so a spike at or above the
    top of row [N - 1] (two or more rows above row [N]) is untouched;
    boulders, enemies and coins are untouched. *)
Theorem clearCurrentRow_locality (triggerWorldY : Q) s (collider : Collider) :
  let N := Qfloor (triggerWorldY / TILE_SIZE) + 1 in
  let bandTop := (inject_Z (N - 1) * TILE_SIZE)%Q in
  let s' := (clearCurrentRow TILE_SIZE triggerWorldY s).2 in
  rowColliders s !! N = Some collider →
  (rowColliders s' !! N = None ∧ rowVisuals s' !! N = None)
  ∧ (∀ k, k ≠ N →
       rowColliders s' !! k = rowColliders s !! k
       ∧ rowVisuals s' !! k = rowVisuals s !! k)
  ∧ (∀ group, spikesGroup s = Some group →
       ∃ group',
         spikesGroup s' = Some group'
         ∧ length group' = length group
         ∧ ∀ (i : nat) (spike : Spike),
             group !! i = Some spike →
             (go_active spike = true → (bandTop < go_y spike)%Q →
              (go_y spike < bandTop + TILE_SIZE * 1.2)%Q →
              group' !! i = Some (takeDamage 1 spike))
             ∧ (go_active spike = false ∨ (go_y spike <= bandTop)%Q
                ∨ (bandTop + TILE_SIZE * 1.2 <= go_y spike)%Q →
                group' !! i = Some spike))
  ∧ bouldersGroup s' = bouldersGroup s
  ∧ enemiesGroup s' = enemiesGroup s
  ∧ coinsGroup s' = coinsGroup s.
Proof.
  intros N bandTop s' Hc.
  destruct (clearCurrentRow_present triggerWorldY s collider Hc)
    as (_ & HC & HV & HS & _ & _ & HB & HE & HCo & _).
  fold N in HC, HV, HS. fold bandTop in HS. fold s' in HC, HV, HS, HB, HE, HCo.
  repeat split; try done.
  - rewrite HC. apply lookup_delete_eq.
  - rewrite HV. apply lookup_delete_eq.
  - rewrite HC. by apply lookup_delete_ne.
  - rewrite HV. by apply lookup_delete_ne.
  - intros group Hg. rewrite Hg in HS. simpl in HS.
    eexists. split; [exact HS|]. split; [apply length_map|].
    intros i spike Hi. rewrite list_lookup_map, Hi. simpl. split.
    + intros Ha Hlo Hhi. by rewrite clearSpike_hit.
    + intros Hmiss. by rewrite clearSpike_miss.
Qed.

(** ** Row Generator: two calls on one row *)

Lemma generateRow_group_sizes (worldY : Q) (force : bool) s :
  let s1 := generateRow TILE_SIZE random worldY force s in
  let added := if generates TILE_SIZE worldY force s then 1%nat else 0%nat in
  length (rowColliderGroup s1) = (length (rowColliderGroup s) + added)%nat
  ∧ length (rowVisualsGroup s1) = (length (rowVisualsGroup s) + added)%nat.
Proof.
  intros s1 added. subst s1 added.
  destruct (generates TILE_SIZE worldY force s) eqn:Hg.
  - destruct (generateRow_rowColliders _ _ _ Hg) as (c & _ & ->).
    destruct (generateRow_rowVisuals _ _ _ Hg) as (v & _ & ->).
    rewrite !length_app. simpl. lia.
  - rewrite generateRow_skips by done. lia.
Qed.

Lemma generateRow_stores (worldY : Q) (force : bool) s :
  generates TILE_SIZE worldY force s = true →
  is_Some
    (rowColliders (generateRow TILE_SIZE random worldY force s)
       !! rowOf TILE_SIZE worldY).
Proof.
  intros Hg. destruct (generateRow_rowColliders _ _ _ Hg) as (c & -> & _).
  rewrite lookup_insert_eq. by eexists.
Qed.

(** C5 (as amended): two calls of [generateRow] on the same row index, with
    any force flags and any two world-Y values inside that row, create at
    most one collider and at most one visual between them; whenever the index
    is in the row store after the first call (in particular whenever the
    first call changed anything) the second call is a no-op; a call with an
    out-of-bounds index changes nothing. *)
Theorem generateRow_twice (worldY1 worldY2 : Q) (force1 force2 : bool) s :
  rowOf TILE_SIZE worldY1 = rowOf TILE_SIZE worldY2 →
  let tileY := rowOf TILE_SIZE worldY1 in
  let s1 := generateRow TILE_SIZE random worldY1 force1 s in
  let s2 := generateRow TILE_SIZE random worldY2 force2 s1 in
  (length (rowColliderGroup s2) ≤ length (rowColliderGroup s) + 1)%nat
  ∧ (length (rowVisualsGroup s2) ≤ length (rowVisualsGroup s) + 1)%nat
  ∧ (is_Some (rowColliders s1 !! tileY) → s2 = s1)
  ∧ (s1 ≠ s → s2 = s1)
  ∧ (tileY < 0 ∨ mapHeightTiles ≤ tileY → s1 = s ∧ s2 = s).
Proof.
  intros Hsame tileY s1 s2.
  assert (Hstored : is_Some (rowColliders s1 !! tileY) → s2 = s1).
  { intros Hs. apply generateRow_skips, generates_stored.
    by rewrite <- Hsame. }
  assert (Hchanged : s1 ≠ s → s2 = s1).
  { intros Hne. apply Hstored.
    destruct (generates TILE_SIZE worldY1 force1 s) eqn:Hg.
    - by apply generateRow_stores.
    - destruct Hne. by apply generateRow_skips. }
  assert (Hout : tileY < 0 ∨ mapHeightTiles ≤ tileY →
                 ∀ worldY force s0,
                   rowOf TILE_SIZE worldY = tileY →
                   generateRow TILE_SIZE random worldY force s0 = s0).
  { intros Hb worldY force s0 Hrow. apply generateRow_skips. unfold generates.
    fold (rowOf TILE_SIZE worldY). rewrite Hrow.
    destruct Hb as [Hb|Hb].
    - apply Z.ltb_lt in Hb. by rewrite Hb.
    - apply Z.leb_le in Hb. rewrite Hb. by rewrite orb_true_r. }
  pose proof (generateRow_group_sizes worldY1 force1 s) as [Hc1 Hv1].
  pose proof (generateRow_group_sizes worldY2 force2 s1) as [Hc2 Hv2].
  fold s1 in Hc1, Hv1, Hc2, Hv2. fold s2 in Hc2, Hv2.
  cbv zeta in Hc1, Hv1, Hc2, Hv2.
  assert (Hone :
    ((if generates TILE_SIZE worldY1 force1 s then 1 else 0)
     + (if generates TILE_SIZE worldY2 force2 s1 then 1 else 0) ≤ 1)%nat).
  { destruct (generates TILE_SIZE worldY1 force1 s) eqn:Hg; [|case_match; lia].
    rewrite generates_stored; [lia|]. rewrite <- Hsame.
    by apply generateRow_stores. }
  repeat split; try done; try lia.
  - subst s1. by rewrite Hout.
  - subst s2 s1. by rewrite !Hout.
Qed.

(** ** Row Generator: the content of one cell *)

(** Closes the goals left by a case of the roll chain: arithmetic on group
    sizes, membership in the list of hazards, and equality of two states whose
    fields were set in a different order. *)
Ltac cell_done :=
  repeat split; try done; try lia;
  try (rewrite !elem_of_cons; by auto);
  try (unfold set_bouldersGroup, set_enemiesGroup, set_spikesGroup,
         set_coinsGroup, set_randomCalls; simpl; f_equal; lia).

(** C9: in every cell the code does what the placement rule says: on an
    unoccupied cell the boulder, enemy and spike trials are made in this
    order, the first success places its entity and ends the chain, and the
    coin trial is made only when all three failed.  Hence a cell receives at
    most one entity in a pass, and a coin never comes with a boulder, enemy or
    spike of the same pass. *)
Theorem spawnCell_outcome (r : RowSpawn) s (tileX : Z) :
  is_Some (spikesGroup s) →
  let spawnWorldX := (inject_Z tileX * TILE_SIZE + TILE_SIZE / 2)%Q in
  let occupied := spaceOccupiedAt TILE_SIZE spawnWorldX (spawnSurfaceY r) s in
  let roll := λ i : nat, random (randomCalls s + i)%nat in
  let s' := spawnCell TILE_SIZE random r s tileX in
  s' = set_randomCalls (randomCalls s + cellTrials occupied r roll)%nat
         (place TILE_SIZE (cellOutcome occupied r roll) r tileX s)
  ∧ (length (bouldersGroup s') + length (enemiesGroup s')
     + groupSize (spikesGroup s') + groupSize (coinsGroup s')
     ≤ length (bouldersGroup s) + length (enemiesGroup s)
       + groupSize (spikesGroup s) + groupSize (coinsGroup s) + 1)%nat
  ∧ (length (bouldersGroup s) + length (enemiesGroup s)
     + groupSize (spikesGroup s)
     < length (bouldersGroup s') + length (enemiesGroup s')
       + groupSize (spikesGroup s') →
     cellOutcome occupied r roll ∈
       [spawnedBoulder; spawnedEnemy; spawnedSpike]
     ∧ coinsGroup s' = coinsGroup s
     ∧ (randomCalls s' < randomCalls s + 4)%nat)%nat
  ∧ (randomCalls s' = (randomCalls s + 4)%nat →
     occupied = false
     ∧ bouldersGroup s' = bouldersGroup s
     ∧ enemiesGroup s' = enemiesGroup s
     ∧ spikesGroup s' = spikesGroup s)
  ∧ is_Some (spikesGroup s').
Proof.
  intros [group Hgroup] spawnWorldX occupied roll s'.
  subst s' roll. unfold spawnCell, cellOutcome, cellTrials, place.
  fold spawnWorldX. fold occupied.
  destruct occupied.
  { rewrite Nat.add_0_r. split; [by destruct s|].
    repeat split; try done; try lia. }
  unfold spawnHazard, Math_random. simpl. rewrite Nat.add_0_r.
  destruct (Qlt_bool (random (randomCalls s)) _); simpl.
  { rewrite length_app. simpl. cell_done. }
  rewrite Nat.add_1_r.
  destruct (Qlt_bool (random (S (randomCalls s))) _); simpl.
  { rewrite length_app. simpl. cell_done. }
  replace (randomCalls s + 2)%nat with (S (S (randomCalls s))) by lia.
  destruct (Qlt_bool (random (S (S (randomCalls s)))) _); simpl.
  { rewrite Hgroup. simpl. rewrite length_app. simpl. cell_done. }
  replace (randomCalls s + 3)%nat with (S (S (S (randomCalls s)))) by lia.
  destruct (Qlt_bool (random (S (S (S (randomCalls s))))) _); simpl.
  - unfold Coin_spawn. simpl.
    destruct (coinsGroup s) as [coins|] eqn:Hcoins; simpl; rewrite ?Hcoins;
      simpl.
    + rewrite length_app. simpl. cell_done.
    + cell_done.
  - cell_done.
Qed.

(** ** Explosion Resolver: direct damage *)

Lemma Q2R_Distance_Squared (x1 y1 x2 y2 : Q) :
  Q2R (Distance_Squared x1 y1 x2 y2)
  = ((Q2R x1 - Q2R x2) * (Q2R x1 - Q2R x2)
     + (Q2R y1 - Q2R y2) * (Q2R y1 - Q2R y2))%R.
Proof.
  unfold Distance_Squared. cbv zeta.
  rewrite Q2R_plus, !Q2R_mult, !Q2R_minus. reflexivity.
Qed.

(** The comparison of squares made by the code is the comparison of the
    Euclidean distance with the radius. *)
Lemma within_radius_iff (x1 y1 x2 y2 r : Q) :
  (0 <= r)%Q →
  Qle_bool (Distance_Squared x1 y1 x2 y2) (r * r) = true
  ↔ (distance x1 y1 x2 y2 <= Q2R r)%R.
Proof.
  intros Hr. rewrite Qle_bool_iff. unfold distance.
  rewrite <- Q2R_Distance_Squared.
  assert (HR : (0 <= Q2R r)%R).
  { apply Qle_Rle in Hr. by rewrite RMicromega.Q2R_0 in Hr. }
  assert (Hd : (0 <= Q2R (Distance_Squared x1 y1 x2 y2))%R).
  { rewrite Q2R_Distance_Squared.
    apply Rplus_le_le_0_compat; apply Rle_0_sqr. }
  split.
  - intros Hle. apply Qle_Rle in Hle. rewrite Q2R_mult in Hle.
    rewrite <- (sqrt_square (Q2R r)) by done.
    by apply sqrt_le_1_alt.
  - intros Hle. apply Rle_Qle. rewrite Q2R_mult.
    rewrite <- (sqrt_sqrt (Q2R (Distance_Squared x1 y1 x2 y2))) by done.
    apply Rmult_le_compat; try done; apply sqrt_pos.
Qed.

Section BlastDamage.

Context {E : Type} `{!GameObject E, !Damageable E}.
Variable amount : Z.
Variable data : Explosion.
Hypothesis radius_nonneg : (0 <= radius data)%Q.

Lemma blastDamage_hit (entity : E) :
  blastHits data entity →
  blastDamage amount data entity = takeDamage amount entity.
Proof.
  intros [Ha Hd]. unfold blastDamage. rewrite Ha. simpl.
  apply within_radius_iff in Hd; [|done]. by rewrite Hd.
Qed.

Lemma blastDamage_miss (entity : E) :
  ¬ blastHits data entity → blastDamage amount data entity = entity.
Proof.
  intros Hmiss. unfold blastDamage.
  destruct (go_active entity) eqn:Ha; simpl; [|done].
  destruct (Qle_bool _ _) eqn:Hd; [|done].
  destruct Hmiss. split; [done|]. by apply within_radius_iff.
Qed.

Lemma blastDamage_exactly (group : list E) :
  damagedExactly amount data group (map (blastDamage amount data) group).
Proof.
  split; [apply length_map|].
  intros i entity Hi. rewrite list_lookup_map, Hi. simpl. split.
  - intros Hhit. by rewrite blastDamage_hit.
  - intros Hmiss. by rewrite blastDamage_miss.
Qed.

End BlastDamage.

(** Clearing rows leaves enemies, boulders and coins alone. *)
Lemma clearCurrentRow_entities (triggerWorldY : Q) s :
  let s' := (clearCurrentRow TILE_SIZE triggerWorldY s).2 in
  bouldersGroup s' = bouldersGroup s
  ∧ enemiesGroup s' = enemiesGroup s
  ∧ coinsGroup s' = coinsGroup s.
Proof.
  intros s'. subst s'.
  destruct (rowColliders s !! (Qfloor (triggerWorldY / TILE_SIZE) + 1))
    as [collider|] eqn:Hc.
  - destruct (clearCurrentRow_present triggerWorldY s collider Hc)
      as (_ & _ & _ & _ & _ & _ & HB & HE & HCo & _).
    done.
  - by rewrite (proj2 (clearCurrentRow_none _ _ Hc)).
Qed.

Lemma clearRowsInBlast_entities (data : Explosion) s :
  let s' := clearRowsInBlast TILE_SIZE data s in
  bouldersGroup s' = bouldersGroup s
  ∧ enemiesGroup s' = enemiesGroup s
  ∧ coinsGroup s' = coinsGroup s.
Proof.
  unfold clearRowsInBlast.
  generalize (seqZ (- Qceiling (radius data / TILE_SIZE))
                (2 * Qceiling (radius data / TILE_SIZE) + 1)).
  intros rows. revert s.
  induction rows as [|dy rows IH]; intros s; simpl; [done|].
  destruct (IH (clearRowInBlast TILE_SIZE data
                  (Qfloor (worldY data / TILE_SIZE)) s dy)) as (-> & -> & ->).
  unfold clearRowInBlast.
  destruct (rowInBlast _ _ _); [apply clearCurrentRow_entities | done].
Qed.

(** C7: the damage pass of an explosion of radius [R >= 0] centred at [P]
    damages exactly the active entities whose Euclidean distance to [P] is at
    most [R]: such enemies take 999, such spikes take 1, such boulders take 3,
    and every other entity (inactive, or farther than [R]) is left as it was;
    coins and the row store are not touched.  The pass does not depend on the
    rows cleared before it: after the whole handler the enemies and the
    boulders are those of the damage pass run on the initial state, and the
    spikes are the damage pass applied to the spikes the row clearing left. *)
Theorem explosion_damage_radius (data : Explosion) s :
  (0 <= radius data)%Q →
  let s' := damageEntitiesInBlast data s in
  let exploded := handleCreateExplosion TILE_SIZE data s in
  damagedExactly 999 data (enemiesGroup s) (enemiesGroup s')
  ∧ (∀ group, spikesGroup s = Some group →
       ∃ group', spikesGroup s' = Some group'
                 ∧ damagedExactly 1 data group group')
  ∧ damagedExactly 3 data (bouldersGroup s) (bouldersGroup s')
  ∧ coinsGroup s' = coinsGroup s
  ∧ rowsUntouched s s'
  ∧ enemiesGroup exploded = enemiesGroup s'
  ∧ bouldersGroup exploded = bouldersGroup s'
  ∧ (∀ group, spikesGroup (clearRowsInBlast TILE_SIZE data s) = Some group →
       ∃ group', spikesGroup exploded = Some group'
                 ∧ damagedExactly 1 data group group').
Proof.
  intros Hr s' exploded.
  assert (Hspikes : ∀ s0 group, spikesGroup s0 = Some group →
            spikesGroup (damageEntitiesInBlast data s0)
            = Some (map (blastDamage 1 data) group)).
  { intros s0 group Hg. unfold damageEntitiesInBlast. simpl.
    by rewrite Hg. }
  assert (Henemies : ∀ s0, enemiesGroup (damageEntitiesInBlast data s0)
                           = map (blastDamage 999 data) (enemiesGroup s0)).
  { intros s0. unfold damageEntitiesInBlast. simpl.
    by destruct (spikesGroup s0). }
  assert (Hboulders : ∀ s0, bouldersGroup (damageEntitiesInBlast data s0)
                            = map (blastDamage 3 data) (bouldersGroup s0)).
  { intros s0. unfold damageEntitiesInBlast. simpl.
    by destruct (spikesGroup s0). }
  destruct (clearRowsInBlast_entities data s) as (HB & HE & _).
  subst s' exploded. unfold handleCreateExplosion.
  rewrite !Henemies, !Hboulders, HB, HE.
  split_and!; try done; try (by apply blastDamage_exactly).
  - intros group Hg. eexists. split; [by apply Hspikes|].
    by apply blastDamage_exactly.
  - unfold damageEntitiesInBlast. simpl. by destruct (spikesGroup s).
  - unfold damageEntitiesInBlast, rowsUntouched. simpl.
    by destruct (spikesGroup s).
  - intros group Hg. eexists. split; [by apply Hspikes|].
    by apply blastDamage_exactly.
Qed.

(** ** Explosion Resolver: the rows cleared *)

(** Whatever it returns, [clearCurrentRow] leaves the registries without the
    target row. *)
Lemma clearCurrentRow_registries (triggerWorldY : Q) s :
  let N := Qfloor (triggerWorldY / TILE_SIZE) + 1 in
  let s' := (clearCurrentRow TILE_SIZE triggerWorldY s).2 in
  store_inv s →
  rowColliders s' = delete N (rowColliders s)
  ∧ rowVisuals s' = delete N (rowVisuals s).
Proof.
  intros N s' Hinv. subst s'.
  destruct (rowColliders s !! N) as [collider|] eqn:Hc.
  - destruct (clearCurrentRow_present triggerWorldY s collider Hc)
      as (_ & HC & HV & _).
    done.
  - rewrite (proj2 (clearCurrentRow_none _ _ Hc)).
    rewrite !delete_id; try done.
    apply not_elem_of_dom. rewrite <- Hinv. by apply not_elem_of_dom.
Qed.

(** The trigger that the explosion passes for row [k], half a tile above the
    row's top, makes row [k] the target of the clear. *)
Lemma blast_trigger_target (k : Z) :
  Qfloor ((inject_Z k * TILE_SIZE - TILE_SIZE / 2) / TILE_SIZE) + 1 = k.
Proof.
  assert (Hrow : rowOf TILE_SIZE (inject_Z k * TILE_SIZE - TILE_SIZE / 2)
                 = k - 1).
  { assert (Hhalf : (TILE_SIZE / 2 == TILE_SIZE * (1 # 2))%Q) by (field; lra).
    apply rowOf_unique.
    - unfold Z.sub. rewrite inject_Z_plus, inject_Z_opp, Hhalf.
      change (inject_Z 1) with 1%Q. nra.
    - replace (k - 1 + 1) with k by lia. rewrite Hhalf. nra. }
  unfold rowOf in Hrow. lia.
Qed.

Lemma clearRowInBlast_registries (data : Explosion) (centerTileY dy : Z) s :
  let k := centerTileY + dy in
  let s' := clearRowInBlast TILE_SIZE data centerTileY s dy in
  store_inv s →
  store_inv s'
  ∧ (rowInBlast TILE_SIZE data k = true →
     rowColliders s' = delete k (rowColliders s)
     ∧ rowVisuals s' = delete k (rowVisuals s))
  ∧ (rowInBlast TILE_SIZE data k = false → s' = s).
Proof.
  intros k s' Hinv. subst s'. unfold clearRowInBlast. fold k.
  destruct (rowInBlast TILE_SIZE data k).
  - split; [by apply clearCurrentRow_store_inv|]. split; [|done].
    intros _.
    pose proof (clearCurrentRow_registries
                  (inject_Z k * TILE_SIZE - TILE_SIZE / 2)%Q s Hinv) as Hreg.
    cbv zeta in Hreg. by rewrite blast_trigger_target in Hreg.
  - done.
Qed.

Lemma clearRowsInBlast_lookup (data : Explosion) (centerTileY : Z)
    (dys : list Z) s (k : Z) :
  let s' := fold_left (clearRowInBlast TILE_SIZE data centerTileY) dys s in
  store_inv s →
  ((k - centerTileY ∈ dys ∧ rowInBlast TILE_SIZE data k = true) →
   rowColliders s' !! k = None ∧ rowVisuals s' !! k = None)
  ∧ (¬ (k - centerTileY ∈ dys ∧ rowInBlast TILE_SIZE data k = true) →
     rowColliders s' !! k = rowColliders s !! k
     ∧ rowVisuals s' !! k = rowVisuals s !! k).
Proof.
  revert s. induction dys as [|dy dys IH]; intros s s' Hinv; subst s'.
  { simpl. split; [|done]. intros [Hin _]. by apply elem_of_nil in Hin. }
  simpl.
  destruct (clearRowInBlast_registries data centerTileY dy s Hinv)
    as (Hinv' & Hhit & Hmiss).
  destruct (IH _ Hinv') as [IHin IHout].
  cbv zeta in IHin, IHout.
  set (s1 := clearRowInBlast TILE_SIZE data centerTileY s dy) in *.
  destruct (decide (k - centerTileY ∈ dys
                    ∧ rowInBlast TILE_SIZE data k = true)) as [Hlater|Hlater].
  { split; [intros _; by apply IHin|].
    intros Hno. destruct Hno. split; [|apply Hlater].
    apply elem_of_cons. right. apply Hlater. }
  destruct (IHout Hlater) as [HC HV]. rewrite HC, HV.
  destruct (decide (k - centerTileY = dy
                    ∧ rowInBlast TILE_SIZE data k = true)) as [[Hk Hb]|Hnow].
  - replace (centerTileY + dy) with k in * by lia.
    destruct (Hhit Hb) as [-> ->]. rewrite !lookup_delete_eq.
    split; [done|]. intros Hno. destruct Hno. split; [|done].
    apply elem_of_cons. by left.
  - split.
    + intros [Hin Hb]. apply elem_of_cons in Hin as [Hin|Hin].
      * destruct Hnow. done.
      * destruct Hlater. done.
    + intros _.
      destruct (rowInBlast TILE_SIZE data (centerTileY + dy)) eqn:Hb.
      * destruct (Hhit eq_refl) as [-> ->].
        assert (k ≠ centerTileY + dy).
        { intros ->. apply Hnow. split; [lia | done]. }
        by rewrite !lookup_delete_ne.
      * by rewrite (Hmiss eq_refl).
Qed.

(** What [rowInBlast] tests, as inequalities. *)
Lemma rowInBlast_iff (data : Explosion) (k : Z) :
  let yDist := rowYDist TILE_SIZE data k in
  let xDist := (worldX data - mapWidthPixels TILE_SIZE / 2)%Q in
  rowInBlast TILE_SIZE data k = true
  ↔ (yDist * yDist <= radius data * radius data)%Q
    ∧ (xDist * xDist + yDist * yDist
       <= radius data * radius data
          + (mapWidthPixels TILE_SIZE / 2) * (mapWidthPixels TILE_SIZE / 2))%Q.
Proof.
  intros yDist xDist. unfold rowInBlast. fold yDist. fold xDist.
  destruct (Qlt_bool _ _) eqn:Hv.
  - apply Qlt_bool_iff in Hv. split; [done|]. intros [Hle _]. lra.
  - apply Qlt_bool_false_iff in Hv. rewrite Qle_bool_iff. tauto.
Qed.

(** The rows an explosion clears: the rows of the candidate band
    [centerTileY - tileRadius .. centerTileY + tileRadius] that pass
    [rowInBlast] leave both registries, every other row stays as it was. *)
Lemma handleCreateExplosion_rows (data : Explosion) s (k : Z) :
  let centerTileY := Qfloor (worldY data / TILE_SIZE) in
  let tileRadius := Qceiling (radius data / TILE_SIZE) in
  let kept :=
    centerTileY - tileRadius ≤ k ≤ centerTileY + tileRadius
    ∧ rowInBlast TILE_SIZE data k = true in
  let s' := handleCreateExplosion TILE_SIZE data s in
  store_inv s →
  (kept → rowColliders s' !! k = None ∧ rowVisuals s' !! k = None)
  ∧ (¬ kept →
     rowColliders s' !! k = rowColliders s !! k
     ∧ rowVisuals s' !! k = rowVisuals s !! k).
Proof.
  intros centerTileY tileRadius kept s' Hinv.
  assert (Hpass : ∀ s0,
            rowColliders (damageEntitiesInBlast data s0) = rowColliders s0
            ∧ rowVisuals (damageEntitiesInBlast data s0) = rowVisuals s0).
  { intros s0. unfold damageEntitiesInBlast. simpl.
    by destruct (spikesGroup s0). }
  subst s'. unfold handleCreateExplosion.
  destruct (Hpass (clearRowsInBlast TILE_SIZE data s)) as [-> ->].
  unfold clearRowsInBlast. fold centerTileY. fold tileRadius.
  pose proof (clearRowsInBlast_lookup data centerTileY
                (seqZ (- tileRadius) (2 * tileRadius + 1)) s k Hinv) as Hl.
  cbv zeta in Hl.
  assert (Hband : k - centerTileY ∈ seqZ (- tileRadius) (2 * tileRadius + 1)
                  ↔ centerTileY - tileRadius ≤ k ≤ centerTileY + tileRadius).
  { rewrite elem_of_seqZ. lia. }
  subst kept. rewrite <- Hband. exact Hl.
Qed.

(** ** Generation Scheduler *)

(** *** The loop and its fuel *)

Lemma forEachRowY_loopYs (fuel : nat) (y endY : Q)
    (body : Q → TerrainManager Boulder Enemy Spike Coin
            → TerrainManager Boulder Enemy Spike Coin) s :
  forEachRowY TILE_SIZE fuel y endY body s
  = fold_left (λ s y, body y s) (loopYs TILE_SIZE fuel y endY) s.
Proof.
  revert y s. induction fuel as [|fuel IH]; intros y s; simpl; [done|].
  destruct (Qlt_bool y endY); simpl; [apply IH | done].
Qed.

(** Once [endY] is reached, more fuel changes nothing. *)
Lemma loopYs_stops (n m : nat) (y endY : Q) :
  (endY <= y + inject_Z (Z.of_nat n) * TILE_SIZE)%Q → (n ≤ m)%nat →
  loopYs TILE_SIZE m y endY = loopYs TILE_SIZE n y endY.
Proof.
  revert m y. induction n as [|n IH]; intros m y Hend Hnm.
  - assert (Hstop : Qlt_bool y endY = false).
    { apply Qlt_bool_false_iff. change (inject_Z (Z.of_nat 0)) with 0%Q in Hend.
      lra. }
    destruct m; simpl; [done|]. by rewrite Hstop.
  - destruct m as [|m]; [lia|]. simpl.
    destruct (Qlt_bool y endY); [|done]. f_equal. apply IH; [|lia].
    rewrite Nat2Z.inj_succ in Hend. unfold Z.succ in Hend.
    rewrite inject_Z_plus in Hend. change (inject_Z 1) with 1%Q in Hend. nra.
Qed.

Lemma rowSteps_reaches (startY endY : Q) :
  (endY <= startY
           + inject_Z (Z.of_nat (rowSteps TILE_SIZE startY endY)) * TILE_SIZE)%Q.
Proof.
  unfold rowSteps.
  pose proof (Qle_ceiling ((endY - startY) / TILE_SIZE)) as Hc.
  set (c := Qceiling ((endY - startY) / TILE_SIZE)) in *.
  assert (Hdiv : ((endY - startY) / TILE_SIZE * TILE_SIZE == endY - startY)%Q)
    by (field; lra).
  assert (Hle : (inject_Z c <= inject_Z (Z.of_nat (Z.to_nat c)))%Q).
  { rewrite <- Zle_Qle. lia. }
  assert (Hmul : ((endY - startY) / TILE_SIZE * TILE_SIZE
                  <= inject_Z (Z.of_nat (Z.to_nat c)) * TILE_SIZE)%Q).
  { apply Qmult_le_compat_r; lra. }
  lra.
Qed.

(** The fuel [rowSteps] is enough: the loop of [update] and of
    [generateInitialChunk] ends because [y] reached [endY], and any larger
    fuel gives the same result. *)
Lemma forEachRowY_enough_fuel (fuel : nat) (startY endY : Q)
    (body : Q → TerrainManager Boulder Enemy Spike Coin
            → TerrainManager Boulder Enemy Spike Coin) s :
  (rowSteps TILE_SIZE startY endY ≤ fuel)%nat →
  forEachRowY TILE_SIZE fuel startY endY body s
  = forEachRowY TILE_SIZE (rowSteps TILE_SIZE startY endY) startY endY body s.
Proof.
  intros Hfuel. rewrite !forEachRowY_loopYs. f_equal.
  apply loopYs_stops; [apply rowSteps_reaches | done].
Qed.

(** *** The frontier *)

Lemma generateRow_frontier (worldY : Q) (force : bool) s :
  generatedRowsMaxY (generateRow TILE_SIZE random worldY force s)
  = generatedRowsMaxY s.
Proof.
  destruct (generates TILE_SIZE worldY force s) eqn:Hg.
  - destruct (generateRow_adds _ _ _ Hg) as (_&_&_&_&_&_&Hf&_). by rewrite Hf.
  - by rewrite generateRow_skips.
Qed.

Lemma generateRows_frontier (calls : list Q) s :
  generatedRowsMaxY
    (fold_left (λ s y, generateRow TILE_SIZE random y false s) calls s)
  = generatedRowsMaxY s.
Proof.
  revert s. induction calls as [|y calls IH]; intros s; simpl; [done|].
  by rewrite IH, generateRow_frontier.
Qed.

Lemma frontierAfter_le (frontier cameraBottomY : Q) :
  (frontier <= frontierAfter TILE_SIZE frontier cameraBottomY)%Q.
Proof.
  unfold frontierAfter. destruct (Qlt_bool _ _) eqn:Hlt; [|lra].
  apply Qlt_bool_iff in Hlt. lra.
Qed.

Lemma frontierAfterAll_le (frontier : Q) (cameras : list Q) :
  (frontier <= frontierAfterAll TILE_SIZE frontier cameras)%Q.
Proof.
  unfold frontierAfterAll. revert frontier.
  induction cameras as [|c cameras IH]; intros frontier; simpl; [lra|].
  eapply Qle_trans; [apply (frontierAfter_le frontier c) | apply IH].
Qed.

(** *** The frontier is not read by the generator *)

Lemma spawnHazard_set_frontier (v : Q) (r : RowSpawn) (x : Q) s :
  spawnHazard TILE_SIZE random r x (set_generatedRowsMaxY v s)
  = ((spawnHazard TILE_SIZE random r x s).1,
     set_generatedRowsMaxY v (spawnHazard TILE_SIZE random r x s).2).
Proof.
  unfold spawnHazard, Math_random. simpl.
  destruct (Qlt_bool (random (randomCalls s)) _); [done|].
  destruct (Qlt_bool (random (S (randomCalls s))) _); [done|].
  destruct (Qlt_bool (random (S (S (randomCalls s)))) _); [|done].
  by destruct (spikesGroup s).
Qed.

Lemma spawnCell_set_frontier (v : Q) (r : RowSpawn) s (tileX : Z) :
  spawnCell TILE_SIZE random r (set_generatedRowsMaxY v s) tileX
  = set_generatedRowsMaxY v (spawnCell TILE_SIZE random r s tileX).
Proof.
  unfold spawnCell.
  change (spaceOccupiedAt TILE_SIZE
            (inject_Z tileX * TILE_SIZE + TILE_SIZE / 2)%Q (spawnSurfaceY r)
            (set_generatedRowsMaxY v s))
    with (spaceOccupiedAt TILE_SIZE
            (inject_Z tileX * TILE_SIZE + TILE_SIZE / 2)%Q (spawnSurfaceY r) s).
  destruct (spaceOccupiedAt _ _ _ _); [done|].
  rewrite spawnHazard_set_frontier.
  destruct (spawnHazard _ _ _ _ s) as [occupied s1]. simpl.
  destruct occupied; simpl; [done|].
  unfold Math_random, Coin_spawn. simpl.
  destruct (Qlt_bool _ _); [|done]. by destruct (coinsGroup s1).
Qed.

Lemma generateRow_set_frontier (v : Q) (worldY : Q) (force : bool) s :
  generateRow TILE_SIZE random worldY force (set_generatedRowsMaxY v s)
  = set_generatedRowsMaxY v (generateRow TILE_SIZE random worldY force s).
Proof.
  unfold generateRow.
  change (rowColliders (set_generatedRowsMaxY v s)) with (rowColliders s).
  destruct (_ || _ || _); [done|].
  destruct (negb force && _); [done|].
  destruct (_ <=? initialPlatformRows); [done|].
  change (addRowVisual TILE_SIZE worldY (Qfloor (worldY / TILE_SIZE))
            (addRowCollider TILE_SIZE worldY (Qfloor (worldY / TILE_SIZE))
               (set_generatedRowsMaxY v s)))
    with (set_generatedRowsMaxY v
            (addRowVisual TILE_SIZE worldY (Qfloor (worldY / TILE_SIZE))
               (addRowCollider TILE_SIZE worldY (Qfloor (worldY / TILE_SIZE))
                  s))).
  generalize (addRowVisual TILE_SIZE worldY (Qfloor (worldY / TILE_SIZE))
                (addRowCollider TILE_SIZE worldY (Qfloor (worldY / TILE_SIZE))
                   s)).
  generalize (seqZ 0 mapWidthTiles). intros cells.
  induction cells as [|tileX cells IH]; intros s0; simpl; [done|].
  by rewrite spawnCell_set_frontier, IH.
Qed.

Lemma generateRows_set_frontier (v : Q) (calls : list Q) s :
  fold_left (λ s y, generateRow TILE_SIZE random y false s) calls
    (set_generatedRowsMaxY v s)
  = set_generatedRowsMaxY v
      (fold_left (λ s y, generateRow TILE_SIZE random y false s) calls s).
Proof.
  revert s. induction calls as [|y calls IH]; intros s; simpl; [done|].
  by rewrite generateRow_set_frontier, IH.
Qed.

(** *** The calls made by [update] *)

Lemma fold_left_guarded {A B : Type} (guard : B → bool) (body : B → A → A)
    (l : list B) (a : A) :
  fold_left (λ a b, if guard b then body b a else a) l a
  = fold_left (λ a b, body b a) (filter (λ b, guard b = true) l) a.
Proof.
  revert a. induction l as [|b l IH]; intros a; simpl; [done|].
  rewrite filter_cons. destruct (guard b) eqn:Hg.
  - rewrite decide_True by done. simpl. apply IH.
  - rewrite decide_False by done. apply IH.
Qed.

(** [update] is the list of [generateRow] calls named by [updateCalls],
    followed by the assignment of the frontier. *)
Lemma update_as_calls (cameraBottomY : Q) s :
  update TILE_SIZE random cameraBottomY s
  = set_generatedRowsMaxY
      (frontierAfter TILE_SIZE (generatedRowsMaxY s) cameraBottomY)
      (fold_left (λ s y, generateRow TILE_SIZE random y false s)
         (updateCalls TILE_SIZE (generatedRowsMaxY s) cameraBottomY) s).
Proof.
  unfold update, frontierAfter, updateCalls.
  destruct (Qlt_bool _ _).
  - cbv zeta. rewrite forEachRowY_loopYs. f_equal.
    unfold generateBelowPlatform.
    apply (fold_left_guarded
             (λ y, Qle_bool (inject_Z (initialPlatformRows + 1) * TILE_SIZE) y)
             (λ y s, generateRow TILE_SIZE random y false s)).
  - simpl. by destruct s.
Qed.

Lemma update_frontier (cameraBottomY : Q) s :
  generatedRowsMaxY (update TILE_SIZE random cameraBottomY s)
  = frontierAfter TILE_SIZE (generatedRowsMaxY s) cameraBottomY.
Proof. by rewrite update_as_calls. Qed.

Lemma updates_as_calls (cameras : list Q) s :
  updates TILE_SIZE random cameras s
  = set_generatedRowsMaxY
      (frontierAfterAll TILE_SIZE (generatedRowsMaxY s) cameras)
      (fold_left (λ s y, generateRow TILE_SIZE random y false s)
         (generatorCalls TILE_SIZE (generatedRowsMaxY s) cameras) s).
Proof.
  unfold updates, frontierAfterAll. revert s.
  induction cameras as [|c cameras IH]; intros s; simpl.
  - by destruct s.
  - rewrite IH, update_frontier, update_as_calls.
    rewrite fold_left_app, generateRows_set_frontier. reflexivity.
Qed.

Lemma updates_frontier (cameras : list Q) s :
  generatedRowsMaxY (updates TILE_SIZE random cameras s)
  = frontierAfterAll TILE_SIZE (generatedRowsMaxY s) cameras.
Proof. by rewrite updates_as_calls. Qed.

(** A call whose threshold does not exceed the frontier changes nothing. *)
Lemma update_covered (cameraBottomY : Q) s :
  (cameraBottomY + TILE_SIZE * 10 <= generatedRowsMaxY s)%Q →
  update TILE_SIZE random cameraBottomY s = s.
Proof.
  intros Hle. unfold update. apply Qlt_bool_false_iff in Hle. by rewrite Hle.
Qed.

(** *** The rows visited by one call *)

Lemma rowOf_ge (y : Q) (r : Z) :
  (inject_Z r * TILE_SIZE <= y)%Q ↔ r ≤ rowOf TILE_SIZE y.
Proof.
  destruct (rowOf_bounds y) as [Hlo Hhi]. split.
  - intros Hle.
    assert (Hlt : (inject_Z r < inject_Z (rowOf TILE_SIZE y + 1))%Q) by nra.
    rewrite <- Zlt_Qlt in Hlt. lia.
  - intros Hle. rewrite Zle_Qle in Hle. nra.
Qed.

Lemma rowOf_mono (y1 y2 : Q) :
  (y1 <= y2)%Q → rowOf TILE_SIZE y1 ≤ rowOf TILE_SIZE y2.
Proof.
  intros Hle. apply rowOf_ge. destruct (rowOf_bounds y1) as [Hlo _]. lra.
Qed.

Lemma rowOf_shift (y : Q) (n : Z) :
  rowOf TILE_SIZE (y + inject_Z n * TILE_SIZE) = rowOf TILE_SIZE y + n.
Proof.
  destruct (rowOf_bounds y) as [Hlo Hhi]. apply rowOf_unique.
  - rewrite inject_Z_plus. nra.
  - rewrite !inject_Z_plus. rewrite inject_Z_plus in Hhi. nra.
Qed.

Lemma rowOf_aligned (r : Z) (y : Q) :
  (y == inject_Z r * TILE_SIZE)%Q → rowOf TILE_SIZE y = r.
Proof.
  intros Hy. apply rowOf_unique; [lra|].
  rewrite inject_Z_plus. change (inject_Z 1) with 1%Q. nra.
Qed.

(** The loop visits consecutive rows, one per iteration. *)
Lemma loopYs_rows (n : nat) (y endY : Q) :
  (n = 0%nat ∨ (y + inject_Z (Z.of_nat n - 1) * TILE_SIZE < endY)%Q) →
  map (rowOf TILE_SIZE) (loopYs TILE_SIZE n y endY)
  = seqZ (rowOf TILE_SIZE y) (Z.of_nat n).
Proof.
  revert y. induction n as [|n IH]; intros y Hn; [done|].
  destruct Hn as [Hn|Hn]; [done|].
  replace (Z.of_nat (S n) - 1) with (Z.of_nat n) in Hn by lia.
  assert (Hpos : (0 <= inject_Z (Z.of_nat n))%Q).
  { change 0%Q with (inject_Z 0). rewrite <- Zle_Qle. lia. }
  assert (Hlt : Qlt_bool y endY = true) by (apply Qlt_bool_iff; nra).
  simpl loopYs. rewrite Hlt. simpl map.
  rewrite IH.
  - rewrite rowOf_step. rewrite (seqZ_cons _ (Z.of_nat (S n))) by lia.
    do 2 f_equal; lia.
  - destruct n as [|n]; [by left|]. right.
    replace (Z.of_nat (S n)) with (Z.of_nat (S n) - 1 + 1) in Hn by lia.
    rewrite inject_Z_plus in Hn. change (inject_Z 1) with 1%Q in Hn. nra.
Qed.

Lemma rowSteps_last (startY endY : Q) :
  (startY < endY)%Q →
  (1 ≤ rowSteps TILE_SIZE startY endY)%nat
  ∧ (startY
     + inject_Z (Z.of_nat (rowSteps TILE_SIZE startY endY) - 1) * TILE_SIZE
     < endY)%Q.
Proof.
  intros Hlt. unfold rowSteps.
  pose proof (Qceiling_lt ((endY - startY) / TILE_SIZE)) as Hc.
  pose proof (Qle_ceiling ((endY - startY) / TILE_SIZE)) as Hc'.
  set (c := Qceiling ((endY - startY) / TILE_SIZE)) in *.
  assert (Hdiv : ((endY - startY) / TILE_SIZE * TILE_SIZE == endY - startY)%Q)
    by (field; lra).
  assert (Hq : (0 < (endY - startY) / TILE_SIZE)%Q).
  { apply Qlt_shift_div_l; lra. }
  assert (Hc1 : 1 ≤ c).
  { assert (Hc0 : (inject_Z 0 < inject_Z c)%Q).
    { change (inject_Z 0) with 0%Q. lra. }
    rewrite <- Zlt_Qlt in Hc0. lia. }
  split; [lia|].
  rewrite Z2Nat.id by lia.
  assert (Hmul : (inject_Z (c - 1) * TILE_SIZE
                  < (endY - startY) / TILE_SIZE * TILE_SIZE)%Q).
  { apply Qmult_lt_compat_r; lra. }
  lra.
Qed.

Lemma below_platform_iff (y : Q) :
  Qle_bool (inject_Z (initialPlatformRows + 1) * TILE_SIZE) y = true
  ↔ initialPlatformRows < rowOf TILE_SIZE y.
Proof. rewrite Qle_bool_iff, rowOf_ge. lia. Qed.

Lemma below_platform_rows (ys : list Q) :
  map (rowOf TILE_SIZE)
    (filter
       (λ y, Qle_bool (inject_Z (initialPlatformRows + 1) * TILE_SIZE) y = true)
       ys)
  = filter (λ r, initialPlatformRows < r) (map (rowOf TILE_SIZE) ys).
Proof.
  induction ys as [|y ys IH]; [done|].
  simpl map. rewrite !filter_cons.
  destruct (decide (Qle_bool _ y = true)) as [Hy|Hy].
  - rewrite decide_True by by apply below_platform_iff.
    simpl. by rewrite IH.
  - rewrite decide_False by by rewrite <- below_platform_iff.
    apply IH.
Qed.

(** The rows visited by one [update]: consecutive rows from the row of the
    frontier on, one per loop iteration, those below the platform only. *)
Lemma updateCalls_rows (frontier cameraBottomY : Q) :
  let threshold := (cameraBottomY + TILE_SIZE * 10)%Q in
  map (rowOf TILE_SIZE) (updateCalls TILE_SIZE frontier cameraBottomY)
  = if Qlt_bool frontier threshold
    then filter (λ r, initialPlatformRows < r)
           (seqZ (rowOf TILE_SIZE frontier)
              (Z.of_nat (rowSteps TILE_SIZE frontier threshold)))
    else [].
Proof.
  intros threshold. unfold updateCalls. fold threshold.
  destruct (Qlt_bool frontier threshold) eqn:Hlt; [|done].
  apply Qlt_bool_iff in Hlt. rewrite below_platform_rows. f_equal.
  apply loopYs_rows. right. by apply rowSteps_last.
Qed.

(** *** Coverage *)

(** Every row below the platform that starts at or after the row of the
    initial frontier and ends at or before the final frontier is visited. *)
Lemma generatorCalls_cover (cameras : list Q) (frontier : Q) (r : Z) :
  initialPlatformRows < r →
  rowOf TILE_SIZE frontier ≤ r →
  (inject_Z (r + 1) * TILE_SIZE
   <= frontierAfterAll TILE_SIZE frontier cameras)%Q →
  r ∈ map (rowOf TILE_SIZE) (generatorCalls TILE_SIZE frontier cameras).
Proof.
  intros Hplat. unfold frontierAfterAll. revert frontier.
  induction cameras as [|c cameras IH]; intros frontier Hfrom Hto; simpl in *.
  - apply rowOf_ge in Hto. lia.
  - rewrite map_app. apply elem_of_app.
    set (next := frontierAfter TILE_SIZE frontier c) in *.
    destruct (decide (rowOf TILE_SIZE next ≤ r)) as [Hnext|Hnext].
    { right. by apply IH. }
    left. rewrite updateCalls_rows. subst next. unfold frontierAfter in Hnext.
    destruct (Qlt_bool frontier (c + TILE_SIZE * 10)) eqn:Hlt; [|lia].
    apply Qlt_bool_iff in Hlt.
    apply list_elem_of_filter. split; [done|]. apply elem_of_seqZ.
    split; [done|].
    pose proof (rowSteps_reaches frontier (c + TILE_SIZE * 10)) as Hreach.
    apply rowOf_mono in Hreach. rewrite rowOf_shift in Hreach. lia.
Qed.

(** *** Aligned frontiers *)

Lemma tileAligned_rowOf (y : Q) :
  tileAligned TILE_SIZE y →
  (y == inject_Z (rowOf TILE_SIZE y) * TILE_SIZE)%Q.
Proof. intros [r Hr]. by rewrite (rowOf_aligned r y Hr). Qed.

(** Between two row boundaries the loop makes one iteration per row. *)
Lemma rowSteps_aligned (startY endY : Q) :
  tileAligned TILE_SIZE startY → tileAligned TILE_SIZE endY →
  (startY < endY)%Q →
  Z.of_nat (rowSteps TILE_SIZE startY endY)
  = rowOf TILE_SIZE endY - rowOf TILE_SIZE startY.
Proof.
  intros Ha Hb Hlt.
  apply tileAligned_rowOf in Ha, Hb.
  destruct (rowSteps_last startY endY Hlt) as [Hn Hlast].
  pose proof (rowSteps_reaches startY endY) as Hreach.
  set (n := Z.of_nat (rowSteps TILE_SIZE startY endY)) in *.
  set (a := rowOf TILE_SIZE startY) in *.
  set (b := rowOf TILE_SIZE endY) in *.
  assert (Hlo : (inject_Z (a + (n - 1)) < inject_Z b)%Q).
  { rewrite inject_Z_plus. nra. }
  assert (Hhi : (inject_Z b <= inject_Z (a + n))%Q).
  { rewrite inject_Z_plus. nra. }
  rewrite <- Zlt_Qlt in Hlo. rewrite <- Zle_Qle in Hhi. lia.
Qed.

End Properties.

(** * The scenarios of the specification, at tile size 16 *)

Section Scenarios.

Context {Boulder Enemy Spike Coin : Type}.
Context `{!GameObject Boulder, !Damageable Boulder}.
Context `{!GameObject Enemy, !Damageable Enemy, !Mobile Enemy}.
Context `{!GameObject Spike, !Damageable Spike}.
Context `{!GameObject Coin}.

Variable random : nat → Q.

Implicit Types s : TerrainManager Boulder Enemy Spike Coin.

Lemma sixteen_pos : (0 < 16)%Q.
Proof. reflexivity. Qed.

(** [clearCurrentRow] returns true exactly when the row
    [floor(triggerWorldY / 16) + 1] is stored. *)
Lemma clearCurrentRow_true_iff (triggerWorldY : Q) s :
  (clearCurrentRow 16 triggerWorldY s).1 = true
  ↔ is_Some (rowColliders s !! (Qfloor (triggerWorldY / 16) + 1)).
Proof.
  destruct (rowColliders s !! (Qfloor (triggerWorldY / 16) + 1))
    as [collider|] eqn:Hc.
  - destruct (clearCurrentRow_present 16 triggerWorldY s collider Hc)
      as (Htrue & _).
    split; [by eexists | done].
  - rewrite (proj1 (clearCurrentRow_none 16 _ _ Hc)). split; [done|].
    by intros [? ?].
Qed.

(** C1 (as amended): with tile size 16, after a forced [generateRow(80)]
    (row 5) and a natural [generateRow(96)] (row 6) on a manager that stores
    none of the rows 5, 6 and 7, the target of a clear is the row
    [floor(triggerWorldY / 16) + 1].  For the trigger 97 that is row 7, which
    has no collider: the call returns false and changes nothing.  For every
    trigger in row 5's band (from 80 up to 96) it is row 6: the call removes
    row 6's collider, keeps row 5's and returns true, and a repeated call with
    the same trigger returns false. *)
Theorem scenario_clear_row_six s :
  rowColliders s !! 5 = None →
  rowColliders s !! 6 = None →
  rowColliders s !! 7 = None →
  let s2 := generateRow 16 random 96 false (generateRow 16 random 80 true s) in
  (∀ triggerWorldY s0,
     (clearCurrentRow 16 triggerWorldY s0).1 = true
     ↔ is_Some (rowColliders s0 !! (Qfloor (triggerWorldY / 16) + 1)))
  ∧ is_Some (rowColliders s2 !! 5)
  ∧ is_Some (rowColliders s2 !! 6)
  ∧ Qfloor (97 / 16) + 1 = 7
  ∧ clearCurrentRow 16 97 s2 = (false, s2)
  ∧ (∀ triggerWorldY,
       (80 <= triggerWorldY)%Q → (triggerWorldY < 96)%Q →
       let cleared := clearCurrentRow 16 triggerWorldY s2 in
       cleared.1 = true
       ∧ rowColliders cleared.2 !! 6 = None
       ∧ is_Some (rowColliders cleared.2 !! 5)
       ∧ clearCurrentRow 16 triggerWorldY cleared.2 = (false, cleared.2)).
Proof.
  intros H5 H6 H7 s2.
  set (s1 := generateRow 16 random 80 true s) in *.
  assert (Hg1 : generates 16 80 true s = true).
  { unfold generates. change (Qfloor (80 / 16)) with 5.
    unfold has. by rewrite H5. }
  destruct (generateRow_rowColliders 16 random 80 true s Hg1)
    as (c5 & Hs1 & _).
  change (rowOf 16 80) with 5 in Hs1. fold s1 in Hs1.
  assert (Hg2 : generates 16 96 false s1 = true).
  { unfold generates. change (Qfloor (96 / 16)) with 6.
    unfold has. rewrite Hs1, lookup_insert_ne by done. by rewrite H6. }
  destruct (generateRow_rowColliders 16 random 96 false s1 Hg2)
    as (c6 & Hs2 & _).
  change (rowOf 16 96) with 6 in Hs2. fold s2 in Hs2. rewrite Hs1 in Hs2.
  assert (L5 : rowColliders s2 !! 5 = Some c5).
  { rewrite Hs2, lookup_insert_ne by done. apply lookup_insert_eq. }
  assert (L6 : rowColliders s2 !! 6 = Some c6).
  { rewrite Hs2. apply lookup_insert_eq. }
  assert (L7 : rowColliders s2 !! 7 = None).
  { by rewrite Hs2, !lookup_insert_ne. }
  split_and!.
  - apply clearCurrentRow_true_iff.
  - by eexists.
  - by eexists.
  - reflexivity.
  - destruct (clearCurrentRow_none 16 97 s2 L7) as [Hfalse Hsame].
    destruct (clearCurrentRow 16 97 s2) as [result after]. simpl in *.
    by subst.
  - intros y Hlo Hhi cleared.
    assert (Hrow : Qfloor (y / 16) + 1 = 6).
    { assert (Hr : rowOf 16 y = 5).
      { apply (rowOf_unique 16 sixteen_pos).
        - change (inject_Z 5 * 16)%Q with 80%Q. lra.
        - change (inject_Z (5 + 1) * 16)%Q with 96%Q. lra. }
      unfold rowOf in Hr. lia. }
    assert (Hc : rowColliders s2 !! (Qfloor (y / 16) + 1) = Some c6).
    { by rewrite Hrow. }
    destruct (clearCurrentRow_present 16 y s2 c6 Hc) as (Htrue & HC & _).
    fold cleared in Htrue, HC. rewrite Hrow in HC.
    assert (Hgone : rowColliders cleared.2 !! 6 = None).
    { rewrite HC. apply lookup_delete_eq. }
    split_and!; try done.
    + rewrite HC, lookup_delete_ne by done. by eexists.
    + assert (Hgone' : rowColliders cleared.2 !! (Qfloor (y / 16) + 1) = None)
        by by rewrite Hrow.
      destruct (clearCurrentRow_none 16 y cleared.2 Hgone') as [Hfalse Hsame].
      destruct (clearCurrentRow 16 y cleared.2) as [result after]. simpl in *.
      by subst.
Qed.

Lemma blast_band (k : Z) :
  rowInBlast 16 Scenario.blast k = true ∧ 7 ≤ k ≤ 13 ↔ 8 ≤ k ≤ 12.
Proof.
  split.
  - intros [Hb Hk].
    assert (Hcases : k = 7 ∨ k = 13 ∨ 8 ≤ k ≤ 12) by lia.
    destruct Hcases as [->|[->|?]]; [by vm_compute in Hb..|done].
  - intros Hk. split; [|lia].
    assert (Hcases : k = 8 ∨ k = 9 ∨ k = 10 ∨ k = 11 ∨ k = 12) by lia.
    destruct Hcases as [->|[->|[->|[->| ->]]]]; reflexivity.
Qed.

(** C8: the explosion resolver considers the rows from
    [centerTileY - tileRadius] to [centerTileY + tileRadius], where
    [tileRadius = ceil(radius / tileSize)]; a candidate row is kept exactly
    when its vertical distance passes [yDist² <= radius²] and then
    [xDist² + yDist² <= radius² + (mapWidth / 2)²]; every kept row is cleared
    from both registries and no other row is.  With tile size 16, the
    explosion of radius 40 centred at the world centre of row 10 clears
    exactly the rows 8 to 12. *)
Theorem explosion_clears_band s (k : Z) :
  store_inv s →
  (∀ TILE_SIZE data,
     (0 < TILE_SIZE)%Q →
     let centerTileY := Qfloor (worldY data / TILE_SIZE) in
     let tileRadius := Qceiling (radius data / TILE_SIZE) in
     let yDist := rowYDist TILE_SIZE data k in
     let xDist := (worldX data - mapWidthPixels TILE_SIZE / 2)%Q in
     let kept :=
       centerTileY - tileRadius ≤ k ≤ centerTileY + tileRadius
       ∧ (yDist * yDist <= radius data * radius data)%Q
       ∧ (xDist * xDist + yDist * yDist
          <= radius data * radius data
             + (mapWidthPixels TILE_SIZE / 2)
               * (mapWidthPixels TILE_SIZE / 2))%Q in
     let s' := handleCreateExplosion TILE_SIZE data s in
     (kept → rowColliders s' !! k = None ∧ rowVisuals s' !! k = None)
     ∧ (¬ kept →
        rowColliders s' !! k = rowColliders s !! k
        ∧ rowVisuals s' !! k = rowVisuals s !! k))
  ∧ (let s' := handleCreateExplosion 16 Scenario.blast s in
     (8 ≤ k ≤ 12 → rowColliders s' !! k = None ∧ rowVisuals s' !! k = None)
     ∧ (¬ 8 ≤ k ≤ 12 →
        rowColliders s' !! k = rowColliders s !! k
        ∧ rowVisuals s' !! k = rowVisuals s !! k)).
Proof.
  intros Hinv. split.
  - intros TILE_SIZE data Hpos centerTileY tileRadius yDist xDist kept s'.
    destruct (handleCreateExplosion_rows TILE_SIZE Hpos data s k Hinv)
      as [Hkept Hother].
    fold centerTileY tileRadius s' in Hkept, Hother.
    pose proof (rowInBlast_iff TILE_SIZE data k) as Hiff.
    cbv zeta in Hiff. fold yDist xDist in Hiff.
    subst kept. rewrite <- Hiff. split; [exact Hkept | exact Hother].
  - intros s'.
    destruct (handleCreateExplosion_rows 16 sixteen_pos Scenario.blast s k Hinv)
      as [Hkept Hother].
    fold s' in Hkept, Hother.
    change (Qfloor (worldY Scenario.blast / 16)) with 10 in Hkept, Hother.
    change (Qceiling (radius Scenario.blast / 16)) with 3 in Hkept, Hother.
    pose proof (blast_band k) as Hband. split.
    + intros Hk. apply Hkept. apply Hband in Hk as [Hb Hk]. split; [lia|done].
    + intros Hk. apply Hother. intros [Hr Hb]. apply Hk, Hband.
      split; [done|lia].
Qed.

End Scenarios.

(** * The properties at work on the scenario managers *)

Module Examples.

Import Scenario.

(** [clearCurrentRow(97)] on the two-row manager: row 7 is not stored. *)
Lemma clearCurrentRow_absent_witness :
  rowColliders twoRows !! (Qfloor (97 / TILE_SIZE) + 1) = None
  ∧ clearCurrentRow TILE_SIZE 97 twoRows = (false, twoRows).
Proof.
  assert (Habsent : rowColliders twoRows !! (Qfloor (97 / TILE_SIZE) + 1)
                    = None) by by vm_compute.
  split; [exact Habsent|].
  exact (clearCurrentRow_absent TILE_SIZE 97 twoRows Habsent).
Defined.

(** A natural [generateRow(80)] on the fresh manager: row 5 is the platform. *)
Lemma generateRow_platform_exclusion_witness :
  rowOf TILE_SIZE 80 ≤ initialPlatformRows
  ∧ generateRow TILE_SIZE random 80 false fresh = fresh.
Proof.
  assert (Hrow : rowOf TILE_SIZE 80 ≤ initialPlatformRows) by by vm_compute.
  split; [exact Hrow|].
  exact (generateRow_platform_exclusion TILE_SIZE random 80 fresh Hrow).
Defined.

(** The registries of the two-row manager stay aligned through a clear. *)
Lemma store_inv_invariant_witness :
  store_inv twoRows
  ∧ store_inv (clearCurrentRow TILE_SIZE 81 twoRows).2.
Proof.
  destruct (store_inv_invariant (Boulder := Actor) (Enemy := Actor)
              (Spike := Actor) (Coin := Actor) TILE_SIZE random)
    as [Hnew Hkeep].
  pose proof (Hnew [] [] (Some []) (Some [])) as Hfresh.
  destruct (Hkeep _ Hfresh) as (_ & Hgen1 & _).
  pose proof (Hgen1 80%Q true) as Hone.
  destruct (Hkeep _ Hone) as (_ & Hgen2 & _).
  pose proof (Hgen2 96%Q false) as Htwo.
  destruct (Hkeep _ Htwo) as (_ & _ & Hclear & _).
  split; [exact Htwo | exact (Hclear 81%Q)].
Defined.

(** The trigger 97 of the specification's scenario targets row 7: the call
    returns false and row 6 keeps its collider. *)
Lemma scenario_trigger_97_counterexample :
  Qfloor (97 / TILE_SIZE) + 1 = 7
  ∧ (clearCurrentRow TILE_SIZE 97 twoRows).1 = false
  ∧ rowColliders (clearCurrentRow TILE_SIZE 97 twoRows).2 !! 6
    = Some row6Collider.
Proof. split_and!; by vm_compute. Qed.

(** The amended scenario on the fresh manager, with the trigger 81. *)
Lemma scenario_clear_row_six_witness :
  rowColliders fresh !! 5 = None
  ∧ rowColliders fresh !! 6 = None
  ∧ rowColliders fresh !! 7 = None
  ∧ clearCurrentRow TILE_SIZE 97 twoRows = (false, twoRows)
  ∧ (clearCurrentRow TILE_SIZE 81 twoRows).1 = true
  ∧ rowColliders (clearCurrentRow TILE_SIZE 81 twoRows).2 !! 6 = None.
Proof.
  assert (H5 : rowColliders fresh !! 5 = None) by reflexivity.
  assert (H6 : rowColliders fresh !! 6 = None) by reflexivity.
  assert (H7 : rowColliders fresh !! 7 = None) by reflexivity.
  destruct (scenario_clear_row_six random fresh H5 H6 H7)
    as (_ & _ & _ & _ & H97 & H81).
  assert (Hlo : (80 <= 81)%Q) by by vm_compute.
  assert (Hhi : (81 < 96)%Q) by by vm_compute.
  destruct (H81 81%Q Hlo Hhi) as (Htrue & Hgone & _).
  split_and!; [exact H5 | exact H6 | exact H7 | exact H97 | exact Htrue
              | exact Hgone].
Defined.

(** A natural call on the platform row stores nothing, so the forced call
    that follows is not a no-op. *)
Lemma generateRow_twice_counterexample :
  let s1 := generateRow TILE_SIZE random 80 false fresh in
  let s2 := generateRow TILE_SIZE random 80 true s1 in
  rowColliders s1 !! rowOf TILE_SIZE 80 = None ∧ s2 ≠ s1.
Proof.
  split; [by vm_compute|].
  intros Heq. apply (f_equal (λ s, rowColliders s !! 5)) in Heq.
  vm_compute in Heq. discriminate Heq.
Qed.

(** The two calls that [update(260)] and [update(273)] make on row 26 after
    the initial chunk, from world-Y 416 and from world-Y 420. *)
Lemma generateRow_twice_witness :
  let s1 := generateRow TILE_SIZE random 416 false chunk in
  let s2 := generateRow TILE_SIZE random 420 false s1 in
  rowOf TILE_SIZE 416 = rowOf TILE_SIZE 420
  ∧ (length (rowColliderGroup s2) ≤ length (rowColliderGroup chunk) + 1)%nat
  ∧ (s1 ≠ chunk → s2 = s1).
Proof.
  intros s1 s2.
  assert (Hrow : rowOf TILE_SIZE 416 = rowOf TILE_SIZE 420) by by vm_compute.
  destruct (generateRow_twice TILE_SIZE random 416 420 false false chunk Hrow)
    as (Hcolliders & _ & _ & Hchanged & _).
  split; [exact Hrow|]. split; [exact Hcolliders | exact Hchanged].
Defined.

(** Clearing row 6 damages a spike that lies inside row 6's own band, not in
    the tile band above it. *)
Lemma clear_locality_counterexample :
  let N := Qfloor (81 / TILE_SIZE) + 1 in
  let s' := (clearCurrentRow TILE_SIZE 81 twoRowsWithSpikes).2 in
  N = 6
  ∧ rowOf TILE_SIZE (go_y spikeInRow6) = 6
  ∧ ¬ (go_y spikeInRow6 <= inject_Z N * TILE_SIZE)%Q
  ∧ spikesGroup twoRowsWithSpikes = Some [spikeInRow6; spikeInRow4]
  ∧ spikesGroup s' = Some [takeDamage 1 spikeInRow6; spikeInRow4]
  ∧ takeDamage 1 spikeInRow6 ≠ spikeInRow6.
Proof. split_and!; by vm_compute. Qed.

(** Clearing row 6 of the two-row manager with its two spikes. *)
Lemma clearCurrentRow_locality_witness :
  rowColliders twoRowsWithSpikes !! (Qfloor (81 / TILE_SIZE) + 1)
  = Some row6Collider
  ∧ rowColliders (clearCurrentRow TILE_SIZE 81 twoRowsWithSpikes).2
      !! (Qfloor (81 / TILE_SIZE) + 1) = None
  ∧ bouldersGroup (clearCurrentRow TILE_SIZE 81 twoRowsWithSpikes).2
    = bouldersGroup twoRowsWithSpikes.
Proof.
  assert (Hc : rowColliders twoRowsWithSpikes !! (Qfloor (81 / TILE_SIZE) + 1)
               = Some row6Collider) by by vm_compute.
  destruct (clearCurrentRow_locality TILE_SIZE 81 twoRowsWithSpikes
              row6Collider Hc) as ((Hgone & _) & _ & _ & Hboulders & _).
  split; [exact Hc|]. split; [exact Hgone | exact Hboulders].
Defined.

(** The first cell of row 6 on the fresh manager. *)
Lemma spawnCell_outcome_witness :
  let s' := spawnCell TILE_SIZE random (rowSpawn TILE_SIZE 96 6) fresh 0 in
  is_Some (spikesGroup fresh)
  ∧ (length (bouldersGroup s') + length (enemiesGroup s')
     + groupSize (spikesGroup s') + groupSize (coinsGroup s')
     ≤ length (bouldersGroup fresh) + length (enemiesGroup fresh)
       + groupSize (spikesGroup fresh) + groupSize (coinsGroup fresh) + 1)%nat.
Proof.
  intros s'.
  assert (Hs : is_Some (spikesGroup fresh)) by by eexists.
  destruct (spawnCell_outcome TILE_SIZE random (rowSpawn TILE_SIZE 96 6) fresh
              0 Hs) as (_ & Hone & _).
  split; [exact Hs | exact Hone].
Defined.

(** The damage pass of the scenario explosion on the arena: the enemy at
    distance 40 is hit, the enemy at distance 45 is not. *)
Lemma explosion_damage_radius_witness :
  (0 <= radius blast)%Q
  ∧ damagedExactly 999 blast (enemiesGroup arena)
      (enemiesGroup (damageEntitiesInBlast blast arena))
  ∧ enemiesGroup (handleCreateExplosion TILE_SIZE blast arena)
    = [takeDamage 999 nearEnemy; farEnemy].
Proof.
  assert (Hr : (0 <= radius blast)%Q) by by vm_compute.
  destruct (explosion_damage_radius TILE_SIZE blast arena Hr)
    as (Henemies & _).
  split; [exact Hr|]. split; [exact Henemies | by vm_compute].
Defined.

(** The scenario explosion after the initial chunk: row 10 leaves the
    registry, row 13 stays. *)
Lemma explosion_clears_band_witness :
  store_inv chunk
  ∧ rowColliders (handleCreateExplosion TILE_SIZE blast chunk) !! 10 = None
  ∧ rowColliders (handleCreateExplosion TILE_SIZE blast chunk) !! 13
    = rowColliders chunk !! 13.
Proof.
  assert (Hfresh : store_inv fresh) by reflexivity.
  pose proof (generateInitialChunk_store_inv TILE_SIZE random fresh Hfresh)
    as Hinv.
  fold chunk in Hinv.
  destruct (explosion_clears_band chunk 10 Hinv) as (_ & Hin & _).
  destruct (explosion_clears_band chunk 13 Hinv) as (_ & _ & Hout).
  assert (H10 : 8 ≤ 10 ≤ 12) by lia.
  assert (H13 : ¬ 8 ≤ 13 ≤ 12) by lia.
  split; [exact Hinv|].
  split; [exact (proj1 (Hin H10)) | exact (proj1 (Hout H13))].
Defined.

(** C3: [update] restarts its loop at the previous threshold instead of at a
    row top.  After the initial chunk (frontier 416) the call [update(260)]
    visits row 26 at its top 416 and leaves the frontier at 420; the call
    [update(273)] visits row 26 again, at 420, and stops at the frontier 433
    without visiting row 27, whose top 432 is below that frontier and below
    the threshold.  The second visit is seen when row 26 was cleared in
    between: the row is built again, with its collider and its visual 4 units
    below their place.  The next call, [update(300)], builds row 27 from 433
    and row 28 from 449, each 1 unit below its place, where the initial chunk
    puts every row on its top. *)
Lemma update_unaligned_generateRow :
  let s1 := update TILE_SIZE random 260 chunk in
  let s2 := update TILE_SIZE random 273 s1 in
  let s3 := update TILE_SIZE random 300 s2 in
  let cleared := (clearCurrentRow TILE_SIZE 401 s1).2 in
  let rebuilt := update TILE_SIZE random 273 cleared in
  let colliderY := λ (s : Manager) k, collider_y <$> rowColliders s !! k in
  let visualY := λ (s : Manager) k, visual_y <$> rowVisuals s !! k in
  (generatedRowsMaxY chunk == 416)%Q
  ∧ (generatedRowsMaxY s1 == 420)%Q
  ∧ (generatedRowsMaxY s2 == 433)%Q
  ∧ colliderY chunk 25 = Some (25 * TILE_SIZE + TILE_SIZE * 0.9)%Q
  ∧ colliderY s1 26 = Some (26 * TILE_SIZE + TILE_SIZE * 0.9)%Q
  ∧ rowColliders cleared !! 26 = None
  ∧ colliderY rebuilt 26 = Some (420 + TILE_SIZE * 0.9)%Q
  ∧ visualY rebuilt 26 = Some (420 + TILE_SIZE / 2)%Q
  ∧ ¬ (420 == 26 * TILE_SIZE)%Q
  ∧ rowColliders s2 !! 27 = None
  ∧ (inject_Z 27 * TILE_SIZE < generatedRowsMaxY s2)%Q
  ∧ (inject_Z 27 * TILE_SIZE <= 273 + TILE_SIZE * 10)%Q
  ∧ colliderY s3 27 = Some (433 + TILE_SIZE * 0.9)%Q
  ∧ colliderY s3 28 = Some (449 + TILE_SIZE * 0.9)%Q
  ∧ ¬ (433 == 27 * TILE_SIZE)%Q.
Proof. split_and!; by vm_compute. Qed.

End Examples.

(** * The row store of every reachable manager *)

Section ReachableManagers.

Context {Boulder Enemy Spike Coin : Type}.
Context `{!GameObject Boulder, !Damageable Boulder}.
Context `{!GameObject Enemy, !Damageable Enemy, !Mobile Enemy}.
Context `{!GameObject Spike, !Damageable Spike}.
Context `{!GameObject Coin}.

Variable TILE_SIZE : Q.
Variable random : nat → Q.
Hypothesis TILE_SIZE_pos : (0 < TILE_SIZE)%Q.

Implicit Types s : TerrainManager Boulder Enemy Spike Coin.

#[local] Arguments Qfloor : simpl never.
#[local] Arguments Qceiling : simpl never.
#[local] Arguments Qdiv : simpl never.
#[local] Arguments Qmult : simpl never.
#[local] Arguments Qplus : simpl never.
#[local] Arguments Qminus : simpl never.
#[local] Arguments Qle_bool : simpl never.
#[local] Arguments Qlt_bool : simpl never.
#[local] Arguments inject_Z : simpl never.
#[local] Arguments Z.add : simpl never.
#[local] Arguments Z.sub : simpl never.
#[local] Arguments Z.mul : simpl never.

(** ** What a generating call adds *)

Lemma generates_true_iff (worldY : Q) (force : bool) s :
  generates TILE_SIZE worldY force s = true
  ↔ 0 ≤ rowOf TILE_SIZE worldY < mapHeightTiles
    ∧ rowColliders s !! rowOf TILE_SIZE worldY = None
    ∧ (force = true ∨ initialPlatformRows < rowOf TILE_SIZE worldY).
Proof.
  unfold generates, rowOf, has.
  set (k := Qfloor (worldY / TILE_SIZE)).
  rewrite andb_true_iff, !negb_true_iff, !orb_false_iff, andb_false_iff.
  rewrite Z.ltb_ge, Z.leb_gt, negb_false_iff, Z.leb_gt.
  destruct (rowColliders s !! k), force; simpl;
    intuition (try discriminate; try lia).
Qed.

Lemma generateRow_registers (worldY : Q) (force : bool) s :
  let k := rowOf TILE_SIZE worldY in
  let after := generateRow TILE_SIZE random worldY force s in
  let collider :=
    mkCollider (allocated s) 0 (worldY + TILE_SIZE * 0.9)%Q
      (mapWidthPixels TILE_SIZE + 30)%Q (TILE_SIZE * 0.1)%Q k in
  let visual :=
    mkVisual (S (allocated s)) (mapWidthPixels TILE_SIZE / 2)%Q
      (worldY + TILE_SIZE / 2)%Q (mapWidthPixels TILE_SIZE) TILE_SIZE in
  generates TILE_SIZE worldY force s = true →
  rowColliders after = <[k := collider]> (rowColliders s)
  ∧ rowVisuals after = <[k := visual]> (rowVisuals s)
  ∧ rowColliderGroup after = rowColliderGroup s ++ [collider]
  ∧ rowVisualsGroup after = rowVisualsGroup s ++ [visual]
  ∧ allocated after = S (S (allocated s))
  ∧ eventBus after = eventBus s
  ∧ particleManager after = particleManager s
  ∧ generatedRowsMaxY after = generatedRowsMaxY s.
Proof.
  intros k after collider visual Hg. subst after.
  destruct (generateRow_adds TILE_SIZE random worldY force s Hg)
    as (-> & -> & -> & -> & -> & -> & -> & ->).
  split_and!; reflexivity.
Qed.

(** ** The invariants are kept by [generateRow] *)

Lemma wf_generateRow (worldY : Q) (force : bool) s :
  manager_wf TILE_SIZE s →
  force = false ∨ rowOf TILE_SIZE worldY = initialPlatformRows →
  manager_wf TILE_SIZE (generateRow TILE_SIZE random worldY force s).
Proof.
  intros (Hinv & Hrows & Hgroups) Hcall.
  destruct (generates TILE_SIZE worldY force s) eqn:Hg;
    [|by rewrite generateRow_skips].
  pose proof Hg as (Hbounds & Habsent & Hforce)%generates_true_iff.
  destruct (generateRow_registers worldY force s Hg)
    as (HC & HV & HCG & HVG & Halloc & _).
  set (k := rowOf TILE_SIZE worldY) in *.
  set (after := generateRow TILE_SIZE random worldY force s) in *.
  set (collider := mkCollider _ _ _ _ _ _) in *.
  set (visual := mkVisual _ _ _ _ _) in *.
  assert (Habsent' : rowVisuals s !! k = None).
  { apply not_elem_of_dom. rewrite <- Hinv. by apply not_elem_of_dom. }
  assert (Hplat : initialPlatformRows ≤ k).
  { destruct Hcall as [->|Hk]; [|lia]. destruct Hforce; [done|lia]. }
  destruct Hgroups as (GC & GV & NC & NV & AC & AV & IC & IV).
  split; [|split].
  - unfold store_inv. rewrite HC, HV, !dom_insert_L. by rewrite Hinv.
  - intros k' c Hlook. rewrite HC in Hlook. rewrite HV.
    destruct (decide (k' = k)) as [->|Hne].
    + rewrite lookup_insert_eq in Hlook. injection Hlook as <-.
      rewrite lookup_insert_eq.
      destruct (rowOf_bounds TILE_SIZE TILE_SIZE_pos worldY) as [Hlo Hhi].
      fold k in Hlo, Hhi. split_and!; try done; try lia; simpl; lra.
    + rewrite lookup_insert_ne in Hlook by done.
      rewrite lookup_insert_ne by done. by apply Hrows.
  - unfold groups_match. split_and!.
  + intros c. rewrite HCG, HC, elem_of_app, list_elem_of_singleton, GC.
    split.
    * intros [[k' Hk']| ->].
      -- exists k'. rewrite lookup_insert_ne; [done|]. intros <-. congruence.
      -- exists k. apply lookup_insert_eq.
    * intros [k' Hk']. destruct (decide (k' = k)) as [->|Hne].
      -- rewrite lookup_insert_eq in Hk'. right. congruence.
      -- rewrite lookup_insert_ne in Hk' by done. left. by exists k'.
  + intros v. rewrite HVG, HV, elem_of_app, list_elem_of_singleton, GV.
    split.
    * intros [[k' Hk']| ->].
      -- exists k'. rewrite lookup_insert_ne; [done|]. intros <-. congruence.
      -- exists k. apply lookup_insert_eq.
    * intros [k' Hk']. destruct (decide (k' = k)) as [->|Hne].
      -- rewrite lookup_insert_eq in Hk'. right. congruence.
      -- rewrite lookup_insert_ne in Hk' by done. left. by exists k'.
  + rewrite HCG, fmap_app. apply NoDup_app. split_and!; [done| |apply NoDup_singleton].
    intros i (c & -> & Hc)%list_elem_of_fmap Hi.
    apply list_elem_of_singleton in Hi. apply AC in Hc. simpl in Hi. lia.
  + rewrite HVG, fmap_app. apply NoDup_app. split_and!; [done| |apply NoDup_singleton].
    intros i (v & -> & Hv)%list_elem_of_fmap Hi.
    apply list_elem_of_singleton in Hi. apply AV in Hv. simpl in Hi. lia.
  + intros c. rewrite HCG, Halloc, elem_of_app, list_elem_of_singleton.
    intros [Hc| ->]; [apply AC in Hc; lia | simpl; lia].
  + intros v. rewrite HVG, Halloc, elem_of_app, list_elem_of_singleton.
    intros [Hv| ->]; [apply AV in Hv; lia | simpl; lia].
  + intros k1 k2 c. rewrite HC.
    assert (Hfresh : ∀ k', rowColliders s !! k' = Some collider → False).
    { intros k' Hk'. assert (Hin : collider ∈ rowColliderGroup s)
        by (apply GC; by exists k').
      apply AC in Hin. simpl in Hin. lia. }
    destruct (decide (k1 = k)) as [->|H1], (decide (k2 = k)) as [->|H2];
      rewrite ?lookup_insert_eq, ?lookup_insert_ne by done; try done.
    * intros [= <-] Hk2. by destruct (Hfresh k2).
    * intros Hk1 [= <-]. by destruct (Hfresh k1).
    * apply IC.
  + intros k1 k2 v. rewrite HV.
    assert (Hfresh : ∀ k', rowVisuals s !! k' = Some visual → False).
    { intros k' Hk'. assert (Hin : visual ∈ rowVisualsGroup s)
        by (apply GV; by exists k').
      apply AV in Hin. simpl in Hin. lia. }
    destruct (decide (k1 = k)) as [->|H1], (decide (k2 = k)) as [->|H2];
      rewrite ?lookup_insert_eq, ?lookup_insert_ne by done; try done.
    * intros [= <-] Hk2. by destruct (Hfresh k2).
    * intros Hk1 [= <-]. by destruct (Hfresh k1).
    * apply IV.
Qed.

(** ** The invariants are kept by [clearCurrentRow] *)

Lemma NoDup_fmap_filter {A B : Type} (f : A → B) (P : A → Prop)
    `{∀ x, Decision (P x)} (l : list A) :
  NoDup (f <$> l) → NoDup (f <$> filter P l).
Proof.
  induction l as [|a l IH]; [done|].
  rewrite fmap_cons, NoDup_cons, filter_cons. intros [Hnotin Hnodup].
  destruct (decide (P a)); [|by apply IH].
  rewrite fmap_cons, NoDup_cons. split; [|by apply IH].
  intros (x & Hx & Hin)%list_elem_of_fmap.
  apply list_elem_of_filter in Hin as [_ Hin].
  apply Hnotin, list_elem_of_fmap. by exists x.
Qed.

Lemma NoDup_fmap_eq {A B : Type} (f : A → B) (l : list A) (x y : A) :
  NoDup (f <$> l) → x ∈ l → y ∈ l → f x = f y → x = y.
Proof.
  induction l as [|a l IH]; [by intros _ ?%elem_of_nil|].
  rewrite fmap_cons, NoDup_cons. intros [Hnotin Hnodup].
  rewrite !elem_of_cons. intros [->|Hx] [->|Hy] Hf; try done.
  - destruct Hnotin. apply list_elem_of_fmap. by exists y.
  - destruct Hnotin. apply list_elem_of_fmap. by exists x.
  - by apply IH.
Qed.

Lemma clearCurrentRow_groups (triggerWorldY : Q) s (collider : Collider) :
  let N := Qfloor (triggerWorldY / TILE_SIZE) + 1 in
  let after := (clearCurrentRow TILE_SIZE triggerWorldY s).2 in
  rowColliders s !! N = Some collider →
  rowColliderGroup after
  = filter (λ c, collider_id c ≠ collider_id collider) (rowColliderGroup s)
  ∧ rowVisualsGroup after
    = match rowVisuals s !! N with
      | Some visual =>
          filter (λ v, visual_id v ≠ visual_id visual) (rowVisualsGroup s)
      | None => rowVisualsGroup s
      end
  ∧ allocated after = allocated s.
Proof.
  intros N after Hc. subst after. unfold clearCurrentRow.
  fold N. rewrite Hc. unfold emit_dirt_row_cleared.
  destruct (rowVisuals s !! N) as [visual|] eqn:Hv; simpl;
    destruct (spikesGroup s) eqn:Hs; simpl;
    destruct (particleManager s) eqn:Hp; simpl; done.
Qed.

Lemma wf_clearCurrentRow (triggerWorldY : Q) s :
  manager_wf TILE_SIZE s →
  manager_wf TILE_SIZE (clearCurrentRow TILE_SIZE triggerWorldY s).2.
Proof.
  intros (Hinv & Hrows & Hgroups).
  set (N := Qfloor (triggerWorldY / TILE_SIZE) + 1).
  destruct (rowColliders s !! N) as [collider|] eqn:Hc; cycle 1.
  { by rewrite (proj2 (clearCurrentRow_none TILE_SIZE triggerWorldY s Hc)). }
  destruct (clearCurrentRow_present TILE_SIZE triggerWorldY s collider Hc)
    as (_ & HC & HV & _).
  destruct (clearCurrentRow_groups triggerWorldY s collider Hc)
    as (HCG & HVG & Halloc).
  fold N in HC, HV, HVG.
  destruct (Hrows N collider Hc) as (_ & [visual Hv] & HrowY & _).
  rewrite Hv in HVG.
  set (after := (clearCurrentRow TILE_SIZE triggerWorldY s).2) in *.
  destruct Hgroups as (GC & GV & NC & NV & AC & AV & IC & IV).
  split; [|split].
  - by apply clearCurrentRow_store_inv.
  - intros k c. rewrite HC, HV.
    destruct (decide (k = N)) as [->|Hne];
      [by rewrite lookup_delete_eq|].
    rewrite !lookup_delete_ne by done. apply Hrows.
  - unfold groups_match. split_and!.
    + intros c. rewrite HCG, HC, list_elem_of_filter, GC. split.
      * intros [Hid [k Hk]]. exists k.
        rewrite lookup_delete_ne; [done|]. intros <-. congruence.
      * intros [k Hk]. destruct (decide (k = N)) as [->|Hne];
          [by rewrite lookup_delete_eq in Hk|].
        rewrite lookup_delete_ne in Hk by done.
        split; [|by exists k]. intros Hid.
        assert (c = collider).
        { apply (NoDup_fmap_eq collider_id (rowColliderGroup s)); try done;
            apply GC; eauto. }
        subst c. by destruct Hne; apply (IC k N collider).
    + intros v. rewrite HVG, HV, list_elem_of_filter, GV. split.
      * intros [Hid [k Hk]]. exists k.
        rewrite lookup_delete_ne; [done|]. intros <-. congruence.
      * intros [k Hk]. destruct (decide (k = N)) as [->|Hne];
          [by rewrite lookup_delete_eq in Hk|].
        rewrite lookup_delete_ne in Hk by done.
        split; [|by exists k]. intros Hid.
        assert (v = visual).
        { apply (NoDup_fmap_eq visual_id (rowVisualsGroup s)); try done;
            apply GV; eauto. }
        subst v. by destruct Hne; apply (IV k N visual).
    + rewrite HCG. by apply NoDup_fmap_filter.
    + rewrite HVG. by apply NoDup_fmap_filter.
    + intros c. rewrite HCG, Halloc, list_elem_of_filter.
      intros [_ Hin]. by apply AC.
    + intros v. rewrite HVG, Halloc, list_elem_of_filter.
      intros [_ Hin]. by apply AV.
    + intros k1 k2 c. rewrite HC.
      destruct (decide (k1 = N)) as [->|H1];
        [by rewrite lookup_delete_eq|].
      destruct (decide (k2 = N)) as [->|H2];
        [by rewrite (lookup_delete_eq _ N)|].
      rewrite !lookup_delete_ne by done. apply IC.
    + intros k1 k2 v. rewrite HV.
      destruct (decide (k1 = N)) as [->|H1];
        [by rewrite lookup_delete_eq|].
      destruct (decide (k2 = N)) as [->|H2];
        [by rewrite (lookup_delete_eq _ N)|].
      rewrite !lookup_delete_ne by done. apply IV.
Qed.

(** ** The invariants are kept by the public methods *)

Lemma wf_forEachRowY (fuel : nat) (y endY : Q)
    (body : Q → TerrainManager Boulder Enemy Spike Coin
            → TerrainManager Boulder Enemy Spike Coin) s :
  (∀ y s, manager_wf TILE_SIZE s → manager_wf TILE_SIZE (body y s)) →
  manager_wf TILE_SIZE s →
  manager_wf TILE_SIZE (forEachRowY TILE_SIZE fuel y endY body s).
Proof.
  intros Hbody. revert y s.
  induction fuel as [|fuel IH]; intros y s Hwf; simpl; [done|].
  destruct (Qlt_bool y endY); [|done]. apply IH, Hbody, Hwf.
Qed.

Lemma wf_set_frontier (v : Q) s :
  manager_wf TILE_SIZE s → manager_wf TILE_SIZE (set_generatedRowsMaxY v s).
Proof. intros Hwf. exact Hwf. Qed.

Lemma wf_update (cameraBottomY : Q) s :
  manager_wf TILE_SIZE s →
  manager_wf TILE_SIZE (update TILE_SIZE random cameraBottomY s).
Proof.
  intros Hwf. unfold update. destruct (Qlt_bool _ _); [|done].
  cbv zeta. apply wf_set_frontier, wf_forEachRowY; [|done].
  intros y s' Hs'. unfold generateBelowPlatform.
  destruct (Qle_bool _ _); [|done]. apply wf_generateRow; auto.
Qed.

Lemma wf_generateInitialChunk s :
  manager_wf TILE_SIZE s →
  manager_wf TILE_SIZE (generateInitialChunk TILE_SIZE random s).
Proof.
  intros Hwf. unfold generateInitialChunk. cbv zeta.
  apply wf_set_frontier, wf_forEachRowY.
  - intros y s' Hs'. apply wf_generateRow; auto.
  - apply wf_generateRow; [done|]. right.
    by apply (rowOf_aligned TILE_SIZE TILE_SIZE_pos).
Qed.

Lemma wf_damageEntitiesInBlast (data : Explosion) s :
  manager_wf TILE_SIZE s → manager_wf TILE_SIZE (damageEntitiesInBlast data s).
Proof.
  intros Hwf. unfold damageEntitiesInBlast. simpl.
  destruct (spikesGroup s); exact Hwf.
Qed.

Lemma wf_handleCreateExplosion (data : Explosion) s :
  manager_wf TILE_SIZE s →
  manager_wf TILE_SIZE (handleCreateExplosion TILE_SIZE data s).
Proof.
  intros Hwf. unfold handleCreateExplosion.
  apply wf_damageEntitiesInBlast. unfold clearRowsInBlast.
  generalize (seqZ (- Qceiling (radius data / TILE_SIZE))
                (2 * Qceiling (radius data / TILE_SIZE) + 1)).
  intros rows. revert s Hwf.
  induction rows as [|dy rows IH]; intros s Hwf; simpl; [done|].
  apply IH. unfold clearRowInBlast.
  destruct (rowInBlast _ _ _); [by apply wf_clearCurrentRow | done].
Qed.

Lemma wf_new boulders enemies coins particles :
  manager_wf TILE_SIZE
    (new_TerrainManager (Spike := Spike) TILE_SIZE boulders enemies coins
       particles : TerrainManager Boulder Enemy Spike Coin).
Proof.
  split; [done|]. split.
  - intros k c Hk. cbn [rowColliders new_TerrainManager] in Hk.
    by rewrite lookup_empty in Hk.
  - unfold groups_match. cbn [rowColliders rowVisuals rowColliderGroup
      rowVisualsGroup allocated new_TerrainManager]. split_and!; try done; try apply NoDup_nil_2.
    + intros c. rewrite elem_of_nil. split; [done|].
      intros [k Hk]. by rewrite lookup_empty in Hk.
    + intros v. rewrite elem_of_nil. split; [done|].
      intros [k Hk]. by rewrite lookup_empty in Hk.
    + intros c Hc. by apply elem_of_nil in Hc.
    + intros v Hv. by apply elem_of_nil in Hv.
Qed.

Lemma wf_external s s' :
  externalStep s s' → manager_wf TILE_SIZE s → manager_wf TILE_SIZE s'.
Proof.
  intros (HC & HV & HCG & HVG & _ & _ & Halloc & _) (Hinv & Hrows & Hgroups).
  unfold manager_wf, store_inv, rows_wellformed, groups_match in *.
  rewrite HC, HV, HCG, HVG, Halloc. done.
Qed.

Lemma reachable_wf s : reachable TILE_SIZE random s → manager_wf TILE_SIZE s.
Proof.
  induction 1 as [b e c p|s _ IH|y s _ IH|y s _ IH|d s _ IH|s s' _ IH Hext].
  - apply wf_new.
  - by apply wf_generateInitialChunk.
  - by apply wf_update.
  - by apply wf_clearCurrentRow.
  - by apply wf_handleCreateExplosion.
  - by apply (wf_external s s').
Qed.

(** X1: in every manager reached through the public methods, a stored row
    index lies between the platform row and the map height (the clear rows
    above the platform are never solid), the row has both its collider and
    its visual, and the collider carries the row index and sits from 0.9 to
    1.9 tile heights below the row's top. *)
Theorem reachable_rows_wellformed s :
  reachable TILE_SIZE random s → rows_wellformed TILE_SIZE s.
Proof. intros Hreach. by destruct (reachable_wf s Hreach) as (_ & Hrows & _). Qed.

(** X2: in every manager reached through the public methods, the physics
    group of the rows holds exactly the colliders registered in the row store
    and the visuals group exactly the registered visuals, no object twice and
    no object under two row indices. *)
Theorem reachable_groups_match s :
  reachable TILE_SIZE random s → groups_match s.
Proof. intros Hreach. by destruct (reachable_wf s Hreach) as (_ & _ & Hgroups). Qed.

(** ** Row Clearer: repetition, notifications and the round trip *)

Lemma clearCurrentRow_rowColliders (triggerWorldY : Q) s :
  rowColliders (clearCurrentRow TILE_SIZE triggerWorldY s).2
  = delete (Qfloor (triggerWorldY / TILE_SIZE) + 1) (rowColliders s).
Proof.
  destruct (rowColliders s !! (Qfloor (triggerWorldY / TILE_SIZE) + 1))
    as [collider|] eqn:Hc.
  - by destruct (clearCurrentRow_present TILE_SIZE triggerWorldY s collider Hc)
      as (_ & HC & _).
  - rewrite (proj2 (clearCurrentRow_none TILE_SIZE triggerWorldY s Hc)).
    by rewrite delete_id.
Qed.

(** X3: clearing is idempotent: whatever the first call did, a second call
    with the same trigger returns false and changes nothing. *)
Theorem clearCurrentRow_twice (triggerWorldY : Q) s :
  let once := (clearCurrentRow TILE_SIZE triggerWorldY s).2 in
  clearCurrentRow TILE_SIZE triggerWorldY once = (false, once).
Proof.
  intros once.
  assert (Hgone : rowColliders once
                    !! (Qfloor (triggerWorldY / TILE_SIZE) + 1) = None).
  { subst once. rewrite clearCurrentRow_rowColliders. apply lookup_delete_eq. }
  destruct (clearCurrentRow_none TILE_SIZE triggerWorldY once Hgone)
    as [Hfalse Hsame].
  destruct (clearCurrentRow TILE_SIZE triggerWorldY once) as [result after].
  simpl in *. by subst.
Qed.

Lemma triggerParticles_fold {A : Type} (call : A → ParticleCall) (l : list A)
    (calls : list ParticleCall) :
  fold_left (λ calls i, triggerParticles (call i) calls) l calls
  = calls ++ map call l.
Proof.
  revert calls. induction l as [|i l IH]; intros calls; simpl.
  - by rewrite app_nil_r.
  - rewrite IH. unfold triggerParticles. by rewrite <- app_assoc.
Qed.

(** X4: [clearCurrentRow] returns true exactly when the target row
    [N = floor(triggerWorldY / TILE_SIZE) + 1] is stored.  It then emits one
    "dirt-row-cleared" event carrying [N] and, when there is a particle
    manager, one dirt burst of 3 particles per column at the vertical centre
    of row [N] followed by one spike burst of 2 particles per column at the
    vertical centre of row [N - 1], and nothing else. *)
Theorem clearCurrentRow_notifies (triggerWorldY : Q) s :
  let N := Qfloor (triggerWorldY / TILE_SIZE) + 1 in
  let result := clearCurrentRow TILE_SIZE triggerWorldY s in
  let column := λ i : Z, (inject_Z i * TILE_SIZE + TILE_SIZE / 2)%Q in
  let dirt := λ i : Z,
    mkParticleCall dirt_tile (column i)
      (inject_Z N * TILE_SIZE + TILE_SIZE / 2)%Q 3 None None in
  let spike := λ i : Z,
    mkParticleCall spikes (column i)
      (inject_Z (N - 1) * TILE_SIZE + TILE_SIZE / 2)%Q 2 (Some 70%Q)
      (Some 0.4%Q) in
  (result.1 = true ↔ is_Some (rowColliders s !! N))
  ∧ eventBus result.2 = eventBus s ++ (if result.1 then [N] else [])
  ∧ particleManager result.2
    = (λ calls,
         if result.1
         then calls ++ map dirt (seqZ 0 mapWidthTiles)
                ++ map spike (seqZ 0 mapWidthTiles)
         else calls) <$> particleManager s.
Proof.
  intros N result column dirt spike. subst result.
  destruct (rowColliders s !! N) as [collider|] eqn:Hc.
  - destruct (clearCurrentRow_present TILE_SIZE triggerWorldY s collider Hc)
      as (Htrue & _ & _ & _ & Hp & He & _).
    fold N in Hp, He. rewrite Htrue, He, Hp.
    split_and!; [done..|].
    destruct (particleManager s) as [calls|]; [|done]. simpl. f_equal.
    unfold rowParticles. cbv zeta.
    rewrite !triggerParticles_fold. by rewrite <- app_assoc.
  - destruct (clearCurrentRow_none TILE_SIZE triggerWorldY s Hc) as [-> ->].
    split_and!.
    + split; [done|]. by intros [? ?].
    + by rewrite app_nil_r.
    + by destruct (particleManager s).
Qed.

Lemma filter_fresh_id {A : Type} (id : A → nat) (n : nat) (l : list A) :
  (∀ x, x ∈ l → (id x < n)%nat) → filter (λ x, id x ≠ n) l = l.
Proof.
  induction l as [|a l IH]; intros Hlt; [done|].
  rewrite filter_cons_True.
  - f_equal. apply IH. intros x Hx. apply Hlt. by right.
  - assert (Ha : (id a < n)%nat) by (apply Hlt; by left). lia.
Qed.

(** X5: generating a row and clearing it again is a round trip on the row
    store.  On a reachable manager, when [generateRow(worldY, force)] passes
    its guards and the trigger lies in the row above the generated one, the
    clear returns true and both registries and both row groups are as before
    the row was generated. *)
Theorem generate_then_clear (worldY triggerWorldY : Q) (force : bool) s :
  reachable TILE_SIZE random s →
  generates TILE_SIZE worldY force s = true →
  rowOf TILE_SIZE triggerWorldY + 1 = rowOf TILE_SIZE worldY →
  let generated := generateRow TILE_SIZE random worldY force s in
  let cleared := clearCurrentRow TILE_SIZE triggerWorldY generated in
  cleared.1 = true
  ∧ rowColliders cleared.2 = rowColliders s
  ∧ rowVisuals cleared.2 = rowVisuals s
  ∧ rowColliderGroup cleared.2 = rowColliderGroup s
  ∧ rowVisualsGroup cleared.2 = rowVisualsGroup s.
Proof.
  intros Hreach Hg Htrigger generated cleared.
  destruct (reachable_wf s Hreach)
    as (Hinv & _ & (_ & _ & _ & _ & AC & AV & _)).
  pose proof Hg as (_ & Habsent & _)%generates_true_iff.
  destruct (generateRow_registers worldY force s Hg)
    as (HC & HV & HCG & HVG & _).
  fold generated in HC, HV, HCG, HVG.
  set (k := rowOf TILE_SIZE worldY) in *.
  assert (Habsent' : rowVisuals s !! k = None).
  { apply not_elem_of_dom. rewrite <- Hinv. by apply not_elem_of_dom. }
  unfold rowOf in Htrigger.
  set (collider := mkCollider _ _ _ _ _ _) in *.
  set (visual := mkVisual _ _ _ _ _) in *.
  assert (Hc : rowColliders generated
                 !! (Qfloor (triggerWorldY / TILE_SIZE) + 1) = Some collider).
  { rewrite Htrigger, HC. apply lookup_insert_eq. }
  destruct (clearCurrentRow_present TILE_SIZE triggerWorldY generated collider
              Hc) as (Htrue & HC' & HV' & _).
  destruct (clearCurrentRow_groups triggerWorldY generated collider Hc)
    as (HCG' & HVG' & _).
  rewrite Htrigger in HC', HV', HVG'. fold cleared in Htrue, HC', HV', HCG', HVG'.
  rewrite HV, lookup_insert_eq in HVG'.
  split_and!.
  - done.
  - rewrite HC', HC. by apply delete_insert_id.
  - rewrite HV', HV. by apply delete_insert_id.
  - rewrite HCG', HCG, filter_app, (filter_fresh_id collider_id) by done.
    rewrite filter_cons_False, filter_nil, app_nil_r; [done|].
    intros Hne. by apply Hne.
  - rewrite HVG', HVG, filter_app.
    rewrite (filter_fresh_id visual_id (S (allocated s))).
    + rewrite filter_cons_False, filter_nil, app_nil_r; [done|].
      intros Hne. by apply Hne.
    + intros v Hv. apply AV in Hv. lia.
Qed.

(** ** Which rows the generator stores *)

Lemma generateRow_stored_iff (worldY : Q) (force : bool) s (k : Z) :
  is_Some (rowColliders (generateRow TILE_SIZE random worldY force s) !! k)
  ↔ is_Some (rowColliders s !! k)
    ∨ (k = rowOf TILE_SIZE worldY ∧ 0 ≤ k < mapHeightTiles
       ∧ (force = true ∨ initialPlatformRows < k)).
Proof.
  destruct (generates TILE_SIZE worldY force s) eqn:Hg.
  - pose proof Hg as (Hbounds & Habsent & Hforce)%generates_true_iff.
    destruct (generateRow_registers worldY force s Hg) as (-> & _).
    destruct (decide (k = rowOf TILE_SIZE worldY)) as [->|Hne].
    + rewrite lookup_insert_eq. split; [|by eexists]. intros _. by right.
    + rewrite lookup_insert_ne by done. split; [by left|].
      by intros [?|[? _]].
  - rewrite generateRow_skips by done. split; [by left|].
    intros [?|(-> & Hbounds & Hforce)]; [done|].
    destruct (rowColliders s !! rowOf TILE_SIZE worldY) eqn:Hlook;
      [by eexists|].
    assert (generates TILE_SIZE worldY force s = true)
      by by apply generates_true_iff.
    congruence.
Qed.

Lemma generateRows_stored_iff (calls : list Q) s (k : Z) :
  is_Some
    (rowColliders
       (fold_left (λ s y, generateRow TILE_SIZE random y false s) calls s)
       !! k)
  ↔ is_Some (rowColliders s !! k)
    ∨ (k ∈ map (rowOf TILE_SIZE) calls ∧ 0 ≤ k < mapHeightTiles
       ∧ initialPlatformRows < k).
Proof.
  revert s. induction calls as [|y calls IH]; intros s; simpl.
  - split; [by left|]. intros [?|[Hin _]]; [done|]. by apply elem_of_nil in Hin.
  - rewrite IH, generateRow_stored_iff, elem_of_cons.
    intuition (subst; auto; try discriminate).
Qed.

Lemma loopYs_elem (fuel : nat) (y endY y' : Q) :
  y' ∈ loopYs TILE_SIZE fuel y endY → (y <= y')%Q ∧ (y' < endY)%Q.
Proof.
  revert y. induction fuel as [|fuel IH]; intros y; simpl.
  - by intros ?%elem_of_nil.
  - destruct (Qlt_bool y endY) eqn:Hlt; [|by intros ?%elem_of_nil].
    apply Qlt_bool_iff in Hlt.
    intros [->|Hin]%elem_of_cons; [split; [lra|done]|].
    apply IH in Hin. split; [lra|tauto].
Qed.

Lemma generatorCalls_elem (cameras : list Q) (frontier y : Q) :
  y ∈ generatorCalls TILE_SIZE frontier cameras →
  (frontier <= y)%Q ∧ (y < frontierAfterAll TILE_SIZE frontier cameras)%Q.
Proof.
  revert frontier. induction cameras as [|c cameras IH]; intros frontier.
  { by intros ?%elem_of_nil. }
  change (frontierAfterAll TILE_SIZE frontier (c :: cameras))
    with (frontierAfterAll TILE_SIZE (frontierAfter TILE_SIZE frontier c)
            cameras).
  pose proof (frontierAfter_le TILE_SIZE frontier c) as Hstep.
  pose proof (frontierAfterAll_le TILE_SIZE
                (frontierAfter TILE_SIZE frontier c) cameras) as Hrest.
  simpl generatorCalls. intros [Hin|Hin]%elem_of_app.
  - unfold updateCalls, frontierAfter in *.
    destruct (Qlt_bool frontier (c + TILE_SIZE * 10)); [|by apply elem_of_nil in Hin].
    apply list_elem_of_filter in Hin as [_ Hin].
    apply loopYs_elem in Hin. split; [tauto|]. lra.
  - apply IH in Hin. split; [lra|tauto].
Qed.

(** X6: [generateInitialChunk] stores the platform row and the twenty rows
    below it, on top of whatever was stored, and nothing else; it sets the
    frontier to the top of the row after them, whatever the frontier was. *)
Theorem generateInitialChunk_rows s (k : Z) :
  let chunk := generateInitialChunk TILE_SIZE random s in
  (is_Some (rowColliders chunk !! k)
   ↔ is_Some (rowColliders s !! k)
     ∨ initialPlatformRows ≤ k ≤ initialPlatformRows + 20)
  ∧ (generatedRowsMaxY chunk
     == inject_Z (initialPlatformRows + 21) * TILE_SIZE)%Q.
Proof.
  intros chunk. subst chunk. unfold generateInitialChunk. cbv zeta.
  set (startY := (inject_Z (initialPlatformRows + 1) * TILE_SIZE)%Q).
  set (endY := (startY + inject_Z 20 * TILE_SIZE)%Q).
  assert (Hend : (endY == inject_Z (initialPlatformRows + 21) * TILE_SIZE)%Q).
  { subst endY startY. rewrite <- Qmult_plus_distr_l, <- inject_Z_plus.
    reflexivity. }
  split; [|exact Hend].
  change (rowColliders (set_generatedRowsMaxY endY ?t)) with (rowColliders t).
  rewrite forEachRowY_loopYs.
  rewrite (generateRows_stored_iff
             (loopYs TILE_SIZE (rowSteps TILE_SIZE startY endY) startY endY)).
  rewrite generateRow_stored_iff.
  assert (Hlt : (startY < endY)%Q).
  { subst endY. change (inject_Z 20) with 20%Q. lra. }
  assert (Hstart : rowOf TILE_SIZE startY = initialPlatformRows + 1)
    by by apply (rowOf_aligned TILE_SIZE TILE_SIZE_pos).
  assert (Hsteps : Z.of_nat (rowSteps TILE_SIZE startY endY) = 20).
  { rewrite (rowSteps_aligned TILE_SIZE TILE_SIZE_pos startY endY);
      [|by eexists|by eexists|done].
    rewrite (rowOf_aligned TILE_SIZE TILE_SIZE_pos _ _ Hend), Hstart. lia. }
  rewrite (loopYs_rows TILE_SIZE TILE_SIZE_pos)
    by (right; by apply rowSteps_last).
  rewrite Hstart, Hsteps, elem_of_seqZ.
  rewrite (rowOf_aligned TILE_SIZE TILE_SIZE_pos initialPlatformRows) by done.
  unfold initialPlatformRows, mapHeightTiles. intuition lia.
Qed.

(** X7: a sequence of [update] calls never removes a row and never stores a
    row at or above the platform or at or past the map height.  A row it
    adds starts at or after the row of the initial frontier and has its top
    above the final frontier; and every row below the platform and inside
    the map that starts at or after the row of the initial frontier and ends
    at or before the final frontier is stored afterwards. *)
Theorem updates_rows (cameras : list Q) s (k : Z) :
  let frontier := generatedRowsMaxY s in
  let s' := updates TILE_SIZE random cameras s in
  (is_Some (rowColliders s !! k) → is_Some (rowColliders s' !! k))
  ∧ (is_Some (rowColliders s' !! k) →
     is_Some (rowColliders s !! k)
     ∨ (initialPlatformRows < k < mapHeightTiles
        ∧ rowOf TILE_SIZE frontier ≤ k
        ∧ (inject_Z k * TILE_SIZE < generatedRowsMaxY s')%Q))
  ∧ (initialPlatformRows < k < mapHeightTiles →
     rowOf TILE_SIZE frontier ≤ k →
     (inject_Z (k + 1) * TILE_SIZE <= generatedRowsMaxY s')%Q →
     is_Some (rowColliders s' !! k)).
Proof.
  intros frontier s'. subst s'.
  rewrite (updates_frontier TILE_SIZE random), (updates_as_calls TILE_SIZE random).
  fold frontier.
  change (rowColliders (set_generatedRowsMaxY ?v ?t)) with (rowColliders t).
  rewrite generateRows_stored_iff. split_and!.
  - by left.
  - intros [?|(Hin & Hbounds & Hplat)]; [by left|]. right.
    apply list_elem_of_In, in_map_iff in Hin as (y & <- & Hy).
    apply list_elem_of_In, generatorCalls_elem in Hy as [Hlo Hhi].
    split_and!; try lia.
    + by apply (rowOf_mono TILE_SIZE TILE_SIZE_pos).
    + destruct (rowOf_bounds TILE_SIZE TILE_SIZE_pos y) as [Hrow _]. lra.
  - intros Hbounds Hfrom Hto. right. split_and!.
    + apply (generatorCalls_cover TILE_SIZE TILE_SIZE_pos); [lia|done..].
    + unfold initialPlatformRows in Hbounds. lia.
    + lia.
    + lia.
Qed.

Lemma frontierAfter_ge_threshold (frontier cameraBottomY : Q) :
  (cameraBottomY + TILE_SIZE * 10
   <= frontierAfter TILE_SIZE frontier cameraBottomY)%Q.
Proof.
  unfold frontierAfter. destruct (Qlt_bool _ _) eqn:Hlt; [lra|].
  by apply Qlt_bool_false_iff in Hlt.
Qed.

(** X8: after [update(cameraBottomY)] the frontier covers the generation
    threshold, so a following [update] with the same or a higher camera
    (a smaller or equal [cameraBottomY]) changes nothing; in particular
    [update] is idempotent. *)
Theorem update_absorbs (cameraBottomY cameraBottomY' : Q) s :
  (cameraBottomY' <= cameraBottomY)%Q →
  let s' := update TILE_SIZE random cameraBottomY s in
  (cameraBottomY + TILE_SIZE * 10 <= generatedRowsMaxY s')%Q
  ∧ update TILE_SIZE random cameraBottomY' s' = s'.
Proof.
  intros Hle s'.
  assert (Hcover : (cameraBottomY + TILE_SIZE * 10 <= generatedRowsMaxY s')%Q).
  { subst s'. rewrite update_frontier. apply frontierAfter_ge_threshold. }
  split; [done|]. apply update_covered. lra.
Qed.

(** X9: for a positive tile size the loop
    [for (y = startY; y < endY; y += TILE_SIZE)] of [update] and
    [generateInitialChunk] makes exactly [ceil((endY - startY) / TILE_SIZE)]
    iterations (none when [endY <= startY]), every visited [y] lies in
    [startY, endY), and running it with more fuel gives the same state: the
    loop ends because [y] reached [endY]. *)
Theorem row_loop_iterations (startY endY : Q) (fuel : nat)
    (body : Q → TerrainManager Boulder Enemy Spike Coin
            → TerrainManager Boulder Enemy Spike Coin) s :
  let steps := rowSteps TILE_SIZE startY endY in
  Z.of_nat steps = Z.max 0 (Qceiling ((endY - startY) / TILE_SIZE))
  ∧ length (loopYs TILE_SIZE steps startY endY) = steps
  ∧ (∀ y, y ∈ loopYs TILE_SIZE steps startY endY →
          (startY <= y)%Q ∧ (y < endY)%Q)
  ∧ ((steps ≤ fuel)%nat →
     forEachRowY TILE_SIZE fuel startY endY body s
     = forEachRowY TILE_SIZE steps startY endY body s).
Proof.
  intros steps. split_and!.
  - subst steps. unfold rowSteps. lia.
  - assert (Hrows : map (rowOf TILE_SIZE)
                      (loopYs TILE_SIZE steps startY endY)
                    = seqZ (rowOf TILE_SIZE startY) (Z.of_nat steps)).
    { apply (loopYs_rows TILE_SIZE TILE_SIZE_pos).
      destruct (Qlt_le_dec startY endY) as [Hlt|Hge].
      - right. by apply rowSteps_last.
      - left. subst steps. unfold rowSteps.
        assert (Hq : ((endY - startY) / TILE_SIZE <= 0)%Q).
        { apply Qle_shift_div_r; lra. }
        apply Qceiling_resp_le in Hq. change (Qceiling 0) with 0 in Hq. lia. }
    apply (f_equal length) in Hrows.
    rewrite length_map, length_seqZ in Hrows. lia.
  - intros y. apply loopYs_elem.
  - by apply forEachRowY_enough_fuel.
Qed.

(** ** Explosion Resolver: inside the world, far from it, and the events *)

Lemma square_le_bounds (d r : Q) :
  (0 <= r)%Q → (d * d <= r * r)%Q → (- r <= d)%Q ∧ (d <= r)%Q.
Proof. intros Hr Hsq. split; nra. Qed.

Lemma inside_world_square (x w : Q) :
  (0 <= x)%Q → (x <= w)%Q → ((x - w / 2) * (x - w / 2) <= w / 2 * (w / 2))%Q.
Proof.
  intros Hlo Hhi.
  assert (Hhalf : (w / 2 == w * (1 # 2))%Q) by field.
  rewrite Hhalf. nra.
Qed.

(** The candidate band never cuts off a row that passes the vertical test. *)
Lemma vertical_test_in_band (data : Explosion) (k : Z) :
  (0 <= radius data)%Q →
  let yDist := rowYDist TILE_SIZE data k in
  (yDist * yDist <= radius data * radius data)%Q →
  Qfloor (worldY data / TILE_SIZE) - Qceiling (radius data / TILE_SIZE) ≤ k
  ≤ Qfloor (worldY data / TILE_SIZE) + Qceiling (radius data / TILE_SIZE).
Proof.
  intros Hr yDist Hv.
  destruct (square_le_bounds yDist (radius data) Hr Hv) as [Hlo Hhi].
  subst yDist. unfold rowYDist in *.
  destruct (rowOf_bounds TILE_SIZE TILE_SIZE_pos (worldY data)) as [Hclo Hchi].
  unfold rowOf in Hclo, Hchi.
  set (c := Qfloor (worldY data / TILE_SIZE)) in *.
  pose proof (Qle_ceiling (radius data / TILE_SIZE)) as Hceil.
  set (tr := Qceiling (radius data / TILE_SIZE)) in *.
  assert (Hdiv : (radius data / TILE_SIZE * TILE_SIZE == radius data)%Q)
    by (field; lra).
  assert (Hrad : (radius data <= inject_Z tr * TILE_SIZE)%Q).
  { rewrite <- Hdiv. apply Qmult_le_compat_r; lra. }
  rewrite inject_Z_plus in Hchi. change (inject_Z 1) with 1%Q in Hchi.
  split.
  - destruct (Z_le_gt_dec (c - tr) k) as [?|Hgt]; [done|]. exfalso.
    assert (Hz : (inject_Z (k + 1) <= inject_Z (c - tr))%Q)
      by (rewrite <- Zle_Qle; lia).
    unfold Z.sub in Hz.
    rewrite !inject_Z_plus, inject_Z_opp in Hz.
    change (inject_Z 1) with 1%Q in Hz.
    assert (Hprod : ((inject_Z k + 1) * TILE_SIZE
                     <= (inject_Z c + - inject_Z tr) * TILE_SIZE)%Q)
      by (apply Qmult_le_compat_r; lra).
    assert (Hhalf : (TILE_SIZE / 2 == TILE_SIZE * (1 # 2))%Q) by (field; lra).
    rewrite Hhalf in Hhi. nra.
  - destruct (Z_le_gt_dec k (c + tr)) as [?|Hgt]; [done|]. exfalso.
    assert (Hz : (inject_Z (c + tr + 1) <= inject_Z k)%Q)
      by (rewrite <- Zle_Qle; lia).
    rewrite !inject_Z_plus in Hz. change (inject_Z 1) with 1%Q in Hz.
    assert (Hprod : ((inject_Z c + inject_Z tr + 1) * TILE_SIZE
                     <= inject_Z k * TILE_SIZE)%Q)
      by (apply Qmult_le_compat_r; lra).
    assert (Hhalf : (TILE_SIZE / 2 == TILE_SIZE * (1 # 2))%Q) by (field; lra).
    rewrite Hhalf in Hlo. nra.
Qed.

(** X10: an explosion of radius [R >= 0] whose centre lies horizontally
    inside the world clears exactly the rows whose vertical centre is within
    [R] of the centre of the explosion: the horizontal test and the candidate
    band never reject such a row, and every other row is left as it was. *)
Theorem explosion_inside_world (data : Explosion) s (k : Z) :
  store_inv s →
  (0 <= radius data)%Q →
  (0 <= worldX data)%Q → (worldX data <= mapWidthPixels TILE_SIZE)%Q →
  let yDist := (worldY data - (inject_Z k * TILE_SIZE + TILE_SIZE / 2))%Q in
  let s' := handleCreateExplosion TILE_SIZE data s in
  ((yDist * yDist <= radius data * radius data)%Q →
   rowColliders s' !! k = None ∧ rowVisuals s' !! k = None)
  ∧ ((radius data * radius data < yDist * yDist)%Q →
     rowColliders s' !! k = rowColliders s !! k
     ∧ rowVisuals s' !! k = rowVisuals s !! k).
Proof.
  intros Hinv Hr Hx0 Hx1 yDist s'.
  destruct (handleCreateExplosion_rows TILE_SIZE TILE_SIZE_pos data s k Hinv)
    as [Hkept Hother].
  fold s' in Hkept, Hother.
  pose proof (rowInBlast_iff TILE_SIZE data k) as Hiff.
  cbv zeta in Hiff. unfold rowYDist in Hiff. fold yDist in Hiff.
  split.
  - intros Hv. apply Hkept. split.
    + by apply vertical_test_in_band.
    + apply Hiff. split; [done|].
      pose proof (inside_world_square (worldX data)
                    (mapWidthPixels TILE_SIZE) Hx0 Hx1) as Hh.
      rewrite (Qplus_comm (radius data * radius data)).
      apply Qplus_le_compat; [exact Hh | exact Hv].
  - intros Hv. apply Hother. intros [_ Hb]. apply Hiff in Hb as [Hb _]. lra.
Qed.

(** X11: an explosion whose centre is horizontally so far from the middle
    of the world that [xDist² > radius² + (mapWidth / 2)²] clears no row,
    at whatever height: the handler reduces to its damage pass. *)
Theorem explosion_far_away (data : Explosion) s :
  let xDist := (worldX data - mapWidthPixels TILE_SIZE / 2)%Q in
  (radius data * radius data
   + (mapWidthPixels TILE_SIZE / 2) * (mapWidthPixels TILE_SIZE / 2)
   < xDist * xDist)%Q →
  handleCreateExplosion TILE_SIZE data s = damageEntitiesInBlast data s.
Proof.
  intros xDist Hfar. unfold handleCreateExplosion. f_equal.
  assert (Hno : ∀ k, rowInBlast TILE_SIZE data k = false).
  { intros k. destruct (rowInBlast TILE_SIZE data k) eqn:Hb; [|done].
    apply rowInBlast_iff in Hb as [_ Hb]. fold xDist in Hb.
    set (yDist := rowYDist TILE_SIZE data k) in *. nra. }
  unfold clearRowsInBlast.
  generalize (seqZ (- Qceiling (radius data / TILE_SIZE))
                (2 * Qceiling (radius data / TILE_SIZE) + 1)).
  intros rows. induction rows as [|dy rows IH]; simpl; [done|].
  unfold clearRowInBlast at 2. by rewrite Hno.
Qed.

Lemma filter_ext_in {A : Type} (P1 P2 : A → Prop)
    `{!∀ x, Decision (P1 x), !∀ x, Decision (P2 x)} (l : list A) :
  (∀ x, x ∈ l → P1 x ↔ P2 x) → filter P1 l = filter P2 l.
Proof.
  induction l as [|a l IH]; intros Hiff; [done|].
  assert (Hl : filter P1 l = filter P2 l).
  { apply IH. intros x Hx. apply Hiff. by right. }
  destruct (decide (P1 a)) as [Ha|Ha].
  - rewrite !filter_cons_True; [by rewrite Hl|..]; try done.
    apply Hiff; [by left|done].
  - rewrite !filter_cons_False; [done|..]; try done.
    intros Ha'. apply Ha, Hiff; [by left|done].
Qed.

Lemma clearRowInBlast_events (data : Explosion) (centerTileY dy : Z) s :
  let k := centerTileY + dy in
  let s' := clearRowInBlast TILE_SIZE data centerTileY s dy in
  let cleared :=
    rowInBlast TILE_SIZE data k = true ∧ is_Some (rowColliders s !! k) in
  eventBus s' = eventBus s ++ (if decide cleared then [k] else [])
  ∧ ∀ k', k' ≠ k → rowColliders s' !! k' = rowColliders s !! k'.
Proof.
  intros k s' cleared. subst s' cleared. unfold clearRowInBlast.
  change (centerTileY + dy) with k.
  destruct (rowInBlast TILE_SIZE data k) eqn:Hb; cycle 1.
  { rewrite decide_False by (by intros [? _]). by rewrite app_nil_r. }
  pose proof (blast_trigger_target TILE_SIZE TILE_SIZE_pos k) as Htarget.
  split.
  - destruct (rowColliders s !! k) as [collider|] eqn:Hc.
    + rewrite <- Htarget in Hc.
      destruct (clearCurrentRow_present TILE_SIZE _ s collider Hc)
        as (_ & _ & _ & _ & _ & He & _).
      rewrite He, Htarget. rewrite decide_True; [done|].
      split; [done|]. by eexists.
    + rewrite decide_False by (intros [_ [? ?]]; congruence).
      rewrite <- Htarget in Hc.
      rewrite (proj2 (clearCurrentRow_none TILE_SIZE _ s Hc)).
      by rewrite app_nil_r.
  - intros k' Hne.
    rewrite clearCurrentRow_rowColliders, Htarget.
    by rewrite lookup_delete_ne.
Qed.

Lemma clearRowsInBlast_events (data : Explosion) (centerTileY : Z)
    (dys : list Z) s :
  NoDup dys →
  eventBus (fold_left (clearRowInBlast TILE_SIZE data centerTileY) dys s)
  = eventBus s
    ++ filter
         (λ k, rowInBlast TILE_SIZE data k = true
               ∧ is_Some (rowColliders s !! k))
         (Z.add centerTileY <$> dys).
Proof.
  revert s. induction dys as [|dy dys IH]; intros s Hnodup; simpl.
  { by rewrite app_nil_r. }
  apply NoDup_cons in Hnodup as [Hnotin Hnodup].
  destruct (clearRowInBlast_events data centerTileY dy s) as [He Hother].
  rewrite IH, He by done. rewrite <- app_assoc. f_equal.
  rewrite filter_cons. change (list_fmap Z Z (Z.add centerTileY) dys)
    with (Z.add centerTileY <$> dys).
  assert (Hrest :
    filter (λ k, rowInBlast TILE_SIZE data k = true
                 ∧ is_Some (rowColliders
                     (clearRowInBlast TILE_SIZE data centerTileY s dy) !! k))
      (Z.add centerTileY <$> dys)
    = filter (λ k, rowInBlast TILE_SIZE data k = true
                   ∧ is_Some (rowColliders s !! k))
        (Z.add centerTileY <$> dys)).
  { apply filter_ext_in. intros k' (dy' & -> & Hin)%list_elem_of_fmap.
    rewrite Hother; [done|]. intros Heq.
    assert (dy' = dy) by lia. by subst. }
  rewrite Hrest. by destruct (decide _).
Qed.

(** X12: an explosion emits one "dirt-row-cleared" event for every stored
    row that passes its two tests, from the top row of the candidate band to
    the bottom row, and no other event. *)
Theorem explosion_events (data : Explosion) s :
  let centerTileY := Qfloor (worldY data / TILE_SIZE) in
  let tileRadius := Qceiling (radius data / TILE_SIZE) in
  eventBus (handleCreateExplosion TILE_SIZE data s)
  = eventBus s
    ++ filter
         (λ k, rowInBlast TILE_SIZE data k = true
               ∧ is_Some (rowColliders s !! k))
         (seqZ (centerTileY - tileRadius) (2 * tileRadius + 1)).
Proof.
  intros centerTileY tileRadius.
  assert (Hpass : ∀ s0, eventBus (damageEntitiesInBlast data s0) = eventBus s0).
  { intros s0. unfold damageEntitiesInBlast. simpl.
    by destruct (spikesGroup s0). }
  unfold handleCreateExplosion. rewrite Hpass. unfold clearRowsInBlast.
  fold centerTileY tileRadius.
  rewrite clearRowsInBlast_events by apply NoDup_seqZ.
  rewrite fmap_add_seqZ. do 3 f_equal.
Qed.

End ReachableManagers.

(** * What a generated row holds, and where the player starts *)

Section GeneratedContent.

Context {Boulder Enemy Spike Coin : Type}.
Context `{!GameObject Boulder, !Damageable Boulder}.
Context `{!GameObject Enemy, !Damageable Enemy, !Mobile Enemy}.
Context `{!GameObject Spike, !Damageable Spike}.
Context `{!GameObject Coin}.

Variable TILE_SIZE : Q.
Variable random : nat → Q.
Hypothesis TILE_SIZE_pos : (0 < TILE_SIZE)%Q.

Implicit Types s : TerrainManager Boulder Enemy Spike Coin.

#[local] Arguments Qfloor : simpl never.
#[local] Arguments Qceiling : simpl never.
#[local] Arguments Qdiv : simpl never.
#[local] Arguments Qmult : simpl never.
#[local] Arguments Qplus : simpl never.
#[local] Arguments Qminus : simpl never.
#[local] Arguments Qle_bool : simpl never.
#[local] Arguments Qlt_bool : simpl never.
#[local] Arguments inject_Z : simpl never.
#[local] Arguments Z.add : simpl never.
#[local] Arguments Z.sub : simpl never.
#[local] Arguments Z.mul : simpl never.

(** ** What a generated row receives *)

Lemma spawnCell_cases (r : RowSpawn) s (tileX : Z) :
  ∃ (o : Spawned) (n : nat),
    spawnCell TILE_SIZE random r s tileX
    = set_randomCalls (randomCalls s + n)%nat (place TILE_SIZE o r tileX s)
    ∧ (n ≤ 4)%nat
    ∧ (o ≠ spawnedNothing → (1 ≤ n)%nat).
Proof.
  unfold spawnCell.
  destruct (spaceOccupiedAt _ _ _ s).
  { exists spawnedNothing, 0%nat. rewrite Nat.add_0_r.
    split; [by destruct s|]. split; [lia|done]. }
  unfold spawnHazard, Math_random. simpl.
  destruct (Qlt_bool (random (randomCalls s)) _); simpl.
  { exists spawnedBoulder, 1%nat. rewrite Nat.add_1_r. split; [done|]. split; lia. }
  destruct (Qlt_bool (random (S (randomCalls s))) _); simpl.
  { exists spawnedEnemy, 2%nat.
    replace (randomCalls s + 2)%nat with (S (S (randomCalls s))) by lia.
    split; [done|]. split; lia. }
  assert (Hcoin : ∃ (o : Spawned) (n : nat),
    (let '(roll, s0) :=
       (random (S (S (S (randomCalls s)))),
        set_randomCalls (S (S (S (S (randomCalls s)))))
          (set_randomCalls (S (S (S (randomCalls s))))
             (set_randomCalls (S (S (randomCalls s)))
                (set_randomCalls (S (randomCalls s)) s)))) in
     if Qlt_bool roll (currentCoinChance r)
     then Coin_spawn (inject_Z tileX * TILE_SIZE + TILE_SIZE / 2)
            (spawnSurfaceY r - TILE_SIZE / 2) s0
     else s0)
    = set_randomCalls (randomCalls s + n)%nat (place TILE_SIZE o r tileX s)
    ∧ (n ≤ 4)%nat ∧ (o ≠ spawnedNothing → (1 ≤ n)%nat)).
  { replace (S (S (S (S (randomCalls s))))) with (randomCalls s + 4)%nat by lia.
    destruct (Qlt_bool (random (S (S (S (randomCalls s))))) _).
    - exists spawnedCoin, 4%nat. split; [|split; lia].
      unfold place, Coin_spawn. simpl. by destruct (coinsGroup s).
    - exists spawnedNothing, 4%nat. split; [done|]. split; lia. }
  destruct (Qlt_bool (random (S (S (randomCalls s)))) _); simpl.
  - destruct (spikesGroup s) as [group|] eqn:Hgroup; simpl.
    + exists spawnedSpike, 3%nat.
      replace (randomCalls s + 3)%nat with (S (S (S (randomCalls s)))) by lia.
      split; [|split; lia]. unfold place. by rewrite Hgroup.
    + exact Hcoin.
  - exact Hcoin.
Qed.

Lemma spawnedAt_cons (outcome : Z → Spawned) (o o' : Spawned) (a : Z)
    (l : list Z) :
  a ∉ l →
  spawnedAt (λ i, if decide (i = a) then o else outcome i) o' (a :: l)
  = (if decide (o = o') then [a] else []) ++ spawnedAt outcome o' l.
Proof.
  intros Hnotin. unfold spawnedAt. rewrite filter_cons.
  assert (Hrest :
    filter (λ tileX, (if decide (tileX = a) then o else outcome tileX) = o') l
    = filter (λ tileX, outcome tileX = o') l).
  { apply filter_ext_in. intros x Hx.
    destruct (decide (x = a)) as [->|]; [done|]. done. }
  rewrite Hrest. destruct (decide (a = a)); [|done].
  by destruct (decide (o = o')).
Qed.

Lemma spawnCells_outcomes (r : RowSpawn) (columns : list Z) s :
  NoDup columns →
  ∃ outcome : Z → Spawned,
    let s' := fold_left (spawnCell TILE_SIZE random r) columns s in
    let above := (spawnSurfaceY r - TILE_SIZE / 2)%Q in
    let at_ := λ o, spawnedAt outcome o columns in
    bouldersGroup s'
    = bouldersGroup s
      ++ map (λ tileX, go_new (columnCentre TILE_SIZE tileX) above)
           (at_ spawnedBoulder)
    ∧ enemiesGroup s'
      = enemiesGroup s
        ++ map (λ tileX,
                  setSpeed (currentEnemySpeed r)
                    (go_new (columnCentre TILE_SIZE tileX) above))
             (at_ spawnedEnemy)
    ∧ spikesGroup s'
      = (λ group,
           group
           ++ map (λ tileX,
                     go_new (columnCentre TILE_SIZE tileX - TILE_SIZE / 2)%Q
                       (spikeSpawnY r + 10)%Q)
                (at_ spawnedSpike))
        <$> spikesGroup s
    ∧ coinsGroup s'
      = (λ group,
           group
           ++ map (λ tileX, go_new (columnCentre TILE_SIZE tileX) above)
                (at_ spawnedCoin))
        <$> coinsGroup s
    ∧ (randomCalls s ≤ randomCalls s'
       ≤ randomCalls s + 4 * length columns)%nat.
Proof.
  revert s. induction columns as [|a l IH]; intros s Hnd.
  { exists (λ _, spawnedNothing). simpl. rewrite !app_nil_r.
    split_and!; try done; try lia.
    - destruct (spikesGroup s); simpl; [by rewrite app_nil_r|done].
    - destruct (coinsGroup s); simpl; [by rewrite app_nil_r|done]. }
  apply NoDup_cons in Hnd as [Hnotin Hnd].
  destruct (spawnCell_cases r s a) as (o & n & Hcell & Hn & _).
  destruct (IH (spawnCell TILE_SIZE random r s a) Hnd)
    as (outcome' & HB & HE & HS & HC & HR).
  exists (λ i, if decide (i = a) then o else outcome' i).
  cbv beta zeta in *. rewrite !spawnedAt_cons by done.
  change (fold_left (spawnCell TILE_SIZE random r) (a :: l) s)
    with (fold_left (spawnCell TILE_SIZE random r) l
            (spawnCell TILE_SIZE random r s a)).
  assert (HR1 : randomCalls (spawnCell TILE_SIZE random r s a)
                = (randomCalls s + n)%nat) by (by rewrite Hcell).
  assert (HR2 : (randomCalls s
                 ≤ randomCalls
                     (fold_left (spawnCell TILE_SIZE random r) l
                        (spawnCell TILE_SIZE random r s a))
                 ≤ randomCalls s + 4 * length (a :: l))%nat).
  { simpl length. lia. }
  split_and!; try lia; clear HR HR1 HR2;
    rewrite ?HB, ?HE, ?HS, ?HC, Hcell; clear HB HE HS HC Hcell;
    unfold place, Coin_spawn, columnCentre;
    destruct o; simpl;
    repeat (rewrite decide_True by done);
    repeat (rewrite decide_False by done); simpl;
    rewrite <- ?app_assoc; try done;
    try (destruct (spikesGroup s) as [group|] eqn:Hg; simpl; rewrite ?Hg;
         simpl; by rewrite <- ?app_assoc);
    try (destruct (coinsGroup s) as [group|] eqn:Hg; simpl; rewrite ?Hg;
         simpl; by rewrite <- ?app_assoc).
Qed.

Lemma spawnedAt_nothing (o : Spawned) (columns : list Z) :
  o ≠ spawnedNothing → spawnedAt (λ _, spawnedNothing) o columns = [].
Proof.
  intros Ho. unfold spawnedAt.
  induction columns as [|a l IH]; [done|].
  rewrite filter_cons_False; [done|]. by intros <-.
Qed.

Lemma enemySpeed_bounds (worldY : Q) (tileY : Z) :
  initialPlatformRows < tileY →
  (30 <= currentEnemySpeed (rowSpawn TILE_SIZE worldY tileY))%Q
  ∧ (currentEnemySpeed (rowSpawn TILE_SIZE worldY tileY) <= 100)%Q.
Proof.
  intros Hbelow. unfold rowSpawn, currentEnemySpeed.
  unfold baseEnemySpeed, enemySpeedDepthScale, initialPlatformRows in *.
  split; [|apply Q.le_min_l].
  apply Q.min_glb; [done|].
  assert (Hd : (0 <= inject_Z (tileY - (5 + 1)))%Q).
  { rewrite <- (Zle_Qle 0). lia. }
  nra.
Qed.

(** The three ways a call of [generateRow] can go. *)
Lemma generateRow_cases (worldY : Q) (force : bool) s :
  let tileY := rowOf TILE_SIZE worldY in
  let stored :=
    addRowVisual TILE_SIZE worldY tileY
      (addRowCollider TILE_SIZE worldY tileY s) in
  (generates TILE_SIZE worldY force s = false
   ∧ generateRow TILE_SIZE random worldY force s = s)
  ∨ (generates TILE_SIZE worldY force s = true
     ∧ tileY ≤ initialPlatformRows
     ∧ generateRow TILE_SIZE random worldY force s = stored)
  ∨ (generates TILE_SIZE worldY force s = true
     ∧ initialPlatformRows < tileY
     ∧ generateRow TILE_SIZE random worldY force s
       = fold_left (spawnCell TILE_SIZE random (rowSpawn TILE_SIZE worldY tileY))
           (seqZ 0 mapWidthTiles) stored).
Proof.
  intros tileY stored. subst stored tileY.
  destruct (generates TILE_SIZE worldY force s) eqn:Hg; cycle 1.
  { left. split; [done|]. by apply generateRow_skips. }
  right. unfold generates in Hg. unfold generateRow.
  fold (rowOf TILE_SIZE worldY) in *.
  destruct (_ || _ || _); [discriminate|].
  destruct (negb force && _); [discriminate|].
  destruct (rowOf TILE_SIZE worldY <=? initialPlatformRows) eqn:Hrow.
  - left. apply Z.leb_le in Hrow. done.
  - right. apply Z.leb_gt in Hrow. done.
Qed.

(** X13: what a call of [generateRow] adds to the entity groups.  There is
    an assignment of one outcome to every column such that each group is
    extended, in left-to-right order, by one new entity per column with the
    matching outcome and is otherwise unchanged: boulders, enemies and coins
    at the column's centre, 0.35 tile below the row's top, the enemies with
    the row's speed (between 30 and 100); spikes at the column's left edge,
    10 units below the row's top.  A group that does not exist stays absent.
    The call makes at most four random draws per column, and none, with no
    entity, when it skips the row or the row is at or above the platform. *)
Theorem generateRow_spawns (worldY : Q) (force : bool) s :
  ∃ outcome : Z → Spawned,
    let tileY := rowOf TILE_SIZE worldY in
    let r := rowSpawn TILE_SIZE worldY tileY in
    let s' := generateRow TILE_SIZE random worldY force s in
    let above := (spawnSurfaceY r - TILE_SIZE / 2)%Q in
    let columns := λ o, spawnedAt outcome o (seqZ 0 mapWidthTiles) in
    bouldersGroup s'
    = bouldersGroup s
      ++ map (λ tileX, go_new (columnCentre TILE_SIZE tileX) above)
           (columns spawnedBoulder)
    ∧ enemiesGroup s'
      = enemiesGroup s
        ++ map (λ tileX,
                  setSpeed (currentEnemySpeed r)
                    (go_new (columnCentre TILE_SIZE tileX) above))
             (columns spawnedEnemy)
    ∧ spikesGroup s'
      = (λ group,
           group
           ++ map (λ tileX,
                     go_new (columnCentre TILE_SIZE tileX - TILE_SIZE / 2)%Q
                       (worldY + 10)%Q)
                (columns spawnedSpike))
        <$> spikesGroup s
    ∧ coinsGroup s'
      = (λ group,
           group
           ++ map (λ tileX, go_new (columnCentre TILE_SIZE tileX) above)
                (columns spawnedCoin))
        <$> coinsGroup s
    ∧ (randomCalls s ≤ randomCalls s'
       ≤ randomCalls s + 4 * Z.to_nat mapWidthTiles)%nat
    ∧ (generates TILE_SIZE worldY force s = false ∨ tileY ≤ initialPlatformRows
       → (∀ o, o ≠ spawnedNothing → columns o = [])
         ∧ randomCalls s' = randomCalls s)
    ∧ (above == worldY + TILE_SIZE * 0.35)%Q
    ∧ (initialPlatformRows < tileY →
       (30 <= currentEnemySpeed r)%Q ∧ (currentEnemySpeed r <= 100)%Q).
Proof.
  assert (Habove :
    (spawnSurfaceY (rowSpawn TILE_SIZE worldY (rowOf TILE_SIZE worldY))
     - TILE_SIZE / 2 == worldY + TILE_SIZE * 0.35)%Q).
  { unfold rowSpawn. cbn [spawnSurfaceY]. field. }
  destruct (generateRow_cases worldY force s)
    as [[Hg Heq]|[(Hg & Hrow & Heq)|(Hg & Hrow & Heq)]].
  1, 2: exists (λ _, spawnedNothing); cbv beta zeta;
    rewrite Heq, !spawnedAt_nothing by done; simpl map; rewrite !app_nil_r;
    split_and!; try done; try apply enemySpeed_bounds; simpl; try lia;
    try (by destruct (spikesGroup s); simpl; rewrite ?app_nil_r);
    try (by destruct (coinsGroup s); simpl; rewrite ?app_nil_r);
    (intros _; split; [|done]; intros o Ho; by apply spawnedAt_nothing).
  destruct (spawnCells_outcomes
              (rowSpawn TILE_SIZE worldY (rowOf TILE_SIZE worldY))
              (seqZ 0 mapWidthTiles)
              (addRowVisual TILE_SIZE worldY (rowOf TILE_SIZE worldY)
                 (addRowCollider TILE_SIZE worldY (rowOf TILE_SIZE worldY) s)))
    as (outcome & HB & HE & HS & HC & HR); [apply NoDup_seqZ|].
  exists outcome. cbv beta zeta in *.
  rewrite Heq, HB, HE, HS, HC. rewrite length_seqZ in HR.
  split_and!; try done; try apply HR.
  - intros [?|?]; [congruence|lia].
  - intros _. by apply enemySpeed_bounds.
Qed.

(** ** Deep rows *)

Lemma boulderChance_certain_iff (worldY : Q) (tileY : Z) :
  (1 <= currentBoulderChance (rowSpawn TILE_SIZE worldY tileY))%Q
  ↔ 330 ≤ tileY.
Proof.
  unfold rowSpawn. cbn [currentBoulderChance].
  unfold boulderSpawnChanceBase, difficultyScaleFactor, initialPlatformRows.
  set (d := Z.max 0 (tileY - (5 + 1))).
  split.
  - intros Hle. destruct (decide (330 ≤ tileY)) as [|Hlt]; [done|].
    assert (Hd : (inject_Z d <= inject_Z 323)%Q).
    { rewrite <- Zle_Qle. lia. }
    change (inject_Z 323) with 323%Q in Hd. lra.
  - intros Hge.
    assert (Hd : (inject_Z 324 <= inject_Z d)%Q).
    { rewrite <- Zle_Qle. lia. }
    change (inject_Z 324) with 324%Q in Hd. lra.
Qed.

Lemma spawnCell_certain_boulder (r : RowSpawn) s (tileX : Z) :
  (∀ n, (random n < 1)%Q) →
  (1 <= currentBoulderChance r)%Q →
  spawnCell TILE_SIZE random r s tileX = boulderCell TILE_SIZE r s tileX.
Proof.
  intros Hrandom Hchance. unfold spawnCell, boulderCell, columnCentre.
  destruct (spaceOccupiedAt _ _ _ s); [done|].
  unfold spawnHazard, Math_random. simpl.
  assert (Hroll : Qlt_bool (random (randomCalls s)) (currentBoulderChance r)
                  = true).
  { apply Qlt_bool_iff. eapply Qlt_le_trans; [apply Hrandom|done]. }
  by rewrite Hroll.
Qed.

Lemma spawnCells_certain_boulder (r : RowSpawn) (columns : list Z) s :
  (∀ n, (random n < 1)%Q) →
  (1 <= currentBoulderChance r)%Q →
  fold_left (spawnCell TILE_SIZE random r) columns s
  = fold_left (boulderCell TILE_SIZE r) columns s.
Proof.
  intros Hrandom Hchance. revert s.
  induction columns as [|a l IH]; intros s; simpl; [done|].
  by rewrite spawnCell_certain_boulder, IH.
Qed.

(** What a boulder cell changes. *)
Lemma boulderCell_groups (r : RowSpawn) s (tileX : Z) :
  let s' := boulderCell TILE_SIZE r s tileX in
  enemiesGroup s' = enemiesGroup s
  ∧ spikesGroup s' = spikesGroup s
  ∧ coinsGroup s' = coinsGroup s
  ∧ ∃ n : nat,
      (n ≤ 1)%nat
      ∧ randomCalls s' = (randomCalls s + n)%nat
      ∧ length (bouldersGroup s') = (length (bouldersGroup s) + n)%nat.
Proof.
  unfold boulderCell. destruct (spaceOccupiedAt _ _ _ s); simpl.
  - split_and!; try done. exists 0%nat. split_and!; lia.
  - split_and!; try done. exists 1%nat. rewrite length_app. simpl.
    split_and!; lia.
Qed.

Lemma boulderCells_groups (r : RowSpawn) (columns : list Z) s :
  let s' := fold_left (boulderCell TILE_SIZE r) columns s in
  enemiesGroup s' = enemiesGroup s
  ∧ spikesGroup s' = spikesGroup s
  ∧ coinsGroup s' = coinsGroup s
  ∧ ∃ n : nat,
      (n ≤ length columns)%nat
      ∧ randomCalls s' = (randomCalls s + n)%nat
      ∧ length (bouldersGroup s') = (length (bouldersGroup s) + n)%nat.
Proof.
  revert s. induction columns as [|a l IH]; intros s; simpl.
  { split_and!; try done. exists 0%nat. split_and!; lia. }
  destruct (IH (boulderCell TILE_SIZE r s a))
    as (HE & HS & HC & n & Hn & HR & HB).
  destruct (boulderCell_groups r s a)
    as (HE1 & HS1 & HC1 & n1 & Hn1 & HR1 & HB1).
  rewrite HE, HS, HC, HE1, HS1, HC1. split_and!; try done.
  exists (n1 + n)%nat. split_and!; lia.
Qed.

(** X14: the boulder chance [0.03 + 0.003 * depthInRows] reaches 1 exactly
    at row 330.  From there on, with [Math.random()] below 1, the column
    loop of [generateRow] does in every cell what [boulderCell] says: a cell
    found occupied is left alone, every other cell makes exactly one draw
    and appends a boulder at the column's centre.  So a call that passes the
    guards is the row's collider and visual followed by [boulderCell] on the
    columns 0 to 24 in order, a call that does not pass them changes nothing,
    and either way no enemy, spike or coin is added. *)
Theorem generateRow_deep_rows (worldY : Q) (force : bool) s :
  (∀ n, (random n < 1)%Q) →
  let tileY := rowOf TILE_SIZE worldY in
  let r := rowSpawn TILE_SIZE worldY tileY in
  let s' := generateRow TILE_SIZE random worldY force s in
  let stored :=
    addRowVisual TILE_SIZE worldY tileY
      (addRowCollider TILE_SIZE worldY tileY s) in
  ((1 <= currentBoulderChance r)%Q ↔ 330 ≤ tileY)
  ∧ (330 ≤ tileY →
     (∀ s0 tileX,
        let x := columnCentre TILE_SIZE tileX in
        let cell := spawnCell TILE_SIZE random r s0 tileX in
        (spaceOccupiedAt TILE_SIZE x (spawnSurfaceY r) s0 = true → cell = s0)
        ∧ (spaceOccupiedAt TILE_SIZE x (spawnSurfaceY r) s0 = false →
           bouldersGroup cell
           = bouldersGroup s0
             ++ [go_new x (spawnSurfaceY r - TILE_SIZE / 2)%Q]
           ∧ randomCalls cell = S (randomCalls s0)))
     ∧ (generates TILE_SIZE worldY force s = true →
        s' = fold_left (boulderCell TILE_SIZE r) (seqZ 0 mapWidthTiles) stored)
     ∧ (generates TILE_SIZE worldY force s = false → s' = s)
     ∧ enemiesGroup s' = enemiesGroup s
     ∧ spikesGroup s' = spikesGroup s
     ∧ coinsGroup s' = coinsGroup s
     ∧ ∃ n : nat,
         (n ≤ Z.to_nat mapWidthTiles)%nat
         ∧ randomCalls s' = (randomCalls s + n)%nat
         ∧ length (bouldersGroup s') = (length (bouldersGroup s) + n)%nat).
Proof.
  intros Hrandom tileY r s' stored.
  split; [apply boulderChance_certain_iff|].
  intros Hdeep.
  assert (Hchance : (1 <= currentBoulderChance r)%Q)
    by by apply boulderChance_certain_iff.
  assert (Hcell : ∀ s0 tileX,
    spawnCell TILE_SIZE random r s0 tileX = boulderCell TILE_SIZE r s0 tileX)
    by (intros; by apply spawnCell_certain_boulder).
  split.
  { intros s0 tileX x cell. subst x cell. rewrite Hcell. unfold boulderCell.
    split; intros ->; [done|]. by split. }
  subst s'.
  destruct (generateRow_cases worldY force s)
    as [[Hg Heq]|[(Hg & Hrow & Heq)|(Hg & Hrow & Heq)]].
  1, 2: rewrite Heq.
  - split_and!; try done; [congruence|].
    exists 0%nat. simpl. split_and!; lia.
  - unfold initialPlatformRows in Hrow. fold tileY in Hrow. lia.
  - fold tileY r stored in Heq.
    rewrite Heq, spawnCells_certain_boulder by done.
    destruct (boulderCells_groups r (seqZ 0 mapWidthTiles) stored)
      as (HE & HS & HC & n & Hn & HR & HB).
    rewrite length_seqZ in Hn.
    split_and!; try done; [congruence|]. by exists n.
Qed.

(** ** The spawn point and the surface of a row *)

Lemma generateInitialChunk_platform s :
  is_Some
    (rowColliders (generateInitialChunk TILE_SIZE random s)
       !! initialPlatformRows).
Proof.
  unfold generateInitialChunk. cbv zeta.
  change (rowColliders (set_generatedRowsMaxY ?v ?t)) with (rowColliders t).
  rewrite forEachRowY_loopYs, generateRows_stored_iff.
  left. rewrite generateRow_stored_iff.
  destruct (rowColliders s !! initialPlatformRows) eqn:Hs; [left; by eexists|].
  right. rewrite (rowOf_aligned TILE_SIZE TILE_SIZE_pos initialPlatformRows)
    by done.
  unfold initialPlatformRows, mapHeightTiles. split_and!; try done; by left.
Qed.

(** X15: [getInitialSpawnPoint] lies strictly inside the world, in the row
    directly above the platform row.  In a manager reached through the public
    methods no row at or above the spawn row is ever stored, before or after
    [generateInitialChunk]; and after [generateInitialChunk] the row directly
    below the spawn row is stored: there is ground under the spawn point. *)
Theorem spawn_point_above_platform s :
  reachable TILE_SIZE random s →
  let spawn := getInitialSpawnPoint TILE_SIZE in
  let chunk := generateInitialChunk TILE_SIZE random s in
  (0 < spawn.1)%Q ∧ (spawn.1 < getMapWidthPixels TILE_SIZE)%Q
  ∧ (0 < spawn.2)%Q ∧ (spawn.2 < getMapHeightPixels TILE_SIZE)%Q
  ∧ rowOf TILE_SIZE spawn.2 = initialPlatformRows - 1
  ∧ (∀ k, k ≤ rowOf TILE_SIZE spawn.2 →
          rowColliders s !! k = None ∧ rowColliders chunk !! k = None)
  ∧ is_Some (rowColliders chunk !! (rowOf TILE_SIZE spawn.2 + 1)).
Proof.
  intros Hreach spawn chunk.
  assert (Hhalf : (TILE_SIZE / 2 == TILE_SIZE * (1 # 2))%Q) by field.
  assert (Hrow : rowOf TILE_SIZE spawn.2 = initialPlatformRows - 1).
  { apply (rowOf_unique TILE_SIZE TILE_SIZE_pos); subst spawn;
      unfold getInitialSpawnPoint; cbn [snd]; rewrite Hhalf.
    - lra.
    - rewrite inject_Z_plus. change (inject_Z 1) with 1%Q. lra. }
  assert (Habove : ∀ s0 : TerrainManager Boulder Enemy Spike Coin,
            reachable TILE_SIZE random s0 →
            ∀ k, k ≤ initialPlatformRows - 1 → rowColliders s0 !! k = None).
  { intros s0 Hs0 k Hk.
    destruct (reachable_wf TILE_SIZE random TILE_SIZE_pos s0 Hs0)
      as (_ & Hrows & _).
    destruct (rowColliders s0 !! k) as [collider|] eqn:Hlook; [|done].
    apply Hrows in Hlook as [Hbounds _]. lia. }
  subst spawn. unfold getInitialSpawnPoint, getMapWidthPixels,
    getMapHeightPixels, mapWidthPixels, mapHeightPixels in *.
  cbn [fst snd] in *.
  unfold initialPlatformRows, mapWidthTiles, mapHeightTiles in *.
  assert (Hmiddle : (25 * TILE_SIZE / 2 == TILE_SIZE * (25 # 2))%Q) by field.
  split_and!.
  - change (inject_Z 25) with 25%Q. rewrite Hmiddle. lra.
  - change (inject_Z 25) with 25%Q. rewrite Hmiddle. lra.
  - change (inject_Z (5 - 1)) with 4%Q. rewrite Hhalf. lra.
  - change (inject_Z (5 - 1)) with 4%Q. change (inject_Z 500) with 500%Q.
    rewrite Hhalf. lra.
  - exact Hrow.
  - intros k Hk. rewrite Hrow in Hk. split.
    + by apply Habove.
    + apply Habove; [|done]. by apply reach_generateInitialChunk.
  - rewrite Hrow. apply generateInitialChunk_platform.
Qed.

(** X16: for an entity at most two tiles high, [getRowSurfaceY(k, height)]
    is a centre position in row [k - 1] whose bottom edge [y + height / 2] is
    the top of row [k]; that is 0.85 tile above the surface [spawnSurfaceY]
    on which [generateRow] places what it spawns in row [k]. *)
Theorem getRowSurfaceY_row (k : Z) (entityHeight : Q) :
  (0 < entityHeight)%Q → (entityHeight <= 2 * TILE_SIZE)%Q →
  let y := getRowSurfaceY TILE_SIZE (inject_Z k) entityHeight in
  (y + entityHeight / 2 == inject_Z k * TILE_SIZE)%Q
  ∧ rowOf TILE_SIZE y = k - 1
  ∧ (spawnSurfaceY (rowSpawn TILE_SIZE (inject_Z k * TILE_SIZE) k)
     - (y + entityHeight / 2) == TILE_SIZE * 0.85)%Q.
Proof.
  intros Hpos Hsmall y. subst y. unfold getRowSurfaceY, rowSpawn.
  cbn [spawnSurfaceY].
  assert (Hhalf : (entityHeight / 2 == entityHeight * (1 # 2))%Q) by field.
  split_and!.
  - field.
  - apply (rowOf_unique TILE_SIZE TILE_SIZE_pos); rewrite Hhalf.
    + unfold Z.sub. rewrite inject_Z_plus, inject_Z_opp.
      change (inject_Z 1) with 1%Q. lra.
    + replace (k - 1 + 1) with k by lia. lra.
  - field.
Qed.

End GeneratedContent.

(** * The callers: the player's dig and the scene's frame *)

Section CallersProperties.

Context {Boulder Enemy Spike Coin : Type}.
Context `{!GameObject Boulder, !Damageable Boulder}.
Context `{!GameObject Enemy, !Damageable Enemy, !Mobile Enemy}.
Context `{!GameObject Spike, !Damageable Spike}.
Context `{!GameObject Coin}.

Variable TILE_SIZE : Q.
Variable random : nat → Q.
Hypothesis TILE_SIZE_pos : (0 < TILE_SIZE)%Q.

Implicit Types s t : TerrainManager Boulder Enemy Spike Coin.
Implicit Types g : Game Boulder Enemy Spike Coin.
Implicit Types p : Player.

#[local] Arguments Qfloor : simpl never.
#[local] Arguments Qceiling : simpl never.
#[local] Arguments Qdiv : simpl never.
#[local] Arguments Qmult : simpl never.
#[local] Arguments Qplus : simpl never.
#[local] Arguments Qminus : simpl never.
#[local] Arguments Qle_bool : simpl never.
#[local] Arguments Qlt_bool : simpl never.
#[local] Arguments inject_Z : simpl never.
#[local] Arguments Z.add : simpl never.
#[local] Arguments Z.sub : simpl never.
#[local] Arguments Z.mul : simpl never.

(** ** The dig *)

(** X17: the dig cooldown.  A dig attempt that passes [canJumpOrDig] at scene
    time [now] sets [lastDigTime] to [now]; while nothing else writes
    [lastDigTime], every attempt up to and including time [now + 150] does
    nothing at all - no jump, no cleared row - whatever happened to the body
    and to the terrain in between. *)
Theorem dig_cooldown (now now' : Q) p p' t t' :
  canJumpOrDig now p = true →
  lastDigTime p' = lastDigTime (attemptJumpAndDig TILE_SIZE now p t).1 →
  (now' <= now + digCooldown)%Q →
  lastDigTime (attemptJumpAndDig TILE_SIZE now p t).1 = now
  ∧ attemptJumpAndDig TILE_SIZE now' p' t' = (p', t').
Proof.
  intros Hcan Hlast Hsoon.
  assert (Hnow : lastDigTime (attemptJumpAndDig TILE_SIZE now p t).1 = now).
  { unfold attemptJumpAndDig. rewrite Hcan. simpl.
    unfold canJumpOrDig in Hcan. by destruct (player_body p). }
  split; [done|]. rewrite Hnow in Hlast.
  unfold attemptJumpAndDig.
  assert (Hcannot : canJumpOrDig now' p' = false).
  { unfold canJumpOrDig. destruct (player_body p'); [|done].
    rewrite Hlast. apply andb_false_iff. right. by apply Qlt_bool_false_iff. }
  by rewrite Hcannot.
Qed.

Lemma clearCurrentRow_events (triggerWorldY : Q) t :
  let k := rowOf TILE_SIZE triggerWorldY + 1 in
  eventBus (clearCurrentRow TILE_SIZE triggerWorldY t).2
  = eventBus t ++ (if decide (is_Some (rowColliders t !! k)) then [k] else [])
  ∧ generatedRowsMaxY (clearCurrentRow TILE_SIZE triggerWorldY t).2
    = generatedRowsMaxY t.
Proof.
  intros k. subst k. unfold rowOf.
  destruct (rowColliders t !! (Qfloor (triggerWorldY / TILE_SIZE) + 1))
    as [collider|] eqn:Hc.
  - destruct (clearCurrentRow_present TILE_SIZE triggerWorldY t collider Hc)
      as (_ & _ & _ & _ & _ & He & _ & _ & _ & Hf & _).
    rewrite decide_True by by eexists. done.
  - rewrite (proj2 (clearCurrentRow_none TILE_SIZE triggerWorldY t Hc)).
    rewrite decide_False by (by intros [? ?]). by rewrite app_nil_r.
Qed.

(** X18: a dig that passes [canJumpOrDig] makes the player jump (vertical
    velocity -200, [lastDigTime] set to the scene time) and clears row [k],
    the row directly below the row that contains the point one unit under
    the player's feet.  On a reachable terrain exactly row [k] leaves both
    registries (nothing changes when it was not stored), one
    "dirt-row-cleared" event carrying [k] is emitted exactly when it was
    stored, the frontier stays, and the terrain is a reachable one again. *)
Theorem dig_clears_row_below (now : Q) p (b : PlayerBody) t :
  reachable TILE_SIZE random t →
  canJumpOrDig now p = true →
  player_body p = Some b →
  let k := rowOf TILE_SIZE (body_bottom b + 1) + 1 in
  let result := attemptJumpAndDig TILE_SIZE now p t in
  (inject_Z (k - 1) * TILE_SIZE <= body_bottom b + 1)%Q
  ∧ (body_bottom b + 1 < inject_Z k * TILE_SIZE)%Q
  ∧ result.1
    = set_player_body (Some (setVelocityY jumpVelocity b))
        (set_lastDigTime now p)
  ∧ reachable TILE_SIZE random result.2
  ∧ rowColliders result.2 = delete k (rowColliders t)
  ∧ rowVisuals result.2 = delete k (rowVisuals t)
  ∧ eventBus result.2
    = eventBus t ++ (if decide (is_Some (rowColliders t !! k)) then [k] else [])
  ∧ generatedRowsMaxY result.2 = generatedRowsMaxY t.
Proof.
  intros Hreach Hcan Hbody k result.
  assert (Hresult :
    result
    = (set_player_body (Some (setVelocityY jumpVelocity b))
         (set_lastDigTime now p),
       (clearCurrentRow TILE_SIZE (body_bottom b + 1) t).2)).
  { subst result. unfold attemptJumpAndDig. rewrite Hcan, Hbody. simpl.
    unfold onBody. simpl. by rewrite Hbody. }
  rewrite Hresult. cbn [fst snd].
  destruct (rowOf_bounds TILE_SIZE TILE_SIZE_pos (body_bottom b + 1))
    as [Hlo Hhi].
  destruct (clearCurrentRow_events (body_bottom b + 1) t) as [He Hf].
  split_and!; try done.
  - subst k. by replace (rowOf TILE_SIZE (body_bottom b + 1) + 1 - 1)
      with (rowOf TILE_SIZE (body_bottom b + 1)) by lia.
  - by apply reach_clearCurrentRow.
  - apply clearCurrentRow_rowColliders.
  - destruct (reachable_wf TILE_SIZE random TILE_SIZE_pos t Hreach)
      as (Hstore & _).
    subst k. unfold rowOf.
    destruct (rowColliders t !! (Qfloor ((body_bottom b + 1) / TILE_SIZE) + 1))
      as [collider|] eqn:Hc.
    + by destruct (clearCurrentRow_present TILE_SIZE _ t collider Hc)
        as (_ & _ & HV & _).
    + rewrite (proj2 (clearCurrentRow_none TILE_SIZE _ t Hc)).
      rewrite delete_id; [done|].
      apply not_elem_of_dom. rewrite <- Hstore. by apply not_elem_of_dom.
Qed.

(** ** One frame of the scene *)

Lemma generateRow_eventBus (worldY : Q) (force : bool) s :
  eventBus (generateRow TILE_SIZE random worldY force s) = eventBus s.
Proof.
  destruct (generates TILE_SIZE worldY force s) eqn:Hg.
  - destruct (generateRow_adds TILE_SIZE random _ _ _ Hg)
      as (_ & _ & _ & _ & He & _).
    by rewrite He.
  - by rewrite generateRow_skips.
Qed.

Lemma update_eventBus (cameraBottomY : Q) s :
  eventBus (update TILE_SIZE random cameraBottomY s) = eventBus s.
Proof.
  rewrite update_as_calls.
  change (eventBus (set_generatedRowsMaxY ?v ?t)) with (eventBus t).
  generalize (updateCalls TILE_SIZE (generatedRowsMaxY s) cameraBottomY).
  intros calls. revert s.
  induction calls as [|y calls IH]; intros s; simpl; [done|].
  by rewrite IH, generateRow_eventBus.
Qed.

(** The terrain after the player's part of a frame: as before, or after one
    dig. *)
Lemma Player_update_terrain (cursors : Cursors) (time now : Q) p p' t t' :
  Player_update TILE_SIZE cursors time now p t = Some (p', t') →
  is_Some (player_body p')
  ∧ (t' = t ∨ ∃ triggerWorldY, t' = (clearCurrentRow TILE_SIZE triggerWorldY t).2).
Proof.
  unfold Player_update.
  destruct (player_body p) as [b|] eqn:Hb; [|done].
  destruct (player_active p); simpl.
  2: { intros [= <- <-]. split; [|by left]. unfold onBody. simpl.
       rewrite Hb. by eexists. }
  set (p1 := moveHorizontally cursors (cleanupCollisionRecords time p)).
  assert (Hb1 : is_Some (player_body p1)).
  { subst p1. unfold moveHorizontally, cleanupCollisionRecords, onBody.
    repeat case_match; simpl; rewrite Hb; by eexists. }
  destruct (up_isDown cursors).
  - unfold attemptJumpAndDig.
    destruct (canJumpOrDig now p1); simpl.
    + destruct Hb1 as [b1 Hb1]. rewrite Hb1. intros [= <- <-]. split.
      * unfold onBody. simpl. rewrite Hb1. by eexists.
      * right. by eexists.
    + intros [= <- <-]. split; [|by left].
      destruct Hb1 as [b1 Hb1]. unfold onBody. simpl. rewrite Hb1. by eexists.
  - intros [= <- <-]. split; [|by left].
    destruct Hb1 as [b1 Hb1]. unfold onBody. simpl. rewrite Hb1. by eexists.
Qed.

Lemma emitStatsUpdate_fields (force : bool) g :
  let g' := emitStatsUpdate force g in
  cursors g' = cursors g ∧ player g' = player g
  ∧ currentDepth g' = currentDepth g
  ∧ maxDepthReached g' = maxDepthReached g
  ∧ nextShopDepthThreshold g' = nextShopDepthThreshold g
  ∧ initialPlayerY g' = initialPlayerY g
  ∧ terrainManager g' = terrainManager g
  ∧ registry g' = registry g
  ∧ shopCalls g' = shopCalls g.
Proof. unfold emitStatsUpdate. simpl. by destruct (_ || _). Qed.

Lemma trackDepth_terrain (playerFeetY : Q) g :
  terrainManager (trackDepth TILE_SIZE playerFeetY g) = terrainManager g.
Proof.
  unfold trackDepth. cbv zeta.
  repeat (match goal with
          | |- context [if ?c then _ else _] => destruct c
          end; simpl);
    rewrite ?(proj1 (proj2 (proj2 (proj2 (proj2 (proj2 (proj2
               (emitStatsUpdate_fields false _)))))))); done.
Qed.

(** [Game.update] either skips the frame or runs its three parts. *)
Lemma Game_update_cases (frame : Frame) g :
  let cameraBottomY :=
    (camera_scrollY frame + camera_height frame / camera_zoom frame)%Q in
  (¬ frameRuns frame g ∧ Game_update TILE_SIZE random frame g = g)
  ∨ (frameRuns frame g
     ∧ ∃ c p p' t' b',
         cursors g = Some c ∧ player g = Some p
         ∧ Player_update TILE_SIZE c (frame_time frame) (scene_now frame) p
             (terrainManager g) = Some (p', t')
         ∧ player_body p' = Some b'
         ∧ let tracked :=
             trackDepth TILE_SIZE (body_bottom b')
               (set_terrainManager t' (set_player (Some p') g)) in
           Game_update TILE_SIZE random frame g
           = if isActive_second frame
             then set_terrainManager
                    (update TILE_SIZE random cameraBottomY
                       (terrainManager tracked)) tracked
             else tracked).
Proof.
  intros cameraBottomY. unfold Game_update, frameRuns.
  destruct (cursors g) as [c|] eqn:Hc; simpl; cycle 1.
  { left. split; [|done]. by intros [[? ?] _]. }
  destruct (player g) as [p|] eqn:Hp; simpl; cycle 1.
  { left. split; [|done]. by intros (_ & (? & ? & _) & _). }
  destruct (player_body p) as [b|] eqn:Hb; simpl; cycle 1.
  { left. split; [|done]. intros (_ & (? & [= <-] & [? ?]) & _). congruence. }
  destruct (isActive_first frame) eqn:Ha; simpl; cycle 1.
  { left. split; [|done]. by intros (_ & _ & ?). }
  right. split.
  { split_and!; [by eexists| |done]. exists p. split; [done|]. by eexists. }
  destruct (Player_update TILE_SIZE c (frame_time frame) (scene_now frame) p
              (terrainManager g)) as [[p' t']|] eqn:Hup; cycle 1.
  { unfold Player_update in Hup. rewrite Hb in Hup.
    by destruct (player_active p), (up_isDown c);
      try destruct (attemptJumpAndDig _ _ _ _). }
  destruct (Player_update_terrain _ _ _ _ _ _ _ Hup) as [[b' Hb'] _].
  exists c, p, p', t', b'. split_and!; try done.
  simpl. rewrite Hb'. simpl. by destruct (isActive_second frame).
Qed.

(** X19: one call of [Game.update] keeps the terrain among the managers
    reached through the public methods, clears at most one row (the player's
    dig: at most one "dirt-row-cleared" event) and never lowers the
    generation frontier.  When the frame passes the guards and the scene is
    still active before the terrain step, the frontier afterwards is at
    least ten tiles below the lower edge of the camera (for a camera zoom
    other than 0). *)
Theorem Game_update_terrain (frame : Frame) g :
  reachable TILE_SIZE random (terrainManager g) →
  let cameraBottomY :=
    (camera_scrollY frame + camera_height frame / camera_zoom frame)%Q in
  let before := terrainManager g in
  let after := terrainManager (Game_update TILE_SIZE random frame g) in
  reachable TILE_SIZE random after
  ∧ (∃ cleared : list Z,
       eventBus after = eventBus before ++ cleared ∧ (length cleared ≤ 1)%nat)
  ∧ (generatedRowsMaxY before <= generatedRowsMaxY after)%Q
  ∧ (frameRuns frame g → isActive_second frame = true →
     ¬ (camera_zoom frame == 0)%Q →
     (cameraBottomY + TILE_SIZE * 10 <= generatedRowsMaxY after)%Q).
Proof.
  intros Hreach cameraBottomY before after. subst before after.
  destruct (Game_update_cases frame g)
    as [[Hskip ->]|(Hruns & c & p & p' & t' & b' & Hc & Hp & Hup & Hb' & ->)].
  { split_and!; try done.
    - exists []. split; [by rewrite app_nil_r|simpl; lia].
    - lra. }
  cbv zeta. fold cameraBottomY.
  destruct (Player_update_terrain _ _ _ _ _ _ _ Hup) as [_ Hdig].
  change (terrainManager (set_terrainManager t' (set_player (Some p') g)))
    with t'.
  assert (Ht' : reachable TILE_SIZE random t'
                ∧ (∃ cleared : list Z,
                     eventBus t' = eventBus (terrainManager g) ++ cleared
                     ∧ (length cleared ≤ 1)%nat)
                ∧ generatedRowsMaxY t' = generatedRowsMaxY (terrainManager g)).
  { destruct Hdig as [->|[y ->]].
    - split_and!; try done. exists []. split; [by rewrite app_nil_r|simpl; lia].
    - destruct (clearCurrentRow_events y (terrainManager g))
        as [He Hf].
      split_and!; [by apply reach_clearCurrentRow| |done].
      eexists. split; [exact He|]. destruct (decide _); simpl; lia. }
  destruct Ht' as (Hreach' & Hevents & Hfrontier).
  destruct (isActive_second frame) eqn:Hactive; simpl;
    rewrite ?trackDepth_terrain; simpl.
  - rewrite update_eventBus, update_frontier.
    split_and!; try done.
    + by apply reach_update.
    + rewrite <- Hfrontier. apply frontierAfter_le.
    + intros _ _ _. apply frontierAfter_ge_threshold.
  - split_and!; try done. rewrite Hfrontier. lra.
Qed.

(** ** The depth bookkeeping *)

(** What the depth bookkeeping does to a scene whose bookkeeping is
    consistent. *)
Lemma trackDepth_spec (playerFeetY : Q) g :
  depth_inv g →
  let d := calculatedDepth TILE_SIZE playerFeetY g in
  let g' := trackDepth TILE_SIZE playerFeetY g in
  let deeper := maxDepthReached g <? d in
  let shop := deeper && (nextShopDepthThreshold g <=? d) in
  maxDepthReached g' = Z.max (maxDepthReached g) d
  ∧ currentDepth g' = d
  ∧ lastReportedDepth g' = maxDepthReached g'
  ∧ sceneEvents g'
    = sceneEvents g
      ++ (if deeper
          then [update_max_depth d;
                update_stats
                  (mkStats (registry_lives (registry g))
                     (registry_maxLives (registry g))
                     (registry_coins (registry g)) d
                     (registry_relics (registry g))
                     (registry_consumables (registry g)))]
          else [])
  ∧ shopCalls g' = shopCalls g ++ (if shop then [d] else [])
  ∧ nextShopDepthThreshold g'
    = nextShopDepthThreshold g + (if shop then 10 else 0)
  ∧ registry g' = registry g
  ∧ player g' = player g
  ∧ cursors g' = cursors g
  ∧ initialPlayerY g' = initialPlayerY g.
Proof.
  intros (Hcur & Hrep & _) d g' deeper shop. subst g' shop deeper.
  unfold trackDepth. fold (calculatedDepth TILE_SIZE playerFeetY g). fold d.
  assert (Hd : 0 ≤ d) by (subst d; unfold calculatedDepth; lia).
  destruct (maxDepthReached g <? d) eqn:Hdeeper.
  - apply Z.ltb_lt in Hdeeper.
    rewrite orb_true_r. unfold emitStatsUpdate. simpl.
    rewrite Hrep.
    assert (Hne : (d =? maxDepthReached g) = false) by (apply Z.eqb_neq; lia).
    rewrite Hne. simpl.
    assert (Hpos : (0 <? d) = true) by (apply Z.ltb_lt; lia).
    rewrite Hpos. simpl.
    destruct (nextShopDepthThreshold g <=? d); simpl;
      rewrite <- ?app_assoc, ?app_nil_r; split_and!; try done; lia.
  - apply Z.ltb_ge in Hdeeper. simpl. rewrite orb_false_r.
    destruct (d =? currentDepth g) eqn:Hsame; simpl.
    + apply Z.eqb_eq in Hsame. rewrite !app_nil_r.
      split_and!; try done; lia.
    + unfold emitStatsUpdate. simpl. rewrite Hrep, Z.eqb_refl. simpl.
      rewrite !app_nil_r. split_and!; try done; lia.
Qed.

Lemma trackDepth_inv (playerFeetY : Q) g :
  depth_inv g → depth_inv (trackDepth TILE_SIZE playerFeetY g).
Proof.
  intros Hinv.
  destruct (trackDepth_spec playerFeetY g Hinv)
    as (Hmax & Hcur & Hrep & _ & Hshop & Hthr & _).
  destruct Hinv as (Hcur0 & Hrep0 & Hthr0 & Hbounds & Hsorted).
  set (d := calculatedDepth TILE_SIZE playerFeetY g) in *.
  assert (Hd : 0 ≤ d) by (subst d; unfold calculatedDepth; lia).
  unfold depth_inv. rewrite Hmax, Hcur, Hrep, Hmax, Hshop, Hthr.
  destruct ((maxDepthReached g <? d) && (nextShopDepthThreshold g <=? d))
    eqn:Hopen.
  - apply andb_true_iff in Hopen as [Hdeeper Hreached].
    apply Z.ltb_lt in Hdeeper. apply Z.leb_le in Hreached.
    rewrite length_app. simpl length.
    split_and!; try lia.
    + intros i depth [[_ Hold]|[-> <-]]%lookup_snoc_Some.
      * apply Hbounds in Hold. lia.
      * lia.
    + intros i j d1 d2 Hi [[Hlt Hj]|[-> <-]]%lookup_snoc_Some Hij.
      * apply lookup_snoc_Some in Hi as [[_ Hi]|[-> _]]; [|lia].
        by eapply Hsorted.
      * apply lookup_snoc_Some in Hi as [[_ Hi]|[-> _]]; [|lia].
        apply Hbounds in Hi. lia.
  - rewrite app_nil_r, Z.add_0_r.
    split_and!; try done; try lia.
    intros i depth Hi. apply Hbounds in Hi. lia.
Qed.

Lemma depth_inv_shops g :
  depth_inv g → 10 * Z.of_nat (length (shopCalls g)) ≤ maxDepthReached g.
Proof.
  intros (Hcur & _ & _ & Hbounds & _).
  destruct (shopCalls g) as [|d l] eqn:Hl using rev_ind; [simpl; lia|].
  rewrite length_app. simpl length.
  assert (Hlast : (l ++ [d]) !! length l = Some d).
  { by rewrite lookup_app_r, Nat.sub_diag by lia. }
  apply Hbounds in Hlast. lia.
Qed.

(** X20: [Game.update] keeps the depth bookkeeping consistent ([depth_inv]):
    the maximum depth never decreases and there are at most
    [maxDepthReached / 10] shops.  In one frame the scene emits
    "update-max-depth" followed by "update-stats" (with the new depth and the
    registry's values) exactly when the maximum depth increased, and nothing
    otherwise; it opens the shop, with the new maximum as argument, exactly
    when the maximum increased to at least the shop threshold; it never writes
    the registry.  In a frame that passes the guards the current depth becomes
    the depth calculated from the player's feet and the maximum becomes the
    larger of the old maximum and the current depth. *)
Theorem Game_update_depth (frame : Frame) g :
  depth_inv g →
  let g' := Game_update TILE_SIZE random frame g in
  let deeper := maxDepthReached g <? maxDepthReached g' in
  depth_inv g'
  ∧ maxDepthReached g ≤ maxDepthReached g'
  ∧ 10 * Z.of_nat (length (shopCalls g')) ≤ maxDepthReached g'
  ∧ sceneEvents g'
    = sceneEvents g
      ++ (if deeper
          then [update_max_depth (maxDepthReached g');
                update_stats
                  (mkStats (registry_lives (registry g))
                     (registry_maxLives (registry g))
                     (registry_coins (registry g)) (maxDepthReached g')
                     (registry_relics (registry g))
                     (registry_consumables (registry g)))]
          else [])
  ∧ shopCalls g'
    = shopCalls g
      ++ (if deeper && (nextShopDepthThreshold g <=? maxDepthReached g')
          then [maxDepthReached g']
          else [])
  ∧ registry g' = registry g
  ∧ (frameRuns frame g →
     ∃ p b,
       player g' = Some p ∧ player_body p = Some b
       ∧ currentDepth g' = calculatedDepth TILE_SIZE (body_bottom b) g
       ∧ maxDepthReached g' = Z.max (maxDepthReached g) (currentDepth g')).
Proof.
  intros Hinv g' deeper. subst deeper g'.
  destruct (Game_update_cases frame g)
    as [[Hskip ->]|(Hruns & c & p & p' & t' & b' & Hc & Hp & Hup & Hb' & ->)].
  { rewrite Z.ltb_irrefl, !app_nil_r.
    split_and!; try done; try lia. by apply depth_inv_shops. }
  cbv zeta.
  set (g0 := set_terrainManager t' (set_player (Some p') g)).
  assert (Hinv0 : depth_inv g0) by exact Hinv.
  pose proof (trackDepth_inv (body_bottom b') g0 Hinv0) as Hinv'.
  destruct (trackDepth_spec (body_bottom b') g0 Hinv0)
    as (Hmax & Hcur & Hrep & Hev & Hshop & Hthr & Hreg & Hpl & _).
  set (tracked := trackDepth TILE_SIZE (body_bottom b') g0) in *.
  assert (Hfinal :
    ∀ g1 : Game Boulder Enemy Spike Coin,
      g1 = tracked ∨ (∃ t1, g1 = set_terrainManager t1 tracked) →
      depth_inv g1 = depth_inv tracked
      ∧ maxDepthReached g1 = maxDepthReached tracked
      ∧ currentDepth g1 = currentDepth tracked
      ∧ sceneEvents g1 = sceneEvents tracked
      ∧ shopCalls g1 = shopCalls tracked
      ∧ registry g1 = registry tracked
      ∧ player g1 = player tracked).
  { intros g1 [->|[t1 ->]]; by split_and!. }
  match goal with
  | |- context [maxDepthReached ?g1] =>
      destruct (Hfinal g1) as (-> & -> & -> & -> & -> & -> & ->)
  end.
  { destruct (isActive_second frame); [right; by eexists|by left]. }
  clear Hfinal.
  change (calculatedDepth TILE_SIZE (body_bottom b') g0)
    with (calculatedDepth TILE_SIZE (body_bottom b') g) in *.
  change (maxDepthReached g0) with (maxDepthReached g) in *.
  change (nextShopDepthThreshold g0) with (nextShopDepthThreshold g) in *.
  change (sceneEvents g0) with (sceneEvents g) in *.
  change (shopCalls g0) with (shopCalls g) in *.
  change (registry g0) with (registry g) in *.
  change (player g0) with (Some p') in *.
  set (d := calculatedDepth TILE_SIZE (body_bottom b') g) in *.
  assert (Hdeeper : (maxDepthReached g <? maxDepthReached tracked)
                    = (maxDepthReached g <? d)).
  { rewrite Hmax. destruct (maxDepthReached g <? d) eqn:Hlt.
    - apply Z.ltb_lt in Hlt. apply Z.ltb_lt. lia.
    - apply Z.ltb_ge in Hlt. apply Z.ltb_ge. lia. }
  rewrite Hdeeper.
  assert (Hmax' : (maxDepthReached g <? d) = true → maxDepthReached tracked = d).
  { intros Hlt%Z.ltb_lt. lia. }
  split_and!.
  - exact Hinv'.
  - lia.
  - by apply depth_inv_shops.
  - rewrite Hev. destruct (maxDepthReached g <? d); [|done].
    by rewrite Hmax'.
  - rewrite Hshop. destruct (maxDepthReached g <? d); [|done].
    by rewrite Hmax'.
  - by rewrite Hreg.
  - intros _. exists p', b'. rewrite Hpl, Hcur. by split_and!.
Qed.

(** ** What a frame does to the player, and the stats report *)

(** X21: [Player.update] succeeds exactly when the player has a body.  It
    never moves the body and never changes its contact flags or the active
    flag.  Afterwards the horizontal velocity is -80, 0 or 80 and the vertical
    velocity is the old one, the jump velocity -200, or 0.  An inactive
    player is stopped and neither digs nor restarts the dig cooldown; without
    the up key the terrain and [lastDigTime] stay as they were.  No collision
    record is added, and for an active player every record that remains is at
    most 500 ms older than the [time] argument. *)
Theorem Player_update_motion (cursors : Cursors) (time now : Q) p t :
  (is_Some (Player_update TILE_SIZE cursors time now p t)
   ↔ is_Some (player_body p))
  ∧ ∀ p' t',
      Player_update TILE_SIZE cursors time now p t = Some (p', t') →
      ∃ b b',
        player_body p = Some b ∧ player_body p' = Some b'
        ∧ body_bottom b' = body_bottom b
        ∧ blocked_down b' = blocked_down b
        ∧ touching_down b' = touching_down b
        ∧ (velocity_x b' = (- moveSpeed)%Q ∨ velocity_x b' = 0%Q
           ∨ velocity_x b' = moveSpeed)
        ∧ (velocity_y b' = velocity_y b ∨ velocity_y b' = jumpVelocity
           ∨ velocity_y b' = 0%Q)
        ∧ player_active p' = player_active p
        ∧ (player_active p = false →
           velocity_x b' = 0%Q ∧ velocity_y b' = 0%Q ∧ t' = t
           ∧ lastDigTime p' = lastDigTime p)
        ∧ (up_isDown cursors = false → t' = t ∧ lastDigTime p' = lastDigTime p)
        ∧ recentBoulderCollisions p' ⊆ recentBoulderCollisions p
        ∧ (player_active p = true →
           ∀ (boulder : nat) (timestamp : Q),
             recentBoulderCollisions p' !! boulder = Some timestamp →
             (time - timestamp <= boulderCollisionCooldown)%Q).
Proof.
  unfold Player_update.
  destruct (player_body p) as [b|] eqn:Hb; cycle 1.
  { split; [|done]. split; by intros [? ?]. }
  split.
  { split; [by eexists|]. intros _.
    destruct (player_active p); simpl; [|by eexists].
    destruct (if up_isDown cursors then _ else _). by eexists. }
  intros p' t'.
  destruct (player_active p) eqn:Hactive; simpl; cycle 1.
  { intros [= <- <-]. exists b. eexists. unfold onBody. simpl. rewrite Hb.
    simpl. split_and!; try done; try (by right; right); try (by right; left). }
  assert (Hsub :
    filter
      (λ record : nat * Q,
         Qlt_bool boulderCollisionCooldown (time - record.2) = false)
      (recentBoulderCollisions p)
    ⊆ recentBoulderCollisions p) by apply map_filter_subseteq.
  assert (Hfresh : ∀ (boulder : nat) (timestamp : Q),
            filter
              (λ record : nat * Q,
                 Qlt_bool boulderCollisionCooldown (time - record.2) = false)
              (recentBoulderCollisions p) !! boulder = Some timestamp →
            (time - timestamp <= boulderCollisionCooldown)%Q).
  { intros boulder timestamp [_ Hkeep]%map_lookup_filter_Some.
    simpl in Hkeep. by apply Qlt_bool_false_iff in Hkeep. }
  unfold cleanupCollisionRecords, moveHorizontally, attemptJumpAndDig,
    canJumpOrDig, onBody, unstickFromWall.
  destruct (left_isDown cursors), (right_isDown cursors),
    (up_isDown cursors); simpl; rewrite ?Hb; simpl;
    destruct (blocked_down b), (touching_down b); simpl;
    repeat (match goal with
            | |- context [if ?c then _ else _] => destruct c; simpl
            end);
    rewrite ?Hb; simpl;
    intros [= <- <-]; exists b; eexists; simpl;
    (split_and!; try done; try (by left); try (by right; left);
     try (by right; right); try (intros _; by split_and!);
     try exact Hsub; try (intros _; exact Hfresh)).
Qed.

Lemma emitStatsUpdate_cases (force : bool) g :
  let total := orZero (registry_totalCoinsCollected (registry g)) in
  let payload :=
    mkStats (registry_lives (registry g)) (registry_maxLives (registry g))
      (registry_coins (registry g)) (maxDepthReached g)
      (registry_relics (registry g)) (registry_consumables (registry g)) in
  ((force = true ∨ lastReportedDepth g ≠ maxDepthReached g)
   ∧ emitStatsUpdate force g
     = emit (update_stats payload)
         (set_lastReportedDepth (maxDepthReached g)
            (set_totalCoinsCollected total g)))
  ∨ (force = false ∧ lastReportedDepth g = maxDepthReached g
     ∧ emitStatsUpdate force g = set_totalCoinsCollected total g).
Proof.
  intros total payload. unfold emitStatsUpdate. cbv zeta.
  change (lastReportedDepth (set_totalCoinsCollected ?v ?g0))
    with (lastReportedDepth g0).
  change (maxDepthReached (set_totalCoinsCollected ?v ?g0))
    with (maxDepthReached g0).
  destruct force; simpl; [left; split; [by left|done]|].
  destruct (maxDepthReached g =? lastReportedDepth g) eqn:Hsame; simpl.
  - apply Z.eqb_eq in Hsame. right. by split_and!.
  - apply Z.eqb_neq in Hsame. left. split; [right; congruence|done].
Qed.

(** X22: after [emitStatsUpdate], forced or not, the last reported depth is
    the maximum depth.  The call emits one "update-stats" event carrying the
    maximum depth when it is forced or the maximum differs from the last
    reported depth, and no event otherwise; an unforced call right after any
    call changes nothing; and the call keeps the depth bookkeeping
    consistent. *)
Theorem emitStatsUpdate_reports_once (force : bool) g :
  let g' := emitStatsUpdate force g in
  lastReportedDepth g' = maxDepthReached g
  ∧ maxDepthReached g' = maxDepthReached g
  ∧ (force = true ∨ lastReportedDepth g ≠ maxDepthReached g →
     ∃ payload,
       sceneEvents g' = sceneEvents g ++ [update_stats payload]
       ∧ stats_depth payload = maxDepthReached g)
  ∧ (force = false → lastReportedDepth g = maxDepthReached g →
     sceneEvents g' = sceneEvents g)
  ∧ emitStatsUpdate false g' = g'
  ∧ (depth_inv g → depth_inv g').
Proof.
  intros g'. subst g'.
  assert (Hagain :
    ∀ g1 : Game Boulder Enemy Spike Coin,
      lastReportedDepth g1 = maxDepthReached g1 →
      totalCoinsCollected g1
      = orZero (registry_totalCoinsCollected (registry g1)) →
      emitStatsUpdate false g1 = g1).
  { intros g1 Hrep Htotal. unfold emitStatsUpdate. cbv zeta.
    change (lastReportedDepth (set_totalCoinsCollected ?v ?g0))
      with (lastReportedDepth g0).
    change (maxDepthReached (set_totalCoinsCollected ?v ?g0))
      with (maxDepthReached g0).
    rewrite Hrep, Z.eqb_refl. simpl. unfold set_totalCoinsCollected.
    rewrite <- Htotal. by destruct g1. }
  destruct (emitStatsUpdate_cases force g)
    as [[Hwhy ->]|(-> & Hrep & ->)]; simpl.
  - split_and!; try done.
    + intros _. by eexists.
    + intros -> Hrep. by destruct Hwhy.
    + by apply Hagain.
    + intros (Hcur & _ & Hrest). unfold depth_inv. simpl.
      split; [exact Hcur|]. split; [done|exact Hrest].
  - split_and!; try done.
    + intros [?|?]; done.
    + by apply Hagain.
Qed.

End CallersProperties.

(** * The generator, the callers and the invariants on the scenarios *)

Module MoreExamples.

Import Scenario.

Lemma sixteen_positive : (0 < TILE_SIZE)%Q.
Proof. reflexivity. Qed.

Lemma fresh_reachable : reachable TILE_SIZE random fresh.
Proof. unfold fresh. apply reach_new. Qed.

Lemma chunk_reachable : reachable TILE_SIZE random chunk.
Proof. unfold chunk. apply reach_generateInitialChunk, fresh_reachable. Qed.

(** The rows of the initial chunk are well formed. *)
Lemma reachable_rows_wellformed_witness :
  (0 < TILE_SIZE)%Q
  ∧ reachable TILE_SIZE random chunk
  ∧ rows_wellformed TILE_SIZE chunk.
Proof.
  pose proof sixteen_positive as Hpos. pose proof chunk_reachable as Hreach.
  split; [exact Hpos|]. split; [exact Hreach|].
  exact (reachable_rows_wellformed TILE_SIZE random Hpos chunk Hreach).
Defined.

(** The row groups of the initial chunk hold the registered objects. *)
Lemma reachable_groups_match_witness :
  (0 < TILE_SIZE)%Q
  ∧ reachable TILE_SIZE random chunk
  ∧ groups_match chunk.
Proof.
  pose proof sixteen_positive as Hpos. pose proof chunk_reachable as Hreach.
  split; [exact Hpos|]. split; [exact Hreach|].
  exact (reachable_groups_match TILE_SIZE random Hpos chunk Hreach).
Defined.

(** Row 6 generated on the fresh manager and cleared from row 5. *)
Lemma generate_then_clear_witness :
  let generated := generateRow TILE_SIZE random 96 false fresh in
  let cleared := clearCurrentRow TILE_SIZE 81 generated in
  (0 < TILE_SIZE)%Q
  ∧ reachable TILE_SIZE random fresh
  ∧ generates TILE_SIZE 96 false fresh = true
  ∧ rowOf TILE_SIZE 81 + 1 = rowOf TILE_SIZE 96
  ∧ cleared.1 = true
  ∧ rowColliders cleared.2 = rowColliders fresh
  ∧ rowColliderGroup cleared.2 = rowColliderGroup fresh.
Proof.
  intros generated cleared.
  pose proof sixteen_positive as Hpos. pose proof fresh_reachable as Hreach.
  assert (Hg : generates TILE_SIZE 96 false fresh = true) by by vm_compute.
  assert (Hrow : rowOf TILE_SIZE 81 + 1 = rowOf TILE_SIZE 96)
    by by vm_compute.
  destruct (generate_then_clear TILE_SIZE random Hpos 96 81 false fresh Hreach
              Hg Hrow) as (Htrue & Hcolliders & _ & Hgroup & _).
  split_and!; [exact Hpos | exact Hreach | exact Hg | exact Hrow | exact Htrue
              | exact Hcolliders | exact Hgroup].
Defined.

(** Row 25 is the last row of the initial chunk; the frontier is at 416. *)
Lemma generateInitialChunk_rows_witness :
  (0 < TILE_SIZE)%Q
  ∧ is_Some (rowColliders (generateInitialChunk TILE_SIZE random fresh) !! 25)
  ∧ (generatedRowsMaxY (generateInitialChunk TILE_SIZE random fresh)
     == inject_Z (initialPlatformRows + 21) * TILE_SIZE)%Q.
Proof.
  pose proof sixteen_positive as Hpos.
  destruct (generateInitialChunk_rows TILE_SIZE random Hpos fresh 25)
    as [Hstored Hfrontier].
  assert (Hin : initialPlatformRows ≤ 25 ≤ initialPlatformRows + 20)
    by (unfold initialPlatformRows; lia).
  split; [exact Hpos|].
  split; [exact (proj2 Hstored (or_intror Hin)) | exact Hfrontier].
Defined.

(** After the two frames of the scenario row 26 is stored. *)
Lemma updates_rows_witness :
  (0 < TILE_SIZE)%Q
  ∧ is_Some (rowColliders (updates TILE_SIZE random cameras chunk) !! 26).
Proof.
  pose proof sixteen_positive as Hpos.
  destruct (updates_rows TILE_SIZE random Hpos cameras chunk 26)
    as (_ & _ & Hadded).
  assert (Hbounds : initialPlatformRows < 26 < mapHeightTiles)
    by (unfold initialPlatformRows, mapHeightTiles; lia).
  assert (Hstart : rowOf TILE_SIZE (generatedRowsMaxY chunk) ≤ 26)
    by by vm_compute.
  assert (Hend :
    (inject_Z (26 + 1) * TILE_SIZE
     <= generatedRowsMaxY (updates TILE_SIZE random cameras chunk))%Q)
    by by vm_compute.
  split; [exact Hpos | exact (Hadded Hbounds Hstart Hend)].
Defined.

(** A second update with the camera higher up changes nothing. *)
Lemma update_absorbs_witness :
  (100 <= 260)%Q
  ∧ update TILE_SIZE random 100 (update TILE_SIZE random 260 chunk)
    = update TILE_SIZE random 260 chunk.
Proof.
  assert (Hle : (100 <= 260)%Q) by by vm_compute.
  destruct (update_absorbs TILE_SIZE random 260 100 chunk Hle) as [_ Hsame].
  split; [exact Hle | exact Hsame].
Defined.

(** The loop of the initial chunk, from 96 to 416, makes 20 iterations. *)
Lemma row_loop_iterations_witness :
  (0 < TILE_SIZE)%Q
  ∧ Z.of_nat (rowSteps TILE_SIZE 96 416)
    = Z.max 0 (Qceiling ((416 - 96) / TILE_SIZE))
  ∧ length (loopYs TILE_SIZE (rowSteps TILE_SIZE 96 416) 96 416)
    = rowSteps TILE_SIZE 96 416.
Proof.
  pose proof sixteen_positive as Hpos.
  destruct (row_loop_iterations TILE_SIZE random Hpos 96 416 30
              (λ y s, generateRow TILE_SIZE random y false s) fresh)
    as (Hsteps & Hlength & _).
  split; [exact Hpos|]. split; [exact Hsteps | exact Hlength].
Defined.

(** The scenario explosion, whose centre is in the middle of row 10. *)
Lemma explosion_inside_world_witness :
  store_inv chunk
  ∧ (0 <= radius blast)%Q
  ∧ (0 <= worldX blast)%Q
  ∧ (worldX blast <= mapWidthPixels TILE_SIZE)%Q
  ∧ rowColliders (handleCreateExplosion TILE_SIZE blast chunk) !! 10 = None
  ∧ rowVisuals (handleCreateExplosion TILE_SIZE blast chunk) !! 10 = None.
Proof.
  pose proof sixteen_positive as Hpos.
  assert (Hfresh : store_inv fresh) by reflexivity.
  pose proof (generateInitialChunk_store_inv TILE_SIZE random fresh Hfresh)
    as Hinv.
  fold chunk in Hinv.
  assert (Hr : (0 <= radius blast)%Q) by by vm_compute.
  assert (Hx0 : (0 <= worldX blast)%Q) by by vm_compute.
  assert (Hx1 : (worldX blast <= mapWidthPixels TILE_SIZE)%Q)
    by by vm_compute.
  destruct (explosion_inside_world TILE_SIZE Hpos blast chunk 10 Hinv Hr Hx0
              Hx1) as [Hin _].
  assert (Hnear :
    ((worldY blast - (inject_Z 10 * TILE_SIZE + TILE_SIZE / 2))
     * (worldY blast - (inject_Z 10 * TILE_SIZE + TILE_SIZE / 2))
     <= radius blast * radius blast)%Q) by by vm_compute.
  destruct (Hin Hnear) as [Hcollider Hvisual].
  split_and!; [exact Hinv | exact Hr | exact Hx0 | exact Hx1 | exact Hcollider
              | exact Hvisual].
Defined.

(** An explosion 800 units to the right of the middle clears no row. *)
Lemma explosion_far_away_witness :
  (radius farBlast * radius farBlast
   + (mapWidthPixels TILE_SIZE / 2) * (mapWidthPixels TILE_SIZE / 2)
   < (worldX farBlast - mapWidthPixels TILE_SIZE / 2)
     * (worldX farBlast - mapWidthPixels TILE_SIZE / 2))%Q
  ∧ handleCreateExplosion TILE_SIZE farBlast chunk
    = damageEntitiesInBlast farBlast chunk.
Proof.
  assert (Hfar :
    (radius farBlast * radius farBlast
     + (mapWidthPixels TILE_SIZE / 2) * (mapWidthPixels TILE_SIZE / 2)
     < (worldX farBlast - mapWidthPixels TILE_SIZE / 2)
       * (worldX farBlast - mapWidthPixels TILE_SIZE / 2))%Q)
    by by vm_compute.
  split; [exact Hfar|].
  exact (explosion_far_away TILE_SIZE farBlast chunk Hfar).
Defined.

(** The events of the scenario explosion on the initial chunk. *)
Lemma explosion_events_witness :
  (0 < TILE_SIZE)%Q
  ∧ eventBus (handleCreateExplosion TILE_SIZE blast chunk)
    = eventBus chunk
      ++ filter
           (λ k, rowInBlast TILE_SIZE blast k = true
                 ∧ is_Some (rowColliders chunk !! k))
           (seqZ
              (Qfloor (worldY blast / TILE_SIZE)
               - Qceiling (radius blast / TILE_SIZE))
              (2 * Qceiling (radius blast / TILE_SIZE) + 1)).
Proof.
  pose proof sixteen_positive as Hpos.
  split; [exact Hpos|].
  exact (explosion_events TILE_SIZE Hpos blast chunk).
Defined.

(** Row 330 generated on the fresh manager: none of the 25 columns is
    occupied, so the row receives 25 boulders for 25 draws. *)
Lemma generateRow_deep_rows_witness :
  let s' := generateRow TILE_SIZE random deepRowY false fresh in
  (∀ n, (random n < 1)%Q)
  ∧ 330 ≤ rowOf TILE_SIZE deepRowY
  ∧ generates TILE_SIZE deepRowY false fresh = true
  ∧ s' = fold_left
           (boulderCell TILE_SIZE
              (rowSpawn TILE_SIZE deepRowY (rowOf TILE_SIZE deepRowY)))
           (seqZ 0 mapWidthTiles)
           (addRowVisual TILE_SIZE deepRowY (rowOf TILE_SIZE deepRowY)
              (addRowCollider TILE_SIZE deepRowY (rowOf TILE_SIZE deepRowY)
                 fresh))
  ∧ length (bouldersGroup s') = 25%nat
  ∧ randomCalls s' = 25%nat
  ∧ enemiesGroup s' = enemiesGroup fresh
  ∧ coinsGroup s' = coinsGroup fresh.
Proof.
  intros s'.
  assert (Hrandom : ∀ n, (random n < 1)%Q) by (intros n; reflexivity).
  assert (Hdeep : 330 ≤ rowOf TILE_SIZE deepRowY) by by vm_compute.
  assert (Hg : generates TILE_SIZE deepRowY false fresh = true)
    by by vm_compute.
  destruct (generateRow_deep_rows TILE_SIZE random deepRowY false fresh
              Hrandom) as [_ Honly].
  destruct (Honly Hdeep) as (_ & Hrow & _ & Henemies & _ & Hcoins & _).
  split_and!; [exact Hrandom | exact Hdeep | exact Hg | exact (Hrow Hg)
              | by vm_compute | by vm_compute | exact Henemies | exact Hcoins].
Defined.

(** The spawn point of the scenario world: row 4, above the platform. *)
Lemma spawn_point_above_platform_witness :
  (0 < TILE_SIZE)%Q
  ∧ reachable TILE_SIZE random fresh
  ∧ rowOf TILE_SIZE (getInitialSpawnPoint TILE_SIZE).2
    = initialPlatformRows - 1
  ∧ is_Some
      (rowColliders (generateInitialChunk TILE_SIZE random fresh)
         !! (rowOf TILE_SIZE (getInitialSpawnPoint TILE_SIZE).2 + 1)).
Proof.
  pose proof sixteen_positive as Hpos. pose proof fresh_reachable as Hreach.
  destruct (spawn_point_above_platform TILE_SIZE random Hpos fresh Hreach)
    as (_ & _ & _ & _ & Hrow & _ & Hground).
  split_and!; [exact Hpos | exact Hreach | exact Hrow | exact Hground].
Defined.

(** An entity as high as the player's body, snapped to row 6. *)
Lemma getRowSurfaceY_row_witness :
  (0 < TILE_SIZE)%Q
  ∧ (0 < 14.4)%Q
  ∧ (14.4 <= 2 * TILE_SIZE)%Q
  ∧ rowOf TILE_SIZE (getRowSurfaceY TILE_SIZE (inject_Z 6) 14.4) = 6 - 1.
Proof.
  pose proof sixteen_positive as Hpos.
  assert (Hlow : (0 < 14.4)%Q) by by vm_compute.
  assert (Hhigh : (14.4 <= 2 * TILE_SIZE)%Q) by by vm_compute.
  destruct (getRowSurfaceY_row TILE_SIZE Hpos 6 14.4 Hlow Hhigh)
    as (_ & Hrow & _).
  split_and!; [exact Hpos | exact Hlow | exact Hhigh | exact Hrow].
Defined.

(** The player digs at time 1000 and tries again at time 1100. *)
Lemma dig_cooldown_witness :
  let dug := attemptJumpAndDig TILE_SIZE 1000 digger chunk in
  canJumpOrDig 1000 digger = true
  ∧ (1100 <= 1000 + digCooldown)%Q
  ∧ lastDigTime dug.1 = 1000%Q
  ∧ attemptJumpAndDig TILE_SIZE 1100 dug.1 dug.2 = (dug.1, dug.2).
Proof.
  intros dug.
  assert (Hcan : canJumpOrDig 1000 digger = true) by by vm_compute.
  assert (Hsoon : (1100 <= 1000 + digCooldown)%Q) by by vm_compute.
  destruct (dig_cooldown TILE_SIZE 1000 1100 digger dug.1 chunk dug.2 Hcan
              eq_refl Hsoon) as [Hlast Hnothing].
  split_and!; [exact Hcan | exact Hsoon | exact Hlast | exact Hnothing].
Defined.

(** The dig of the scenario player: feet at 79, the point 80 lies in row 5,
    row 6 is cleared. *)
Lemma dig_clears_row_below_witness :
  let k := rowOf TILE_SIZE (body_bottom standingBody + 1) + 1 in
  let result := attemptJumpAndDig TILE_SIZE 1000 digger chunk in
  (0 < TILE_SIZE)%Q
  ∧ reachable TILE_SIZE random chunk
  ∧ canJumpOrDig 1000 digger = true
  ∧ player_body digger = Some standingBody
  ∧ k = 6
  ∧ rowColliders result.2 = delete k (rowColliders chunk)
  ∧ eventBus result.2
    = eventBus chunk
      ++ (if decide (is_Some (rowColliders chunk !! k)) then [k] else []).
Proof.
  intros k result.
  pose proof sixteen_positive as Hpos. pose proof chunk_reachable as Hreach.
  assert (Hcan : canJumpOrDig 1000 digger = true) by by vm_compute.
  assert (Hbody : player_body digger = Some standingBody) by reflexivity.
  assert (Hk : k = 6) by by vm_compute.
  destruct (dig_clears_row_below TILE_SIZE random Hpos 1000 digger
              standingBody chunk Hreach Hcan Hbody)
    as (_ & _ & _ & _ & Hcolliders & _ & Hevents & _).
  split_and!; [exact Hpos | exact Hreach | exact Hcan | exact Hbody | exact Hk
              | exact Hcolliders | exact Hevents].
Defined.

(** The first frame of the started scene. *)
Lemma Game_update_terrain_witness :
  reachable TILE_SIZE random (terrainManager startedGame)
  ∧ reachable TILE_SIZE random
      (terrainManager (Game_update TILE_SIZE random firstFrame startedGame))
  ∧ (generatedRowsMaxY (terrainManager startedGame)
     <= generatedRowsMaxY
          (terrainManager
             (Game_update TILE_SIZE random firstFrame startedGame)))%Q.
Proof.
  assert (Hreach : reachable TILE_SIZE random (terrainManager startedGame))
    by exact chunk_reachable.
  destruct (Game_update_terrain TILE_SIZE random firstFrame startedGame
              Hreach) as (Hafter & _ & Hfrontier & _).
  split_and!; [exact Hreach | exact Hafter | exact Hfrontier].
Defined.

(** The depth bookkeeping of the started scene through its first frame. *)
Lemma Game_update_depth_witness :
  depth_inv startedGame
  ∧ depth_inv (Game_update TILE_SIZE random firstFrame startedGame)
  ∧ maxDepthReached startedGame
    ≤ maxDepthReached (Game_update TILE_SIZE random firstFrame startedGame).
Proof.
  assert (Hinv : depth_inv startedGame).
  { unfold depth_inv, startedGame. simpl.
    split_and!; try lia; intros; discriminate. }
  destruct (Game_update_depth TILE_SIZE random firstFrame startedGame Hinv)
    as (Hafter & Hmax & _).
  split_and!; [exact Hinv | exact Hafter | exact Hmax].
Defined.

End MoreExamples.
